(** * Grimoire: the content-to-site pipeline of [grimoire.py]

    A shallow embedding of the name formatter, the document loader, the
    content scanner, the category tree builder and the navigation renderer
    of [src/grimoire.py], with the properties of the specification proved
    or refuted on it.

    Conventions of the embedding.
    - A Python [str] is a [list ascii].  The methods of [str] used by the
      program ([split], [strip], [lower], [upper], [capitalize], [isupper],
      [isalnum], ...) are given with Python's meaning on ASCII text; the code
      points 128..255 of [ascii] are taken as caseless symbols that are
      neither white space nor alphanumeric.
    - A Python [dict] is an association list in insertion order with unique
      keys ([dget], [dset]); a Python [set] of strings is a list used only
      through membership.
    - A [pathlib.Path] is the list of its parts.
    - Code that can raise returns [option]; [None] stands for a raised
      exception. *)

From Stdlib Require Import List Ascii String Bool Arith ZArith Lia Permutation.
From Stdlib Require Import DecimalString.
Import ListNotations.

(* ================================================================== *)
(** ** Python strings *)
(* ================================================================== *)

Definition str := list ascii.

(** String literals of the source. *)
Definition s (x : string) : str := list_ascii_of_string x.

Definition code (c : ascii) : nat := nat_of_ascii c.

Definition ch_eqb (a b : ascii) : bool := Ascii.eqb a b.

Fixpoint str_eqb (a b : str) : bool :=
  match a, b with
  | [], [] => true
  | x :: a', y :: b' => ch_eqb x y && str_eqb a' b'
  | _, _ => false
  end.

(** [c.isspace()]: TAB LF VT FF CR, FS GS RS US and SPACE. *)
Definition isspace (c : ascii) : bool :=
  let n := code c in
  ((9 <=? n) && (n <=? 13)) || ((28 <=? n) && (n <=? 32)).

Definition isdigit (c : ascii) : bool :=
  let n := code c in (48 <=? n) && (n <=? 57).

Definition isupper_c (c : ascii) : bool :=
  let n := code c in (65 <=? n) && (n <=? 90).

Definition islower_c (c : ascii) : bool :=
  let n := code c in (97 <=? n) && (n <=? 122).

Definition isalnum_c (c : ascii) : bool :=
  isdigit c || isupper_c c || islower_c c.

Definition upper_c (c : ascii) : ascii :=
  if islower_c c then ascii_of_nat (code c - 32) else c.

Definition lower_c (c : ascii) : ascii :=
  if isupper_c c then ascii_of_nat (code c + 32) else c.

(** [s.lower()], [s.upper()], [s.capitalize()], [s.isupper()]. *)
Definition lower (t : str) : str := map lower_c t.
Definition upper (t : str) : str := map upper_c t.

Definition capitalize (t : str) : str :=
  match t with
  | [] => []
  | c :: r => upper_c c :: lower r
  end.

Definition isupper (t : str) : bool :=
  forallb (fun c => negb (islower_c c)) t && existsb isupper_c t.

(** [sep.join(parts)]. *)
Fixpoint join (sep : str) (parts : list str) : str :=
  match parts with
  | [] => []
  | [p] => p
  | p :: ps => p ++ sep ++ join sep ps
  end.

(** [s.split()]: the maximal runs of characters that are not white
    space. *)
Fixpoint split_ws (t : str) : list str :=
  match t with
  | [] => []
  | c :: t' =>
      if isspace c then split_ws t'
      else match t' with
           | [] => [[c]]
           | c' :: _ =>
               if isspace c' then [c] :: split_ws t'
               else match split_ws t' with
                    | w :: ws => (c :: w) :: ws
                    | [] => [[c]]
                    end
           end
  end.

(** [s.split(sep)] for a one-character separator: never empty. *)
Fixpoint split_on (sep : ascii) (t : str) : list str :=
  match t with
  | [] => [[]]
  | c :: t' =>
      if ch_eqb c sep then [] :: split_on sep t'
      else match split_on sep t' with
           | w :: ws => (c :: w) :: ws
           | [] => [[c]]
           end
  end.

(** [s.replace(old, new)] for a one-character [old]. *)
Definition replace (old : ascii) (new : str) (t : str) : str :=
  flat_map (fun c => if ch_eqb c old then new else [c]) t.

Fixpoint dropwhile (p : ascii -> bool) (t : str) : str :=
  match t with
  | [] => []
  | c :: t' => if p c then dropwhile p t' else t
  end.

Fixpoint takewhile (p : ascii -> bool) (t : str) : str :=
  match t with
  | [] => []
  | c :: t' => if p c then c :: takewhile p t' else []
  end.

Definition strip_with (p : ascii -> bool) (t : str) : str :=
  rev (dropwhile p (rev (dropwhile p t))).

(** [s.strip()] and [s.strip(chars)]. *)
Definition strip (t : str) : str := strip_with isspace t.

Definition in_chars (chars : str) (c : ascii) : bool := existsb (ch_eqb c) chars.

Definition strip_chars (chars : str) (t : str) : str :=
  strip_with (in_chars chars) t.

Fixpoint startswith (t prefix : str) : bool :=
  match prefix, t with
  | [], _ => true
  | p :: prefix', c :: t' => ch_eqb c p && startswith t' prefix'
  | _ :: _, [] => false
  end.

(** [x in s] for a one-character [x]. *)
Definition contains (c : ascii) (t : str) : bool := existsb (ch_eqb c) t.

(** Membership in a Python set (or list) of strings. *)
Definition pyset := list str.
Definition mem (x : str) (l : pyset) : bool := existsb (str_eqb x) l.

(* ================================================================== *)
(** ** Display name handling *)
(* ================================================================== *)

Definition LOWERCASE_WORDS : pyset :=
  map s ["and"; "or"; "the"; "a"; "an"; "in"; "on"; "at"; "to"; "for";
         "of"; "with"]%string.

(** The character class [[\-_.\s]] of the prefix pattern. *)
Definition is_prefix_sep (c : ascii) : bool :=
  ch_eqb c "-"%char || ch_eqb c "_"%char || ch_eqb c "."%char || isspace c.

(** [re.sub(r'^\d+[\-_.\s]+', '', name)]: both runs are greedy and the
    pattern is anchored, so there is at most one match, at position 0. *)
Definition strip_number_prefix (name : str) : str :=
  match takewhile isdigit name with
  | [] => name
  | _ :: _ =>
      let rest := dropwhile isdigit name in
      match takewhile is_prefix_sep rest with
      | [] => name
      | _ :: _ => dropwhile is_prefix_sep rest
      end
  end.

(** The loop of [capitalize_with_acronyms]: [i] is the index that
    [enumerate] gives, [result] the list appended to. *)
Fixpoint capitalize_loop (acronyms : pyset) (i : nat) (words result : list str)
  : list str :=
  match words with
  | [] => result
  | word :: words' =>
      let word_lower := lower word in
      let result' :=
        if mem word_lower acronyms then result ++ [upper word]
        else if (2 <=? List.length word) && isupper word then result ++ [word]
        else if (i =? 0) || negb (mem word_lower LOWERCASE_WORDS)
             then result ++ [capitalize word]
        else result ++ [word_lower] in
      capitalize_loop acronyms (S i) words' result'
  end.

Definition capitalize_with_acronyms (text : str) (acronyms : option pyset) : str :=
  let acronyms := match acronyms with None => [] | Some a => a end in
  let words := split_ws text in
  join (s " ") (capitalize_loop acronyms 0 words []).

(** A Python dict: association list in insertion order. *)
Definition dict (V : Type) := list (str * V).

Fixpoint dget {V} (d : dict V) (k : str) : option V :=
  match d with
  | [] => None
  | (k', v) :: d' => if str_eqb k k' then Some v else dget d' k
  end.

Definition din {V} (d : dict V) (k : str) : bool :=
  match dget d k with Some _ => true | None => false end.

(** [d[k] = v]: overwrite in place, or append a new key. *)
Fixpoint dset {V} (d : dict V) (k : str) (v : V) : dict V :=
  match d with
  | [] => [(k, v)]
  | (k', v') :: d' =>
      if str_eqb k k' then (k', v) :: d' else (k', v') :: dset d' k v
  end.

Definition format_display_name (name : str) (strip_prefix : bool)
  (acronyms : option pyset) (overrides : option (dict str)) : str :=
  if negb strip_prefix then name
  else
    let overrides := match overrides with None => [] | Some o => o end in
    match dget overrides name with
    | Some v => v
    | None =>
        let stripped := strip_number_prefix name in
        match dget overrides stripped with
        | Some v => v
        | None =>
            let display := replace "_"%char (s " ") (replace "-"%char (s " ") stripped) in
            capitalize_with_acronyms display acronyms
        end
    end.

(* ================================================================== *)
(** ** Document loader *)
(* ================================================================== *)

(** [round(n / d)] for [d > 0]: Python rounds a float to the nearest
    integer, ties to the even one.  [n / d] is computed exactly here; the
    float quotient rounds the same way as long as the word count stays far
    below 2^53. *)
Definition py_round_div (n d : Z) : Z :=
  let q := (n / d)%Z in
  let r := (n mod d)%Z in
  if (2 * r <? d)%Z then q
  else if (d <? 2 * r)%Z then (q + 1)%Z
  else if Z.even q then q else (q + 1)%Z.

Definition calculate_reading_time (content : str) : Z :=
  let words := Z.of_nat (List.length (split_ws content)) in
  Z.max 1 (py_round_div words 200).

Definition LF : ascii := ascii_of_nat 10.

(** What a frontmatter header can load to: a mapping, or some other
    YAML value (a list, a scalar), on which [.get] raises later. *)
Inductive frontmatter_t :=
| FmDict (d : dict str)
| FmOther.

(** Result of the YAML collaborator: a falsy document ([None], empty),
    a mapping, or another truthy value. *)
Inductive yaml_doc :=
| YFalsy
| YDict (d : dict str)
| YOther.

(** First occurrence of [pat] in [t]: the text before and after it. *)
Fixpoint find_sub (pat t : str) : option (str * str) :=
  if startswith t pat then Some ([], skipn (List.length pat) t)
  else match t with
       | [] => None
       | c :: t' =>
           match find_sub pat t' with
           | Some (b, a) => Some (c :: b, a)
           | None => None
           end
       end.

(** [t.split(sep, 1)] when [sep] occurs in [t]: the text before the first
    [sep] and the text after it. *)
Definition split_first (sep : ascii) (t : str) : str * str :=
  (takewhile (fun c => negb (ch_eqb c sep)) t,
   skipn 1 (dropwhile (fun c => negb (ch_eqb c sep)) t)).

(** The [for i, line in enumerate(lines)] loop of the [%] format, with
    its [break]. *)
Fixpoint percent_loop (lines : list str) (i : nat) (frontmatter : dict str)
  (content_start : nat) : dict str * nat :=
  match lines with
  | [] => (frontmatter, content_start)
  | line :: lines' =>
      if startswith line (s "%") then
        let line_content := strip (skipn 1 line) in
        let frontmatter' :=
          if contains ":"%char line_content then
            let '(key, value) := split_first ":"%char line_content in
            let key := replace " "%char (s "_") (lower (strip key)) in
            dset frontmatter key (strip value)
          else frontmatter in
        percent_loop lines' (S i) frontmatter' (i + 1)
      else (frontmatter, content_start)
  end.

Section Loader.

(** [yaml.safe_load]: [None] when it raises. *)
Variable yaml_safe_load : str -> option yaml_doc.

Definition parse_frontmatter (content : str) : frontmatter_t * str :=
  if startswith content (s "---") then
    (* parts = content.split('---', 2); parts[0] is empty *)
    match find_sub (s "---") (skipn 3 content) with
    | Some (part1, part2) =>
        match yaml_safe_load part1 with
        | Some YFalsy => (FmDict [], strip part2)
        | Some (YDict d) => (FmDict d, strip part2)
        | Some YOther => (FmOther, strip part2)
        | None => (FmDict [], content)
        end
    | None => (FmDict [], content)
    end
  else if startswith content (s "%") then
    let lines := split_on LF content in
    let '(frontmatter, content_start) := percent_loop lines 0 [] 0 in
    (FmDict frontmatter, strip (join [LF] (skipn content_start lines)))
  else (FmDict [], content).

End Loader.

(* ================================================================== *)
(** ** Paths *)
(* ================================================================== *)

(** A [pathlib.Path] as the list of its parts. *)
Definition path := list str.

Definition path_name (p : path) : str := last p [].

(** [name.rfind(c)]. *)
Fixpoint rfind (c : ascii) (t : str) : option nat :=
  match t with
  | [] => None
  | x :: t' =>
      match rfind c t' with
      | Some i => Some (S i)
      | None => if ch_eqb x c then Some 0 else None
      end
  end.

(** The index at which pathlib cuts a name into stem and suffix:
    [i = name.rfind('.')] when [0 < i < len(name) - 1]. *)
Definition suffix_index (name : str) : option nat :=
  match rfind "."%char name with
  | Some i => if (0 <? i) && (i <? List.length name - 1) then Some i else None
  | None => None
  end.

Definition name_stem (name : str) : str :=
  match suffix_index name with
  | Some i => firstn i name
  | None => name
  end.

Definition path_stem (p : path) : str := name_stem (path_name p).

(** [p.with_suffix(suffix)] for a path with a non-empty name. *)
Definition with_suffix (p : path) (suffix : str) : path :=
  removelast p ++ [name_stem (path_name p) ++ suffix].

(** [str(p)] for a relative POSIX path. *)
Definition path_str (p : path) : str := join (s "/") p.

(** [p.relative_to(root)]: [None] is the [ValueError]. *)
Fixpoint relative_to (p root : path) : option path :=
  match root, p with
  | [], _ => Some p
  | r :: root', x :: p' => if str_eqb x r then relative_to p' root' else None
  | _ :: _, [] => None
  end.

(** Order of strings (by code point) and of paths (by parts). *)
Fixpoint str_leb (a b : str) : bool :=
  match a, b with
  | [], _ => true
  | _ :: _, [] => false
  | x :: a', y :: b' =>
      if code x <? code y then true
      else if code y <? code x then false
      else str_leb a' b'
  end.

Fixpoint path_leb (a b : path) : bool :=
  match a, b with
  | [], _ => true
  | _ :: _, [] => false
  | x :: a', y :: b' =>
      if str_eqb x y then path_leb a' b' else str_leb x y
  end.

(** [sorted(l, key=...)]: a stable sort. *)
Fixpoint insert_sorted {A} (leb : A -> A -> bool) (x : A) (l : list A) : list A :=
  match l with
  | [] => [x]
  | y :: l' => if leb x y then x :: l else y :: insert_sorted leb x l'
  end.

Fixpoint sorted {A} (leb : A -> A -> bool) (l : list A) : list A :=
  match l with
  | [] => []
  | x :: l' => insert_sorted leb x (sorted leb l')
  end.

(* ================================================================== *)
(** ** Pages, configuration, collaborators *)
(* ================================================================== *)

(** The page dictionary built by [process_markdown_file]. *)
Record page := mkPage {
  page_id : str;
  url : str;
  title : str;
  icon : str;
  levels_raw : list str;
  levels : list str;
  depth : nat;
  category : str;
  html_content : str;
  reading_time : Z;
  file_path : path;
  relative_path : path;
  frontmatter : dict str
}.

(** The entries of [config.json] read by the modelled code, each with
    the default of its [.get] already applied, except [exclude_folders]. *)
Record config := mkConfig {
  strip_prefix : bool;                 (* ui.strip_number_prefix *)
  acronyms : pyset;                    (* formatting.acronyms *)
  display_overrides : dict str;        (* formatting.display_name_overrides *)
  exclude_folders : option (list str); (* paths.exclude_folders *)
  show_bookmarks : bool;               (* ui.show_bookmarks *)
  category_icons : dict str;           (* ui.category_icons *)
  default_icon : str                   (* ui.default_icon *)
}.

(** The file system as the scanner sees it.  [rglob dir] lists, in the
    order of the walk, the entries below [dir] whose name matches [*.md],
    each as its path relative to [dir]; [read_text] is [None] when
    opening or decoding the file raises. *)
Record filesystem := mkFs {
  dir_exists : path -> bool;
  rglob_md : path -> list path;
  read_text : path -> option str
}.

(** Lines printed by the run. *)
Inductive message :=
| MsgGenerating                      (* [*] Generating documentation site... *)
| MsgContentDirNotFound (d : path)   (* [!] Content directory not found: d *)
| MsgNoMarkdown                      (* [!] No markdown files found! *)
| MsgErrorProcessing (f : path)      (* [!] Error processing f: e *)
| MsgHeader (d : path)               (* [*] Grimoire, Config, Input, Output, Template *)
| MsgDone (n : nat).                 (* [+] Done! Generated n pages *)

(** The mutable part of the converter while scanning: [self.categories]
    and what was printed so far. *)
Record state := mkState {
  categories : dict (list page);
  printed : list message
}.

Definition print (m : message) (st : state) : state :=
  mkState (categories st) (printed st ++ [m]).

Definition default_exclude_folders : list str :=
  map s [".trash"; ".obsidian"; ".git"; "__pycache__"; "node_modules"]%string.

(** [is_valid_name] of [scan_directory]. *)
Definition is_valid_name (name : str) : bool :=
  let name_without_ext :=
    match rfind "."%char name with
    | Some i => firstn i name          (* name.rsplit('.', 1)[0] *)
    | None => name
    end in
  let stripped := strip_chars (s "-_=. ") name_without_ext in
  negb (match stripped with [] => true | _ => false end)
  && existsb isalnum_c stripped.

(** [a or b] on strings that may be missing. *)
Definition or_str (a : option str) (b : str) : str :=
  match a with
  | Some (c :: r) => c :: r
  | _ => b
  end.

Section Scanner.

Variable yaml_safe_load : str -> option yaml_doc.
(** [self.md.convert] followed by [fix_prism_language_classes];
    [None] when the conversion raises. *)
Variable render_markdown : str -> option str.
Variable fs : filesystem.
Variable cfg : config.

Definition format_category_name (name : str) : str :=
  match name with
  | [] => []
  | _ => format_display_name name (strip_prefix cfg) (Some (acronyms cfg))
           (Some (display_overrides cfg))
  end.

Definition get_page_hierarchy (file_path root_dir : path)
  : option (list str * list str * str * nat) :=
  match relative_to file_path root_dir with
  | None => None
  | Some relative_path =>
      let parts := removelast relative_path in
      let levels_raw := parts in
      let levels :=
        map (fun p => format_display_name p (strip_prefix cfg)
                        (Some (acronyms cfg)) (Some (display_overrides cfg)))
            parts in
      let category :=
        match levels with
        | [] => s "General"
        | _ => join (s " > ") levels
        end in
      Some (levels_raw, levels, category, List.length levels)
  end.

Definition generate_page_id (file_path root_dir : path) : option str :=
  match relative_to file_path root_dir with
  | None => None
  | Some relative_path =>
      Some (replace "\"%char (s "-")
              (replace "/"%char (s "-")
                 (path_str (with_suffix relative_path []))))
  end.

Definition generate_page_url (file_path root_dir : path) : option str :=
  match relative_to file_path root_dir with
  | None => None
  | Some relative_path =>
      Some (replace "\"%char (s "/")
              (path_str (with_suffix relative_path (s ".html"))))
  end.

(** The body of the [try] of [process_markdown_file]; [None] when
    anything in it raises. *)
Definition process_markdown_file_try (file_path root_dir : path) : option page :=
  match read_text fs file_path with
  | None => None
  | Some content =>
      match parse_frontmatter yaml_safe_load content with
      | (FmOther, _) => None          (* frontmatter.get on a non-mapping *)
      | (FmDict frontmatter, markdown_content) =>
          match get_page_hierarchy file_path root_dir with
          | None => None
          | Some (h_levels_raw, h_levels, h_category, h_depth) =>
              let title :=
                or_str (dget frontmatter (s "display_name"))
                  (or_str (dget frontmatter (s "title"))
                     (format_display_name (path_stem file_path)
                        (strip_prefix cfg) (Some (acronyms cfg))
                        (Some (display_overrides cfg)))) in
              match render_markdown markdown_content with
              | None => None
              | Some html_content =>
                  match generate_page_id file_path root_dir,
                        generate_page_url file_path root_dir,
                        relative_to file_path root_dir with
                  | Some page_id, Some page_url, Some rel =>
                      let reading_time := calculate_reading_time markdown_content in
                      let icon :=
                        match dget frontmatter (s "icon") with
                        | Some v => v
                        | None => []
                        end in
                      Some (mkPage page_id page_url title icon h_levels_raw
                              h_levels h_depth h_category html_content
                              reading_time file_path rel frontmatter)
                  | _, _, _ => None
                  end
              end
          end
      end
  end.

(** [process_markdown_file]: an exception is caught, reported and
    turned into [None]. *)
Definition process_markdown_file (file_path root_dir : path) (st : state)
  : option page * state :=
  match process_markdown_file_try file_path root_dir with
  | Some page_data => (Some page_data, st)
  | None => (None, print (MsgErrorProcessing file_path) st)
  end.

(** The first loop of [scan_directory], over [content_dir.rglob('*.md')];
    [None] when [relative_to] raises. *)
Fixpoint select_md_files (content_dir : path) (excl : list str)
  (found md_files : list path) : option (list path) :=
  match found with
  | [] => Some md_files
  | f :: found' =>
      if str_eqb (path_name f) (s "index.md") then
        select_md_files content_dir excl found' md_files
      else if existsb (fun excluded => mem excluded f) excl then
        select_md_files content_dir excl found' md_files
      else if negb (is_valid_name (path_stem f)) then
        select_md_files content_dir excl found' md_files
      else
        match relative_to f content_dir with
        | None => None
        | Some rel =>
            if existsb (fun part => negb (is_valid_name part)) (removelast rel)
            then select_md_files content_dir excl found' md_files
            else select_md_files content_dir excl found' (md_files ++ [f])
        end
  end.

(** The second loop of [scan_directory], over [sorted(md_files)]. *)
Fixpoint process_md_files (content_dir : path) (md_files : list path)
  (pages : list page) (st : state) : list page * state :=
  match md_files with
  | [] => (pages, st)
  | md_file :: md_files' =>
      match process_markdown_file md_file content_dir st with
      | (Some page_data, st1) =>
          let level1 :=
            match levels_raw page_data with
            | l :: _ => l
            | [] => s "General"
            end in
          let cats := categories st1 in
          let cats1 := if din cats level1 then cats else dset cats level1 [] in
          let bucket := match dget cats1 level1 with Some b => b | None => [] end in
          let st2 := mkState (dset cats1 level1 (bucket ++ [page_data])) (printed st1) in
          process_md_files content_dir md_files' (pages ++ [page_data]) st2
      | (None, st1) => process_md_files content_dir md_files' pages st1
      end
  end.

Definition scan_directory (content_dir : path) (st : state)
  : option (list page * state) :=
  if negb (dir_exists fs content_dir) then
    Some ([], print (MsgContentDirNotFound content_dir) st)
  else
    let excl :=
      match exclude_folders cfg with
      | Some l => l
      | None => default_exclude_folders
      end in
    let found := map (fun rel => content_dir ++ rel) (rglob_md fs content_dir) in
    match select_md_files content_dir excl found [] with
    | None => None
    | Some md_files =>
        Some (process_md_files content_dir (sorted path_leb md_files) [] st)
    end.

(** Everything [generate_site] does once the page list is known not to
    be empty (assets, template, index, pages, sitemap, robots); [None]
    when an exception escapes. *)
Variable emit_site : list page -> state -> option state.

(** [generate_site]: the pages left in [self.all_pages] and the state,
    or [None] when an exception escapes. *)
Definition generate_site (content_dir : path) (st : state)
  : option (list page * state) :=
  let st := print MsgGenerating st in
  match scan_directory content_dir st with
  | None => None
  | Some (all_pages, st1) =>
      match all_pages with
      | [] => Some (all_pages, print MsgNoMarkdown st1)
      | _ :: _ =>
          match emit_site all_pages st1 with
          | Some st2 => Some (all_pages, st2)
          | None => None
          end
      end
  end.

(** [main] once the arguments and the configuration are resolved: what
    was printed and the exit status of the process (0 when [main]
    returns, 1 when an exception escapes; of a run that ends so only the
    header lines are kept). *)
Definition main (content_dir : path) : list message * Z :=
  let st := print (MsgHeader content_dir) (mkState [] []) in
  match generate_site content_dir st with
  | Some (all_pages, st1) =>
      (printed (print (MsgDone (List.length all_pages)) st1), 0%Z)
  | None => (printed st, 1%Z)
  end.

End Scanner.

(* ================================================================== *)
(** ** Category tree *)
(* ================================================================== *)

(** The values held by the tree dictionaries of [build_tree]: display
    names, page lists and nested dictionaries share one key space. *)
#[local] Unset Elimination Schemes.
Inductive pyval :=
| VStr (t : str)
| VList (ps : list page)
| VDict (d : list (str * pyval)).
#[local] Set Elimination Schemes.

Definition K_PAGES : str := s "__pages__".
Definition K_DISPLAY : str := s "__display__".

Definition new_node (display : str) : pyval :=
  VDict [(K_DISPLAY, VStr display); (K_PAGES, VList [])].

(** The inner loop of [build_tree], [for i, level_raw in
    enumerate(levels_raw)], followed by
    [current['__pages__'].append(page)].  [current] is the object the
    loop has reached; the result is that object after the mutations made
    below it.  [None] is a [TypeError], [KeyError], [IndexError] or
    [AttributeError]. *)
Fixpoint walk_levels (current : pyval) (rest : list str) (i : nat)
  (pg : page) : option pyval :=
  match rest with
  | [] =>
      match current with
      | VDict d =>
          match dget d K_PAGES with
          | Some (VList ps) => Some (VDict (dset d K_PAGES (VList (ps ++ [pg]))))
          | _ => None
          end
      | _ => None
      end
  | level_raw :: rest' =>
      match current with
      | VDict d =>
          let d1 :=
            if din d level_raw then Some d
            else match nth_error (levels pg) i with
                 | Some display => Some (dset d level_raw (new_node display))
                 | None => None
                 end in
          match d1 with
          | None => None
          | Some d1 =>
              match dget d1 level_raw with
              | None => None
              | Some child =>
                  match walk_levels child rest' (S i) pg with
                  | Some child' => Some (VDict (dset d1 level_raw child'))
                  | None => None
                  end
              end
          end
      | _ => None
      end
  end.

(** One iteration of [for page in pages] of [build_tree]. *)
Definition add_page (tree : pyval) (pg : page) : option pyval :=
  match levels_raw pg with
  | [] =>
      match tree with
      | VDict d =>
          let d1 := if din d K_PAGES then d else dset d K_PAGES (VList []) in
          match dget d1 K_PAGES with
          | Some (VList ps) => Some (VDict (dset d1 K_PAGES (VList (ps ++ [pg]))))
          | _ => None
          end
      | _ => None
      end
  | _ :: _ => walk_levels tree (levels_raw pg) 0 pg
  end.

Fixpoint add_pages (tree : pyval) (pages : list page) : option pyval :=
  match pages with
  | [] => Some tree
  | pg :: pages' =>
      match add_page tree pg with
      | Some tree' => add_pages tree' pages'
      | None => None
      end
  end.

Definition build_tree (pages : list page) : option pyval :=
  add_pages (VDict []) pages.

(** Walking down a tree along dictionary keys. *)
Fixpoint lookup_path (v : pyval) (p : list str) : option pyval :=
  match p with
  | [] => Some v
  | k :: p' =>
      match v with
      | VDict d =>
          match dget d k with
          | Some v' => lookup_path v' p'
          | None => None
          end
      | _ => None
      end
  end.

(** Two values look the same from outside: equal display names, the same
    pages up to their order, or two dictionaries. *)
Definition same_shape (a b : option pyval) : Prop :=
  match a, b with
  | None, None => True
  | Some (VStr x), Some (VStr y) => x = y
  | Some (VList x), Some (VList y) => Permutation x y
  | Some (VDict _), Some (VDict _) => True
  | _, _ => False
  end.

(** Isomorphic trees: under every path of raw folder names (and of the
    two reserved keys) both trees have a node or none, with the same
    display name and the same pages. *)
Definition tree_iso (a b : pyval) : Prop :=
  forall p, same_shape (lookup_path a p) (lookup_path b p).

Definition result_iso (a b : option pyval) : Prop :=
  match a, b with
  | None, None => True
  | Some x, Some y => tree_iso x y
  | _, _ => False
  end.

(* ================================================================== *)
(** ** Navigation *)
(* ================================================================== *)

(** The double quote. *)
Definition dq : str := [ascii_of_nat 34].

(** [html.escape(t)]. *)
Definition html_escape (t : str) : str :=
  flat_map (fun c =>
    if ch_eqb c "&"%char then s "&amp;"
    else if ch_eqb c "<"%char then s "&lt;"
    else if ch_eqb c ">"%char then s "&gt;"
    else if ch_eqb c (ascii_of_nat 34) then s "&quot;"
    else if ch_eqb c "'"%char then s "&#x27;"
    else [c]) t.

(** [raw.lower().replace(' ', '-').replace('&', 'and')]. *)
Definition slug (raw : str) : str :=
  replace "&"%char (s "and") (replace " "%char (s "-") (lower raw)).

(** [prefix * n]. *)
Fixpoint str_repeat (t : str) (n : nat) : str :=
  match n with
  | O => []
  | S n' => t ++ str_repeat t n'
  end.

Definition str_of_nat (n : nat) : str :=
  s (NilEmpty.string_of_uint (Nat.to_uint n)).

(** The pieces appended to [html_parts] and [nav_html]: one constructor
    per template of the source, carrying the values interpolated in it. *)
Inductive part :=
| CategoryOpen (level1_id icon_class level1_display : str)
| CategoryClose
| SubcategoryOpen (folder_id folder_display : str)
| SubcategoryClose
| DeepOpen (level_depth : nat) (folder_id folder_display : str)
| DeepClose
| NavItem (page_url indent_class data_page item_title bookmark_btn : str)
| RootItem (page_url data_page item_title bookmark_btn : str).

Definition DEFAULT_ICONS : dict str :=
  map (fun kv => (s (fst kv), s (snd kv)))
    [("getting started", "fas fa-rocket");
     ("getting-started", "fas fa-rocket");
     ("guides", "fas fa-book");
     ("tutorials", "fas fa-graduation-cap");
     ("api", "fas fa-plug");
     ("api reference", "fas fa-plug");
     ("examples", "fas fa-code");
     ("tools", "fas fa-tools");
     ("reference", "fas fa-bookmark");
     ("configuration", "fas fa-cog");
     ("deployment", "fas fa-rocket");
     ("security", "fas fa-shield-alt")]%string.

(** [for key in keys: if key in d: return d[key]]. *)
Fixpoint first_hit (d : dict str) (keys : list str) : option str :=
  match keys with
  | [] => None
  | k :: keys' =>
      match dget d k with
      | Some v => Some v
      | None => first_hit d keys'
      end
  end.

Definition title_leb (p q : page) : bool := str_leb (title p) (title q).

Definition key_leb {V} (a b : str * V) : bool := str_leb (fst a) (fst b).

(** [sorted(node.get('__pages__', []), key=lambda p: p['title'])]:
    iterating anything but a list of pages raises, unless it is empty. *)
Definition sorted_pages (v : option pyval) : option (list page) :=
  match v with
  | None => Some []
  | Some (VList ps) => Some (sorted title_leb ps)
  | Some (VDict []) => Some []
  | Some (VStr []) => Some []
  | Some _ => None
  end.

(** [folder_data.get('__display__', folder_raw)], then escaped:
    [None] when [folder_data] is no dictionary or the value no string. *)
Definition folder_display_of (folder_data : pyval) (folder_raw : str) : option str :=
  match folder_data with
  | VDict d =>
      match dget d K_DISPLAY with
      | None => Some folder_raw
      | Some (VStr t) => Some t
      | Some _ => None
      end
  | _ => None
  end.

(** [{k: v for k, v in sorted(node.items()) if not k.startswith('__')}]. *)
Definition subfolders_of {V} (items : list (str * V)) : list (str * V) :=
  filter (fun kv => negb (startswith (fst kv) (s "__"))) (sorted key_leb items).

Section Navigation.

Variable cfg : config.

Definition get_category_icon (category : str) : str :=
  let category_lower := lower category in
  let category_stripped :=
    replace "-"%char (s " ") (strip_number_prefix category_lower) in
  let category_hyphen := strip_number_prefix category_lower in
  match first_hit (category_icons cfg)
          [category_lower; category_stripped; category_hyphen; category] with
  | Some v => v
  | None =>
      match first_hit DEFAULT_ICONS [category_stripped; category_hyphen] with
      | Some v => v
      | None => default_icon cfg
      end
  end.

Definition bookmark_button (pg : page) : str :=
  if show_bookmarks cfg then
    s "<button class=" ++ dq ++ s "bookmark-btn" ++ dq ++ s " data-page=" ++ dq
      ++ page_id pg ++ dq ++ s "><i class=" ++ dq ++ s "far fa-bookmark" ++ dq
      ++ s "></i></button>"
  else [].

(** The first loop of [render_sublevel], given each subfolder with the
    markup of its own sublevel. *)
Fixpoint render_folders (level_depth : nat) (parent_id : str)
  (folders : list (str * (pyval * (str -> option (list part)))))
  : option (list part) :=
  match folders with
  | [] => Some []
  | (folder_raw, (folder_data, render_child)) :: folders' =>
      match folder_display_of folder_data folder_raw with
      | None => None
      | Some folder_display =>
          let folder_id := parent_id ++ s "-" ++ slug folder_raw in
          match render_child folder_id with
          | None => None
          | Some inner =>
              match render_folders level_depth parent_id folders' with
              | None => None
              | Some others =>
                  if level_depth =? 1 then
                    Some (SubcategoryOpen folder_id (html_escape folder_display)
                            :: inner ++ SubcategoryClose :: others)
                  else
                    Some (DeepOpen level_depth folder_id (html_escape folder_display)
                            :: inner ++ DeepClose :: others)
              end
          end
      end
  end.

(** The second loop of [render_sublevel]. *)
Definition render_pages (level_depth : nat) (url_prefix : str)
  (pages : list page) : list part :=
  map (fun pg =>
         let page_url := url_prefix ++ url pg in
         let indent_class :=
           if 0 <? level_depth
           then s "nav-item-depth-" ++ str_of_nat level_depth
           else s "nav-item" in
         NavItem page_url indent_class (page_id pg) (html_escape (title pg))
           (bookmark_button pg))
      pages.

(** [render_sublevel(node, parent_id, level_depth, url_prefix)]; the
    recursive call of the source, made inside the loop over the sorted
    subfolders, is prepared here for every entry of [node] before the
    entries are sorted and filtered. *)
Fixpoint render_sublevel (node : pyval) (parent_id : str) (level_depth : nat)
  (url_prefix : str) {struct node} : option (list part) :=
  match node with
  | VDict d =>
      let children :=
        (fix each (items : list (str * pyval)) :=
           match items with
           | [] => []
           | (k, v) :: items' =>
               (k, (v, fun folder_id =>
                         render_sublevel v folder_id (S level_depth) url_prefix))
               :: each items'
           end) d in
      match sorted_pages (dget d K_PAGES) with
      | None => None
      | Some pages =>
          match render_folders level_depth parent_id (subfolders_of children) with
          | None => None
          | Some folder_parts =>
              Some (folder_parts ++ render_pages level_depth url_prefix pages)
          end
      end
  | _ => None
  end.

(** The loop over the top-level categories. *)
Fixpoint render_categories (url_prefix : str) (cats : list (str * pyval))
  : option (list part) :=
  match cats with
  | [] => Some []
  | (level1_raw, level1_data) :: cats' =>
      let icon_class := get_category_icon level1_raw in
      let level1_id := slug level1_raw in
      match folder_display_of level1_data level1_raw with
      | None => None
      | Some level1_display =>
          match render_sublevel level1_data level1_id 1 url_prefix with
          | None => None
          | Some inner =>
              match render_categories url_prefix cats' with
              | None => None
              | Some others =>
                  Some (CategoryOpen level1_id icon_class (html_escape level1_display)
                          :: inner ++ CategoryClose :: others)
              end
          end
      end
  end.

Definition render_root_pages (url_prefix : str) (pages : list page) : list part :=
  map (fun pg =>
         RootItem (url_prefix ++ url pg) (page_id pg) (html_escape (title pg))
           (bookmark_button pg))
      pages.

(** [generate_navigation_html_for_depth(depth)] before the final
    [''.join]: the list of pieces. *)
Definition navigation_parts (all_pages : list page) (depth : Z)
  : option (list part) :=
  match build_tree all_pages with
  | Some (VDict tree) =>
      let url_prefix :=
        if (0 <? depth)%Z then str_repeat (s "../") (Z.to_nat depth) else [] in
      match sorted_pages (dget tree K_PAGES) with
      | None => None
      | Some root_pages =>
          match render_categories url_prefix (subfolders_of tree) with
          | None => None
          | Some cat_parts =>
              Some (cat_parts ++ render_root_pages url_prefix root_pages)
          end
      end
  | _ => None
  end.

End Navigation.



(* ================================================================== *)
(** ** Definitions used to state the properties *)
(* ================================================================== *)

(** [len(content.split())]. *)
Definition word_count (content : str) : Z :=
  Z.of_nat (List.length (split_ws content)).

(** The reading time as the specification words it: the ceiling of
    [words / 200], at least 1. *)
Definition spec_reading_time (words : Z) : Z :=
  Z.max 1 ((words + 199) / 200).

(** A body of [n] words. *)
Definition body_of_words (n : nat) : str :=
  List.concat (repeat (s "word ") n).

(** The word appended by one iteration of [capitalize_loop]. *)
Definition cased_word (acronyms : pyset) (i : nat) (word : str) : str :=
  if mem (lower word) acronyms then upper word
  else if (2 <=? List.length word) && isupper word then word
  else if (i =? 0) || negb (mem (lower word) LOWERCASE_WORDS)
       then capitalize word
  else lower word.

Fixpoint map_from {A B} (f : nat -> A -> B) (i : nat) (l : list A) : list B :=
  match l with
  | [] => []
  | x :: l' => f i x :: map_from f (S i) l'
  end.

(** A word as [split] yields them: not empty, no white space. *)
Definition wordlike (w : str) : Prop :=
  w <> [] /\ forallb (fun c => negb (isspace c)) w = true.

(** No hyphen and no underscore. *)
Definition plain (w : str) : Prop :=
  forallb (fun c => negb (ch_eqb c "-"%char) && negb (ch_eqb c "_"%char)) w = true.

(** The leading elements that satisfy [p], and what follows them. *)
Fixpoint leading {A} (p : A -> bool) (l : list A) : list A :=
  match l with
  | [] => []
  | x :: l' => if p x then x :: leading p l' else []
  end.

Fixpoint after_leading {A} (p : A -> bool) (l : list A) : list A :=
  match l with
  | [] => []
  | x :: l' => if p x then after_leading p l' else l
  end.

Definition is_percent_line (line : str) : bool := startswith line (s "%").

(** The entry that a header line [% Key: Value] stands for, in the words
    of the specification: the key is the text before the first colon,
    lower-cased, its spaces replaced by underscores (the text is taken
    after the [%] and trimmed); a line without a colon gives no entry. *)
Definition header_entry (line : str) : option (str * str) :=
  let text := strip (skipn 1 line) in
  if contains ":"%char text then
    Some (replace " "%char (s "_")
            (lower (strip (takewhile (fun c => negb (ch_eqb c ":"%char)) text))),
          strip (skipn 1 (dropwhile (fun c => negb (ch_eqb c ":"%char)) text)))
  else None.

Definition add_header_entry (fm : dict str) (line : str) : dict str :=
  match header_entry line with
  | Some (k, v) => dset fm k v
  | None => fm
  end.

(** A document in the legacy format whose body has a later [%] line. *)
Definition legacy_document : str :=
  s "% Title: Intro" ++ [LF] ++ s "% Page Author : me: myself" ++ [LF]
    ++ s "%no colon here" ++ [LF] ++ [LF] ++ s "Body text" ++ [LF]
    ++ s "% Not: metadata" ++ [LF].

(** The Markdown files the scanner keeps, in the words of the
    specification: not named [index.md], no segment of the path in the
    excluded set, a valid stem and only valid folder segments in the
    relative path [rel]. *)
Definition kept (content_dir : path) (excl : list str) (rel : path) : bool :=
  let f := content_dir ++ rel in
  negb (str_eqb (path_name f) (s "index.md"))
  && negb (existsb (fun excluded => mem excluded f) excl)
  && is_valid_name (path_stem f)
  && forallb is_valid_name (removelast rel).

Definition excluded_set (cfg : config) : list str :=
  match exclude_folders cfg with
  | Some l => l
  | None => default_exclude_folders
  end.

(** The pages of the files that load, in order. *)
Fixpoint loaded (load : path -> option page) (files : list path) : list page :=
  match files with
  | [] => []
  | f :: files' =>
      match load f with
      | Some pg => pg :: loaded load files'
      | None => loaded load files'
      end
  end.

(** Concrete collaborators and file systems for the examples. *)
Definition no_yaml : str -> option yaml_doc := fun _ => None.
Definition plain_markdown : str -> option str := fun t => Some t.
Definition default_config : config :=
  mkConfig true [] [] None true [] (s "fas fa-folder").
Definition docs : path := [s "docs"].

(** [docs/a/b.md] and [docs/a-b.md], both readable. *)
Definition fs_two_files : filesystem :=
  mkFs (fun _ => true)
       (fun _ => [[s "a-b.md"]; [s "a"; s "b.md"]])
       (fun _ => Some (s "# Title")).

(** [docs/notes.md], which cannot be read. *)
Definition fs_unreadable : filesystem :=
  mkFs (fun _ => true) (fun _ => [[s "notes.md"]]) (fun _ => None).

(** No content directory. *)
Definition fs_missing : filesystem :=
  mkFs (fun _ => false) (fun _ => []) (fun _ => None).

(** The state in which [main] calls [scan_directory]. *)
Definition scan_start (content_dir : path) : state :=
  print MsgGenerating (print (MsgHeader content_dir) (mkState [] [])).

(** The display name that [get_page_hierarchy] gives a raw folder name. *)
Definition level_display (cfg : config) (raw : str) : str :=
  format_display_name raw (strip_prefix cfg) (Some (acronyms cfg))
    (Some (display_overrides cfg)).

(** A page whose display levels are those of its raw levels, as
    [get_page_hierarchy] builds them. *)
Definition page_wf (cfg : config) (pg : page) : Prop :=
  levels pg = map (level_display cfg) (levels_raw pg).

(** [Path.absolute()]: a relative path is taken from the working
    directory [cwd]; an absolute path starts with the root part. *)
Definition absolute (cwd p : path) : path :=
  match p with
  | r :: _ => if str_eqb r (s "/") then p else cwd ++ p
  | [] => cwd
  end.

(** A working directory below a [node_modules] folder. *)
Definition vendored_cwd : path := [s "/"; s "srv"; s "node_modules"; s "site"].

(** A content directory below a [node_modules] folder. *)
Definition vendored_docs : path := [s "srv"; s "node_modules"; s "pkg"; s "docs"].

Definition fs_one_file : filesystem :=
  mkFs (fun _ => true) (fun _ => [[s "guide"; s "intro.md"]])
       (fun _ => Some (s "# Intro")).

(** Helpers to reason on [build_tree]: each step of the walk rewrites the
    value under one key of the dictionary it is in. *)
Definition obind {A B} (o : option A) (f : A -> option B) : option B :=
  match o with
  | Some x => f x
  | None => None
  end.

Definition update (d : dict pyval) (k : str)
  (f : option pyval -> option pyval) : option pyval :=
  match f (dget d k) with
  | Some x => Some (VDict (dset d k x))
  | None => None
  end.

Definition append_leaf (pg : page) (o : option pyval) : option pyval :=
  match o with
  | Some (VList ps) => Some (VList (ps ++ [pg]))
  | _ => None
  end.

Definition append_root (pg : page) (o : option pyval) : option pyval :=
  match o with
  | None => Some (VList [pg])
  | Some (VList ps) => Some (VList (ps ++ [pg]))
  | Some _ => None
  end.

Definition step_child (rest : list str) (i : nat) (pg : page)
  (o : option pyval) : option pyval :=
  match o with
  | Some child => walk_levels child rest (S i) pg
  | None =>
      match nth_error (levels pg) i with
      | Some display => walk_levels (new_node display) rest (S i) pg
      | None => None
      end
  end.

(** From index [i] on, the display levels of [pg] are those of the raw
    names [rest]. *)
Definition aligned (cfg : config) (pg : page) (rest : list str) (i : nat) : Prop :=
  forall n r, nth_error rest n = Some r ->
    nth_error (levels pg) (i + n) = Some (level_display cfg r).

(** The two keys that [build_tree] keeps for itself. *)
Definition reserved (k : str) : bool := str_eqb k K_PAGES || str_eqb k K_DISPLAY.

(** A page none of whose folders bears a reserved key as its name. *)
Definition reserved_free (pg : page) : Prop :=
  forall r, In r (levels_raw pg) -> reserved r = false.

(** A folder node as [build_tree] makes them: a page list, a display
    name, and folder nodes under every other key. *)
#[local] Unset Elimination Schemes.
Inductive node_ok : pyval -> Prop :=
| node_ok_dict d ps t :
    dget d K_PAGES = Some (VList ps) ->
    dget d K_DISPLAY = Some (VStr t) ->
    Forall (fun kv => reserved (fst kv) = true \/ node_ok (snd kv)) d ->
    node_ok (VDict d).
#[local] Set Elimination Schemes.

(** The root: a page list or none, no display name, folder nodes. *)
Definition root_ok (v : pyval) : Prop :=
  exists d, v = VDict d /\
    (dget d K_PAGES = None \/ exists ps, dget d K_PAGES = Some (VList ps)) /\
    dget d K_DISPLAY = None /\
    Forall (fun kv => reserved (fst kv) = true \/ node_ok (snd kv)) d.

(** All pages held anywhere in a tree. *)
Fixpoint pages_in (v : pyval) : list page :=
  match v with
  | VStr _ => []
  | VList ps => ps
  | VDict d =>
      (fix under (items : list (str * pyval)) : list page :=
         match items with
         | [] => []
         | (_, x) :: items' => pages_in x ++ under items'
         end) d
  end.


(** [pg] is in the page list of the node reached by [p]. *)
Definition located (v : pyval) (p : list str) (pg : page) : Prop :=
  exists ps, lookup_path v (p ++ [K_PAGES]) = Some (VList ps) /\ In pg ps.




(** Three pages as the scanner builds them: [01-guides/intro.md],
    [01-guides/setup/linux.md] and [about.md]. *)
Definition page_intro : page :=
  mkPage (s "01-guides-intro") (s "01-guides/intro.html") (s "Intro") []
    [s "01-guides"] [s "Guides"] 1 (s "Guides") (s "<h1>Intro</h1>") 1
    (docs ++ [s "01-guides"; s "intro.md"]) [s "01-guides"; s "intro.md"] [].

Definition page_linux : page :=
  mkPage (s "01-guides-setup-linux") (s "01-guides/setup/linux.html") (s "Linux") []
    [s "01-guides"; s "setup"] [s "Guides"; s "Setup"] 2 (s "Guides > Setup")
    (s "<h1>Linux</h1>") 1
    (docs ++ [s "01-guides"; s "setup"; s "linux.md"])
    [s "01-guides"; s "setup"; s "linux.md"] [].

Definition page_about : page :=
  mkPage (s "about") (s "about.html") (s "About") [] [] [] 0 (s "General")
    (s "<h1>About</h1>") 1 (docs ++ [s "about.md"]) [s "about.md"] [].

(** A page in a folder named like the reserved key of the page lists. *)
Definition page_clash : page :=
  mkPage (s "__pages__-x") (s "__pages__/x.html") (s "X") []
    [s "__pages__"] [s "Pages"] 1 (s "Pages") (s "<h1>X</h1>") 1
    (docs ++ [s "__pages__"; s "x.md"]) [s "__pages__"; s "x.md"] [].

Definition sample_pages : list page := [page_intro; page_linux; page_about].

(** Loading one file of a scan: the page, or [None] when the file is
    skipped. *)
Definition load_page (yaml_safe_load : str -> option yaml_doc)
  (render_markdown : str -> option str) (fs : filesystem) (cfg : config)
  (content_dir f : path) : option page :=
  process_markdown_file_try yaml_safe_load render_markdown fs cfg f content_dir.

(* ================================================================== *)
(** ** SEO helpers and page data *)
(* ================================================================== *)

(** The site-wide settings read by the SEO helpers: the attributes of
    the converter and the [seo] entries of the configuration ([None] when
    an entry is absent). *)
Record site := mkSite {
  site_name : str;
  description : str;
  site_url : str;
  index_description : option str;            (* seo.index_description *)
  page_description_template : option str;    (* seo.page_description_template *)
  seo_keywords : option str;                 (* seo.keywords *)
  seo_base_keywords : option str             (* seo.base_keywords *)
}.

(** [t.lstrip(chars)] and [t.rstrip(chars)]. *)
Definition lstrip_chars (chars : str) (t : str) : str :=
  dropwhile (in_chars chars) t.

Definition rstrip_chars (chars : str) (t : str) : str :=
  rev (dropwhile (in_chars chars) (rev t)).

(** [t.replace(old, new)] for a non-empty [old]: the occurrences are
    taken from the left and do not overlap; [skip] counts the characters
    of a match still to be passed over. *)
Fixpoint replace_sub_from (old new : str) (skip : nat) (t : str) : str :=
  match t with
  | [] => []
  | c :: t' =>
      match skip with
      | S k => replace_sub_from old new k t'
      | O =>
          if startswith t old
          then new ++ replace_sub_from old new (List.length old - 1) t'
          else c :: replace_sub_from old new 0 t'
      end
  end.

Definition replace_sub (old new t : str) : str := replace_sub_from old new 0 t.

Section Seo.

Variable st : site.

Definition generate_meta_description (pg : option page) (page_type : str) : str :=
  if str_eqb page_type (s "index") then
    let template :=
      match index_description st with
      | Some t => t
      | None => site_name st ++ s " - comprehensive documentation and guides."
      end in
    firstn 160 (replace_sub (s "{site_name}") (site_name st) template)
  else
    match pg with
    | Some page =>
        match dget (frontmatter page) (s "description") with
        | Some (c :: r) => firstn 160 (c :: r)
        | _ =>
            let template :=
              match page_description_template st with
              | Some t => t
              | None =>
                  s "Learn about {title} in {category}. Documentation from {site_name}."
              end in
            let category :=
              match levels page with
              | [] => s "General"
              | l :: ls => last (l :: ls) []
              end in
            firstn 160
              (replace_sub (s "{site_name}") (site_name st)
                 (replace_sub (s "{category}") category
                    (replace_sub (s "{title}") (title page) template)))
        end
    | None => firstn 160 (description st)
    end.

Definition generate_meta_keywords (pg : option page) (page_type : str) : str :=
  let base_keywords :=
    match seo_keywords st with
    | Some k => k
    | None =>
        match seo_base_keywords st with
        | Some k => k
        | None => s "documentation, guides, tutorials"
        end
    end in
  if str_eqb page_type (s "index") then base_keywords
  else
    match pg with
    | Some page =>
        let keywords := [base_keywords] ++ map lower (levels page) in
        let keywords :=
          match title page with
          | [] => keywords
          | _ :: _ => keywords ++ [lower (title page)]
          end in
        join (s ", ") keywords
    | None => base_keywords
    end.

Definition generate_canonical_url (page_url : str) : str :=
  let base_url := rstrip_chars (s "/") (site_url st) in
  match page_url with
  | [] => base_url
  | _ :: _ => base_url ++ s "/" ++ lstrip_chars (s "/") page_url
  end.

(** The [loc] of each entry of [generate_sitemap], in order: the home
    page, the two fixed static pages, then the content pages. *)
Definition sitemap_locs (all_pages : list page) : list str :=
  let base_url := rstrip_chars (s "/") (site_url st) in
  [base_url ++ s "/"]
    ++ map (fun static_page => base_url ++ s "/" ++ static_page)
         [s "about.html"; s "contribute.html"]
    ++ map (fun page => base_url ++ s "/" ++ url page) all_pages.

End Seo.

(** [escape_js_string(s)]; [None] is Python's [None]. *)
Definition escape_js_string (t : option str) : str :=
  match t with
  | None => []
  | Some t =>
      replace (ascii_of_nat 13) (s "\r")
        (replace LF (s "\n")
           (replace (ascii_of_nat 34) ("\"%char :: dq)
              (replace "'"%char (s "\'")
                 (replace "\"%char (s "\\") t))))
  end.

(** The values of [generate_page] that depend on where the page lies:
    [depth], [assets_path], [home_url], [contribute_url], [about_url]. *)
Definition generate_page_depth (pg : page) : Z :=
  (Z.of_nat (List.length (relative_path pg)) - 1)%Z.

Definition depth_url (depth : Z) (target at_root : str) : str :=
  if (0 <? depth)%Z then str_repeat (s "../") (Z.to_nat depth) ++ target
  else at_root.

Definition generate_page_urls (pg : page) : str * str * str * str :=
  let depth := generate_page_depth pg in
  (depth_url depth (s "assets/") (s "assets/"),
   depth_url depth (s "index.html") (s "./index.html"),
   depth_url depth (s "contribute.html") (s "./contribute.html"),
   depth_url depth (s "about.html") (s "./about.html")).

(* ================================================================== *)
(** ** Further definitions used to state properties *)
(* ================================================================== *)

(** A list in ascending order for [leb]. *)
Fixpoint ascending {A} (leb : A -> A -> bool) (l : list A) : Prop :=
  match l with
  | [] => True
  | x :: l' => Forall (fun y => leb x y = true) l' /\ ascending leb l'
  end.

(** The body of a JavaScript string literal in which every backslash
    escapes the character after it and no quote, line feed or carriage
    return stands unescaped. *)
Fixpoint js_safe (t : str) : bool :=
  match t with
  | [] => true
  | c :: t' =>
      if ch_eqb c "\"%char then
        match t' with
        | [] => false
        | _ :: t'' => js_safe t''
        end
      else if ch_eqb c "'"%char || ch_eqb c (ascii_of_nat 34)
              || ch_eqb c LF || ch_eqb c (ascii_of_nat 13)
      then false
      else js_safe t'
  end.

(** The bucket of a key in the category index. *)
Definition bucket (cats : dict (list page)) (k : str) : list page :=
  match dget cats k with
  | Some b => b
  | None => []
  end.

(** The key under which [scan_directory] files a page. *)
Definition level1_of (pg : page) : str :=
  match levels_raw pg with
  | l :: _ => l
  | [] => s "General"
  end.

(** The same site under another spelling of its URL. *)
Definition with_site_url (st : site) (u : str) : site :=
  mkSite (site_name st) (description st) u (index_description st)
    (page_description_template st) (seo_keywords st) (seo_base_keywords st).

(** The characters that [html.escape] must not let through. *)
Definition html_special (c : ascii) : bool :=
  ch_eqb c "<"%char || ch_eqb c ">"%char || ch_eqb c (ascii_of_nat 34)
  || ch_eqb c "'"%char.

(** The files that a scan of [content_dir] goes on to load, in the order
    in which it loads them. *)
Definition scan_files (fs : filesystem) (cfg : config) (content_dir : path)
  : list path :=
  sorted path_leb
    (map (fun rel => content_dir ++ rel)
       (filter (kept content_dir (excluded_set cfg)) (rglob_md fs content_dir))).

(** The files of a list that fail to load. *)
Definition failing (load : path -> option page) (files : list path) : list path :=
  filter (fun f => match load f with None => true | Some _ => false end) files.

(** [docs/a/b.md] and [docs/a-b.md] again, met in the other order. *)
Definition fs_two_files_rev : filesystem :=
  mkFs (fun _ => true)
       (fun _ => [[s "a"; s "b.md"]; [s "a-b.md"]])
       (fun _ => Some (s "# Title")).

(** [docs/a.md], readable, and [docs/b.md], which is not. *)
Definition fs_mixed : filesystem :=
  mkFs (fun _ => true)
       (fun _ => [[s "b.md"]; [s "a.md"]])
       (fun p => if str_eqb (path_name p) (s "a.md") then Some (s "# A") else None).

(** [t.count(c)]. *)
Definition count_char (c : ascii) (t : str) : nat :=
  List.length (filter (fun x => ch_eqb x c) t).

(** A path part without a slash or a backslash. *)
Definition plain_part (p : str) : bool :=
  forallb (fun c => negb (ch_eqb c "/"%char) && negb (ch_eqb c "\"%char)) p.

(** The elements that the navigation opens and closes. *)
Inductive element := ElCategory | ElSubcategory | ElDeep.

Definition element_eqb (a b : element) : bool :=
  match a, b with
  | ElCategory, ElCategory | ElSubcategory, ElSubcategory | ElDeep, ElDeep => true
  | _, _ => false
  end.

Definition close_element (e : element) (stack : list element)
  : option (list element) :=
  match stack with
  | top :: stack' => if element_eqb top e then Some stack' else None
  | [] => None
  end.

(** The stack of the elements still open after the pieces [ps], starting
    from [stack]; [None] when a closing piece does not meet the opening
    piece of its kind on top. *)
Fixpoint open_after (ps : list part) (stack : list element)
  : option (list element) :=
  match ps with
  | [] => Some stack
  | pt :: ps' =>
      match pt with
      | CategoryOpen _ _ _ => open_after ps' (ElCategory :: stack)
      | SubcategoryOpen _ _ => open_after ps' (ElSubcategory :: stack)
      | DeepOpen _ _ _ => open_after ps' (ElDeep :: stack)
      | CategoryClose =>
          match close_element ElCategory stack with
          | Some stack' => open_after ps' stack'
          | None => None
          end
      | SubcategoryClose =>
          match close_element ElSubcategory stack with
          | Some stack' => open_after ps' stack'
          | None => None
          end
      | DeepClose =>
          match close_element ElDeep stack with
          | Some stack' => open_after ps' stack'
          | None => None
          end
      | NavItem _ _ _ _ _ | RootItem _ _ _ _ => open_after ps' stack
      end
  end.

(** Pieces that leave the stack of open elements as they found it. *)
Definition neutral (ps : list part) : Prop :=
  forall stack, open_after ps stack = Some stack.

(** A text without the character [c]. *)
Definition free_of (c : ascii) (p : str) : bool :=
  forallb (fun x => negb (ch_eqb x c)) p.

(** A relative path as the walk for [*.md] yields them below the
    content directory: at least a file name, which ends with [.md], and
    no slash or backslash inside a name. *)
Definition md_path (rel : path) : Prop :=
  rel <> [] /\
  Forall (fun p => plain_part p = true) rel /\
  exists x, path_name rel = x ++ s ".md".

(** The files named by the [Error processing] lines among printed
    lines, in order. *)
Definition processing_errors (msgs : list message) : list path :=
  flat_map (fun m => match m with MsgErrorProcessing f => [f] | _ => [] end) msgs.

(* ================================================================== *)
(** * Properties *)
(* ================================================================== *)

(** ** Reading time *)

Lemma py_round_div_nearest (n : Z) :
  (0 <= n)%Z ->
  let r := py_round_div n 200 in
  (0 <= r /\ 200 * r - 100 <= n <= 200 * r + 100 /\
   (Z.abs (n - 200 * r) = 100 -> Z.even r = true))%Z.
Proof.
  intros Hn r. subst r. unfold py_round_div.
  pose proof (Z.div_mod n 200 ltac:(lia)) as Hdm.
  pose proof (Z.mod_pos_bound n 200 ltac:(lia)) as Hb.
  assert (0 <= n / 200)%Z by (apply Z.div_pos; lia).
  destruct (2 * (n mod 200) <? 200)%Z eqn:E1.
  - apply Z.ltb_lt in E1. repeat split; try lia.
  - apply Z.ltb_ge in E1.
    destruct (200 <? 2 * (n mod 200))%Z eqn:E2.
    + apply Z.ltb_lt in E2. repeat split; try lia.
    + apply Z.ltb_ge in E2.
      destruct (Z.even (n / 200)) eqn:E3.
      * repeat split; try lia. auto.
      * repeat split; try lia. intros _.
        rewrite Z.even_add, E3. reflexivity.
Qed.

(** C3 (as stated, refuted): a body of 201 words gets a reading time of
    1 minute, where the ceiling of 201/200 is 2. *)
Lemma reading_time_not_ceiling :
  word_count (body_of_words 201) = 201%Z /\
  calculate_reading_time (body_of_words 201) = 1%Z /\
  spec_reading_time (word_count (body_of_words 201)) = 2%Z.
Proof. vm_compute. repeat split. Qed.

(** C3 (amended): the reading time is the word count divided by 200 and
    rounded to the nearest integer, a tie going to the even neighbour,
    and raised to 1 when that is 0; it never exceeds the ceiling, a
    400-word body yields 2 and a 50-word body yields 1. *)
Theorem reading_time_rounds_to_nearest (content : str) :
  let w := word_count content in
  let r := calculate_reading_time content in
  (exists r0, r = Z.max 1 r0 /\ 0 <= r0 /\
              200 * r0 - 100 <= w <= 200 * r0 + 100 /\
              (Z.abs (w - 200 * r0) = 100 -> Z.even r0 = true))%Z /\
  (1 <= r <= spec_reading_time w)%Z /\
  (w = 400%Z -> r = 2%Z) /\
  (w = 50%Z -> r = 1%Z).
Proof.
  intros w r.
  assert (Hw : (0 <= w)%Z) by (unfold w, word_count; lia).
  pose proof (py_round_div_nearest w Hw) as Hr. cbv zeta in Hr.
  assert (Er : r = Z.max 1 (py_round_div w 200)) by reflexivity.
  split; [| split; [| split]].
  - exists (py_round_div w 200). tauto.
  - unfold spec_reading_time.
    pose proof (Z.div_mod (w + 199) 200 ltac:(lia)) as Hdm.
    pose proof (Z.mod_pos_bound (w + 199) 200 ltac:(lia)) as Hb.
    destruct Hr as (H0 & H1 & H2). split; [lia|].
    destruct (Z.eq_dec (w - 200 * py_round_div w 200) (-100)) as [E|E].
    + assert (Ev : Z.even (py_round_div w 200) = true)
        by (apply H2; rewrite E; reflexivity).
      apply Z.even_spec in Ev. destruct Ev as [k Hk]. lia.
    + lia.
  - intros E. rewrite Er, E. reflexivity.
  - intros E. rewrite Er, E. reflexivity.
Qed.

(** ** Number prefixes *)

Example strip_number_prefix_examples :
  strip_number_prefix (s "01-fundamentals") = s "fundamentals" /\
  strip_number_prefix (s "02_guides") = s "guides" /\
  strip_number_prefix (s "03. Reference") = s "Reference" /\
  strip_number_prefix (s "04 - Notes") = s "Notes" /\
  strip_number_prefix (s "2024") = s "2024" /\
  strip_number_prefix (s "3d-models") = s "3d-models".
Proof. repeat split. Qed.

(** ** Capitalisation *)

Lemma map_from_length {A B} (f : nat -> A -> B) l : forall i,
  List.length (map_from f i l) = List.length l.
Proof. induction l; simpl; intros; auto. Qed.

Lemma map_from_nth {A B} (f : nat -> A -> B) l : forall i j x,
  nth_error l j = Some x -> nth_error (map_from f i l) j = Some (f (i + j) x).
Proof.
  induction l as [|y l IH]; intros i [|j] x H; simpl in *; try discriminate.
  - inversion H. rewrite Nat.add_0_r. reflexivity.
  - rewrite (IH (S i) j x H). f_equal. f_equal. lia.
Qed.

Lemma capitalize_loop_spec acr words : forall i result,
  capitalize_loop acr i words result = result ++ map_from (cased_word acr) i words.
Proof.
  induction words as [|w ws IH]; intros i result.
  - cbn [capitalize_loop map_from]. rewrite app_nil_r. reflexivity.
  - cbn [capitalize_loop map_from]. rewrite IH. unfold cased_word at 2.
    destruct (mem (lower w) acr);
      [|destruct ((2 <=? List.length w) && isupper w);
        [|destruct ((i =? 0) || negb (mem (lower w) LOWERCASE_WORDS))]];
      rewrite <- app_assoc; reflexivity.
Qed.

Lemma isupper_upper (w : str) : isupper w = true -> upper w = w.
Proof.
  unfold isupper. intros H. apply andb_prop in H. destruct H as [H _].
  induction w as [|c w IH]; simpl in *; auto.
  apply andb_prop in H. destruct H as [Hc Hw].
  unfold upper_c at 1. destruct (islower_c c); [discriminate|].
  f_equal. apply IH. exact Hw.
Qed.

(** C5: the capitalisation step treats the [i]-th word [w] of the text
    as follows.  When the lowercase form of [w] is in the acronym set the
    word is upper-cased; a word of two or more characters that is fully
    uppercase is kept unchanged (whether or not it is a function word);
    otherwise the word is capitalised (first letter upper, rest lower)
    when it is the first word or no function word, and lower-cased when
    it is a later function word.  The results are joined by single
    spaces, and the two examples of the specification evaluate as
    stated. *)
Theorem capitalize_with_acronyms_rule (text : str) (acr : pyset) :
  let words := split_ws text in
  (exists out,
      capitalize_with_acronyms text (Some acr) = join (s " ") out /\
      List.length out = List.length words /\
      forall i w, nth_error words i = Some w ->
        exists o, nth_error out i = Some o /\
          (mem (lower w) acr = true -> o = upper w) /\
          (2 <= List.length w -> isupper w = true -> o = w) /\
          (mem (lower w) acr = false ->
           List.length w < 2 \/ isupper w = false ->
           (i = 0 \/ mem (lower w) LOWERCASE_WORDS = false -> o = capitalize w) /\
           (i <> 0 -> mem (lower w) LOWERCASE_WORDS = true -> o = lower w))) /\
  capitalize_with_acronyms (s "api testing") (Some [s "api"]) = s "API Testing" /\
  capitalize_with_acronyms (s "TO DO list") (Some []) = s "TO DO List" /\
  capitalize_with_acronyms (s "TO DO list") None = s "TO DO List".
Proof.
  intros words. split; [|repeat split].
  exists (map_from (cased_word acr) 0 words). split; [|split].
  - unfold capitalize_with_acronyms. rewrite capitalize_loop_spec. reflexivity.
  - apply map_from_length.
  - intros i w Hw. exists (cased_word acr i w). split.
    + rewrite (map_from_nth _ _ 0 _ _ Hw). reflexivity.
    + unfold cased_word. split; [|split].
      * intros ->. reflexivity.
      * intros Hl Hu. rewrite Hu.
        destruct (mem (lower w) acr); [apply isupper_upper; exact Hu|].
        apply Nat.leb_le in Hl. rewrite Hl. reflexivity.
      * intros -> Hn.
        assert (E : (2 <=? List.length w) && isupper w = false).
        { destruct Hn as [Hn| ->]; [|apply andb_false_r].
          apply Nat.leb_gt in Hn. rewrite Hn. reflexivity. }
        rewrite E. split.
        -- intros [-> | ->]; [reflexivity | rewrite orb_true_r; reflexivity].
        -- intros Hi ->. apply Nat.eqb_neq in Hi. rewrite Hi. reflexivity.
Qed.

Lemma capitalize_with_acronyms_rule_witness :
  nth_error (split_ws (s "notes on api TO x")) 1 = Some (s "on") /\
  exists out,
    capitalize_with_acronyms (s "notes on api TO x") (Some [s "api"])
      = join (s " ") out /\
    nth_error out 0 = Some (s "Notes") /\
    nth_error out 1 = Some (s "on") /\
    nth_error out 2 = Some (s "API") /\
    nth_error out 3 = Some (s "TO").
Proof.
  split; [reflexivity|].
  destruct (capitalize_with_acronyms_rule (s "notes on api TO x") [s "api"])
    as [(out & Hj & _ & Hw) _].
  exists out. split; [exact Hj|].
  destruct (Hw 0 (s "notes") eq_refl) as (o0 & E0 & _ & _ & H0).
  destruct (Hw 1 (s "on") eq_refl) as (o1 & E1 & _ & _ & H1).
  destruct (Hw 2 (s "api") eq_refl) as (o2 & E2 & H2 & _).
  destruct (Hw 3 (s "TO") eq_refl) as (o3 & E3 & _ & H3 & _).
  rewrite E0, E1, E2, E3.
  destruct (H0 eq_refl (or_intror eq_refl)) as [H0' _].
  destruct (H1 eq_refl (or_intror eq_refl)) as [_ H1'].
  rewrite (H0' (or_introl eq_refl)), (H1' ltac:(discriminate) eq_refl),
    (H2 eq_refl), (H3 ltac:(simpl; lia) eq_refl).
  repeat split.
Defined.

(** ** Characters *)

Ltac each_ascii c :=
  destruct c as [[|] [|] [|] [|] [|] [|] [|] [|]]; vm_compute; try reflexivity.


Lemma lower_c_idem c : lower_c (lower_c c) = lower_c c.
Proof. each_ascii c. Qed.

Lemma lower_upper_c c : lower_c (upper_c c) = lower_c c.
Proof. each_ascii c. Qed.

Lemma isspace_upper_c c : isspace (upper_c c) = isspace c.
Proof. each_ascii c. Qed.

Lemma isspace_lower_c c : isspace (lower_c c) = isspace c.
Proof. each_ascii c. Qed.


Lemma hyphen_upper_c c : ch_eqb (upper_c c) "-"%char = ch_eqb c "-"%char.
Proof. each_ascii c. Qed.

Lemma hyphen_lower_c c : ch_eqb (lower_c c) "-"%char = ch_eqb c "-"%char.
Proof. each_ascii c. Qed.

Lemma underscore_upper_c c : ch_eqb (upper_c c) "_"%char = ch_eqb c "_"%char.
Proof. each_ascii c. Qed.

Lemma underscore_lower_c c : ch_eqb (lower_c c) "_"%char = ch_eqb c "_"%char.
Proof. each_ascii c. Qed.

Lemma ch_eqb_eq a b : ch_eqb a b = true <-> a = b.
Proof. unfold ch_eqb. apply Ascii.eqb_eq. Qed.

Lemma ch_eqb_refl a : ch_eqb a a = true.
Proof. apply ch_eqb_eq. reflexivity. Qed.

Lemma str_eqb_eq a : forall b, str_eqb a b = true <-> a = b.
Proof.
  induction a as [|x a IH]; intros [|y b]; simpl; split; intros H;
    try reflexivity; try discriminate.
  - apply andb_prop in H. destruct H as [H1 H2].
    apply ch_eqb_eq in H1. apply IH in H2. subst. reflexivity.
  - inversion H; subst. rewrite ch_eqb_refl. simpl. apply IH. reflexivity.
Qed.

Lemma str_eqb_refl a : str_eqb a a = true.
Proof. apply str_eqb_eq. reflexivity. Qed.

Lemma str_eqb_neq a b : str_eqb a b = false <-> a <> b.
Proof.
  split.
  - intros H E. apply str_eqb_eq in E. congruence.
  - intros H. destruct (str_eqb a b) eqn:E; auto.
    apply str_eqb_eq in E. contradiction.
Qed.

Lemma str_eqb_sym a b : str_eqb a b = str_eqb b a.
Proof.
  destruct (str_eqb a b) eqn:E.
  - apply str_eqb_eq in E. subst. symmetry. apply str_eqb_refl.
  - symmetry. apply str_eqb_neq. apply str_eqb_neq in E. congruence.
Qed.

(** ** Case mappings on strings *)



Lemma lower_upper w : lower (upper w) = lower w.
Proof.
  unfold lower, upper. rewrite map_map. apply map_ext. intros; apply lower_upper_c.
Qed.





(** ** Splitting and joining *)

Lemma split_ws_cons_space c t : isspace c = true -> split_ws (c :: t) = split_ws t.
Proof. intros H. cbn [split_ws]. rewrite H. reflexivity. Qed.

Lemma split_ws_wordlike t : Forall wordlike (split_ws t).
Proof.
  induction t as [|c t IH]; [constructor|].
  cbn [split_ws]. destruct (isspace c) eqn:Ec; [exact IH|].
  assert (W1 : wordlike [c]).
  { split; [discriminate|]. cbn. rewrite Ec. reflexivity. }
  destruct t as [|c' t']; [repeat constructor; apply W1 |].
  destruct (isspace c') eqn:Ec'; [constructor; [exact W1 | exact IH]|].
  destruct (split_ws (c' :: t')) as [|w ws]; [repeat constructor; apply W1|].
  inversion IH as [|? ? [Hw1 Hw2] Hws]; subst.
  constructor; [|exact Hws]. split; [discriminate|].
  cbn [forallb]. rewrite Ec, Hw2. reflexivity.
Qed.

Lemma split_ws_word_then_space w : forall c rest,
  wordlike w -> isspace c = true ->
  split_ws (w ++ c :: rest) = w :: split_ws rest.
Proof.
  induction w as [|x w IH]; intros c rest [Hne Hns] Hc; [contradiction|].
  cbn [forallb] in Hns. apply andb_prop in Hns. destruct Hns as [Hx Hw].
  apply negb_true_iff in Hx.
  destruct w as [|y w'].
  - cbn [app split_ws]. rewrite Hx, Hc. reflexivity.
  - assert (Hy : isspace y = false).
    { cbn [forallb] in Hw. apply andb_prop in Hw. destruct Hw as [Hy _].
      apply negb_true_iff in Hy. exact Hy. }
    assert (Wl : wordlike (y :: w')) by (split; [discriminate | exact Hw]).
    specialize (IH c rest Wl Hc).
    change ((x :: y :: w') ++ c :: rest) with (x :: (y :: w') ++ c :: rest).
    remember ((y :: w') ++ c :: rest) as t eqn:Et.
    cbn [split_ws]. rewrite Hx.
    destruct t as [|y0 t0]; [discriminate|].
    assert (y0 = y) by (cbn in Et; congruence). subst y0.
    rewrite Hy, IH. reflexivity.
Qed.

Lemma split_ws_word w : wordlike w -> split_ws w = [w].
Proof.
  induction w as [|x w IH]; intros [Hne Hns]; [contradiction|].
  cbn [forallb] in Hns. apply andb_prop in Hns. destruct Hns as [Hx Hw].
  apply negb_true_iff in Hx.
  destruct w as [|y w'].
  - cbn [split_ws]. rewrite Hx. reflexivity.
  - assert (Hy : isspace y = false).
    { cbn [forallb] in Hw. apply andb_prop in Hw. destruct Hw as [Hy _].
      apply negb_true_iff in Hy. exact Hy. }
    assert (Wl : wordlike (y :: w')) by (split; [discriminate | exact Hw]).
    specialize (IH Wl).
    remember (y :: w') as t eqn:Et.
    cbn [split_ws]. rewrite Hx. rewrite Et at 1. rewrite Hy, IH. reflexivity.
Qed.

Lemma split_ws_join out :
  Forall wordlike out -> split_ws (join (s " ") out) = out.
Proof.
  induction out as [|w ws IH]; intros H; [reflexivity|].
  inversion H as [|? ? Hw Hws]; subst.
  destruct ws as [|w2 ws'].
  - cbn [join]. apply split_ws_word. exact Hw.
  - change (join (s " ") (w :: w2 :: ws'))
      with (w ++ " "%char :: join (s " ") (w2 :: ws')).
    rewrite split_ws_word_then_space by (auto; reflexivity).
    rewrite IH by exact Hws. reflexivity.
Qed.

Lemma split_ws_chars t : forall w c, In w (split_ws t) -> In c w -> In c t.
Proof.
  induction t as [|x t IH]; intros w c Hw Hc; [destruct Hw|].
  cbn [split_ws] in Hw. destruct (isspace x) eqn:Ex.
  { right. eapply IH; eauto. }
  destruct t as [|y t'].
  { destruct Hw as [<- | []]. exact Hc. }
  destruct (isspace y) eqn:Ey.
  { destruct Hw as [<- | Hw]; [destruct Hc as [<- | []]; left; reflexivity|].
    right. eapply IH; eauto. }
  destruct (split_ws (y :: t')) as [|w0 ws] eqn:Es.
  { destruct Hw as [<- | []]. destruct Hc as [<- | []]. left; reflexivity. }
  destruct Hw as [<- | Hw].
  - destruct Hc as [<- | Hc]; [left; reflexivity|].
    right. apply (IH w0 c); [left; reflexivity | exact Hc].
  - right. apply (IH w c); [right; exact Hw | exact Hc].
Qed.

Lemma replace_absent old new t :
  forallb (fun c => negb (ch_eqb c old)) t = true -> replace old new t = t.
Proof.
  unfold replace. induction t as [|c t IH]; intros H; [reflexivity|].
  cbn [forallb] in H. apply andb_prop in H. destruct H as [Hc Ht].
  cbn [flat_map]. apply negb_true_iff in Hc. rewrite Hc, (IH Ht). reflexivity.
Qed.

Lemma replace_removes old new t c :
  In c (replace old new t) -> In c new \/ (In c t /\ c <> old).
Proof.
  unfold replace. induction t as [|x t IH]; intros H; [destruct H|].
  cbn [flat_map] in H. apply in_app_or in H. destruct H as [H|H].
  - destruct (ch_eqb x old) eqn:E; [left; exact H|].
    destruct H as [<- | []]. right. split; [left; reflexivity|].
    intros ->. rewrite ch_eqb_refl in E. discriminate.
  - destruct (IH H) as [?|[? ?]]; [left; assumption | right; split; auto].
    right; assumption.
Qed.

Lemma plain_forall w :
  plain w <-> forall c, In c w -> c <> "-"%char /\ c <> "_"%char.
Proof.
  unfold plain. rewrite forallb_forall. split; intros H c Hc.
  - specialize (H c Hc). apply andb_prop in H. destruct H as [H1 H2].
    apply negb_true_iff in H1, H2.
    split; intros ->; rewrite ch_eqb_refl in *; discriminate.
  - destruct (H c Hc) as [H1 H2].
    apply andb_true_intro. split; apply negb_true_iff;
      (destruct (ch_eqb c _) eqn:E; [apply ch_eqb_eq in E; contradiction | reflexivity]).
Qed.

Lemma display_words_plain t :
  Forall plain
    (split_ws (replace "_"%char (s " ") (replace "-"%char (s " ") t))).
Proof.
  apply Forall_forall. intros w Hw. apply plain_forall. intros c Hc.
  pose proof (split_ws_chars _ _ _ Hw Hc) as H.
  apply replace_removes in H. destruct H as [H | [H Hu]].
  { destruct H as [<- | []]. split; discriminate. }
  apply replace_removes in H. destruct H as [H | [H Hh]].
  { destruct H as [<- | []]. split; discriminate. }
  split; assumption.
Qed.

Lemma cased_word_cases acr i w :
  cased_word acr i w = upper w \/ cased_word acr i w = w \/
  cased_word acr i w = capitalize w \/ cased_word acr i w = lower w.
Proof.
  unfold cased_word.
  destruct (mem (lower w) acr); [auto|].
  destruct ((2 <=? List.length w) && isupper w); [auto|].
  destruct ((i =? 0) || negb (mem (lower w) LOWERCASE_WORDS)); auto.
Qed.

Lemma wordlike_map f w :
  (forall c, isspace (f c) = isspace c) -> wordlike w -> wordlike (map f w).
Proof.
  intros Hf [Hne Hns]. split.
  - destruct w; [contradiction | discriminate].
  - rewrite forallb_forall in *. intros c Hc.
    apply in_map_iff in Hc. destruct Hc as (x & <- & Hx).
    rewrite Hf. apply Hns. exact Hx.
Qed.

Lemma wordlike_capitalize w : wordlike w -> wordlike (capitalize w).
Proof.
  intros [Hne Hns]. destruct w as [|c r]; [contradiction|].
  split; [discriminate|]. unfold capitalize.
  cbn [forallb] in *. apply andb_prop in Hns. destruct Hns as [Hc Hr].
  rewrite isspace_upper_c, Hc. cbn [andb].
  rewrite forallb_forall in *. intros x Hx.
  apply in_map_iff in Hx. destruct Hx as (y & <- & Hy).
  rewrite isspace_lower_c. apply Hr. exact Hy.
Qed.

Lemma wordlike_cased acr i w : wordlike w -> wordlike (cased_word acr i w).
Proof.
  intros H. destruct (cased_word_cases acr i w) as [-> | [-> | [-> | ->]]].
  - apply wordlike_map; [apply isspace_upper_c | exact H].
  - exact H.
  - apply wordlike_capitalize. exact H.
  - apply wordlike_map; [apply isspace_lower_c | exact H].
Qed.

Lemma plain_map f w :
  (forall c, ch_eqb (f c) "-"%char = ch_eqb c "-"%char) ->
  (forall c, ch_eqb (f c) "_"%char = ch_eqb c "_"%char) ->
  plain w -> plain (map f w).
Proof.
  unfold plain. intros H1 H2 H. rewrite forallb_forall in *. intros c Hc.
  apply in_map_iff in Hc. destruct Hc as (x & <- & Hx).
  rewrite H1, H2. apply H. exact Hx.
Qed.

Lemma plain_capitalize w : plain w -> plain (capitalize w).
Proof.
  destruct w as [|c r]; [auto|]. unfold plain, capitalize.
  cbn [forallb]. intros H. apply andb_prop in H. destruct H as [Hc Hr].
  rewrite hyphen_upper_c, underscore_upper_c, Hc. cbn [andb].
  apply (plain_map lower_c); [apply hyphen_lower_c | apply underscore_lower_c | exact Hr].
Qed.

Lemma plain_cased acr i w : plain w -> plain (cased_word acr i w).
Proof.
  intros H. destruct (cased_word_cases acr i w) as [-> | [-> | [-> | ->]]].
  - apply plain_map; [apply hyphen_upper_c | apply underscore_upper_c | exact H].
  - exact H.
  - apply plain_capitalize. exact H.
  - apply plain_map; [apply hyphen_lower_c | apply underscore_lower_c | exact H].
Qed.

Lemma map_from_Forall {A B} (P : A -> Prop) (Q : B -> Prop) (f : nat -> A -> B) l :
  (forall i x, P x -> Q (f i x)) -> Forall P l -> forall i, Forall Q (map_from f i l).
Proof.
  intros Hf H. induction H; intros i; cbn [map_from]; constructor; auto.
Qed.


Lemma plain_join out : Forall plain out -> plain (join (s " ") out).
Proof.
  induction out as [|w ws IH]; intros H; [reflexivity|].
  inversion H as [|? ? Hw Hws]; subst.
  destruct ws as [|w2 ws']; [exact Hw|].
  change (join (s " ") (w :: w2 :: ws'))
    with (w ++ " "%char :: join (s " ") (w2 :: ws')).
  unfold plain in *. rewrite forallb_app. rewrite Hw. cbn [forallb andb].
  rewrite (IH Hws). reflexivity.
Qed.



Lemma capitalize_with_acronyms_plain acr t :
  plain (capitalize_with_acronyms
           (replace "_"%char (s " ") (replace "-"%char (s " ") t)) (Some acr)).
Proof.
  unfold capitalize_with_acronyms. rewrite capitalize_loop_spec. cbn [app].
  apply plain_join. apply map_from_Forall with (P := plain).
  - intros; apply plain_cased; assumption.
  - apply display_words_plain.
Qed.

(** ** The name formatter applied twice *)




(** ** Legacy frontmatter *)

Lemma percent_loop_spec lines : forall i fm cs,
  percent_loop lines i fm cs =
  (fold_left add_header_entry (leading is_percent_line lines) fm,
   match leading is_percent_line lines with
   | [] => cs
   | _ :: _ => i + List.length (leading is_percent_line lines)
   end).
Proof.
  induction lines as [|line lines IH]; intros i fm cs; [reflexivity|].
  cbn [percent_loop leading].
  change (startswith line (s "%")) with (is_percent_line line).
  destruct (is_percent_line line) eqn:E; [|reflexivity].
  rewrite IH. cbn [fold_left List.length]. f_equal.
  - f_equal. unfold add_header_entry, header_entry, split_first.
    destruct (contains ":"%char (strip (skipn 1 line))); reflexivity.
  - destruct (leading is_percent_line lines); cbn [List.length]; lia.
Qed.

Lemma skipn_leading {A} (p : A -> bool) l :
  skipn (List.length (leading p l)) l = after_leading p l.
Proof.
  induction l as [|x l IH]; [reflexivity|].
  cbn [leading after_leading]. destruct (p x); [exact IH | reflexivity].
Qed.

(** C7: for a document that starts with [%], with [lines] its lines, the
    frontmatter is obtained from the leading [%] lines alone, each line
    that contains a colon setting one entry whose key is the text before
    the first colon, lower-cased, spaces replaced by underscores; the
    header ends at the first line that does not start with [%], and the
    body is made of all lines from that one on, later [%] lines
    included. *)
Theorem parse_frontmatter_legacy (yaml_safe_load : str -> option yaml_doc)
    (content : str) :
  (startswith content (s "%") = true ->
   let lines := split_on LF content in
   parse_frontmatter yaml_safe_load content =
   (FmDict (fold_left add_header_entry (leading is_percent_line lines) []),
    strip (join [LF] (after_leading is_percent_line lines)))) /\
  parse_frontmatter yaml_safe_load legacy_document =
  (FmDict [(s "title", s "Intro"); (s "page_author", s "me: myself")],
   s "Body text" ++ [LF] ++ s "% Not: metadata").
Proof.
  split; [|reflexivity].
  intros H lines. unfold parse_frontmatter.
  assert (E : startswith content (s "---") = false).
  { destruct content as [|c content]; [discriminate|].
    cbn in H. apply andb_prop in H. destruct H as [H _].
    apply ch_eqb_eq in H. subst c. reflexivity. }
  rewrite E, H. fold lines. rewrite percent_loop_spec.
  assert (E2 : match leading is_percent_line lines with
               | [] => 0
               | _ :: _ => 0 + List.length (leading is_percent_line lines)
               end = List.length (leading is_percent_line lines))
    by (destruct (leading is_percent_line lines); reflexivity).
  rewrite E2, skipn_leading. reflexivity.
Qed.

Lemma parse_frontmatter_legacy_witness :
  parse_frontmatter (fun _ => None) (s "% A b: 1" ++ [LF] ++ s "x" ++ [LF] ++ s "% c: 2")
  = (FmDict [(s "a_b", s "1")], s "x" ++ [LF] ++ s "% c: 2").
Proof.
  destruct (parse_frontmatter_legacy (fun _ => None)
              (s "% A b: 1" ++ [LF] ++ s "x" ++ [LF] ++ s "% c: 2")) as [H _].
  rewrite (H eq_refl). reflexivity.
Defined.

(** ** Sorting *)

Lemma insert_sorted_perm {A} (leb : A -> A -> bool) x l :
  Permutation (insert_sorted leb x l) (x :: l).
Proof.
  induction l as [|y l IH]; cbn [insert_sorted]; [apply Permutation_refl|].
  destruct (leb x y); [apply Permutation_refl|].
  eapply perm_trans; [apply perm_skip; exact IH | apply perm_swap].
Qed.

Lemma sorted_perm {A} (leb : A -> A -> bool) l : Permutation (sorted leb l) l.
Proof.
  induction l as [|x l IH]; cbn [sorted]; [apply perm_nil|].
  eapply perm_trans; [apply insert_sorted_perm | apply perm_skip; exact IH].
Qed.

Lemma sorted_In {A} (leb : A -> A -> bool) l x : In x (sorted leb l) <-> In x l.
Proof.
  split; apply Permutation_in;
    [apply sorted_perm | apply Permutation_sym; apply sorted_perm].
Qed.

(** ** Paths *)

Lemma relative_to_app root rel : relative_to (root ++ rel) root = Some rel.
Proof.
  induction root as [|r root IH]; [destruct rel; reflexivity|].
  cbn [app relative_to]. rewrite str_eqb_refl. exact IH.
Qed.

Lemma mem_In x l : mem x l = true <-> In x l.
Proof.
  unfold mem. rewrite existsb_exists. split.
  - intros (y & Hy & E). apply str_eqb_eq in E. subst. exact Hy.
  - intros H. exists x. split; [exact H | apply str_eqb_refl].
Qed.

Lemma loaded_In load files pg :
  In pg (loaded load files) <-> exists f, In f files /\ load f = Some pg.
Proof.
  induction files as [|f files IH]; cbn [loaded].
  - split; [intros [] | intros (f & [] & _)].
  - destruct (load f) as [q|] eqn:E.
    + cbn [In]. rewrite IH. split.
      * intros [H | (g & Hg & Eg)].
        -- exists f. split; [left; reflexivity | congruence].
        -- exists g. split; [right; exact Hg | exact Eg].
      * intros (g & [H | Hg] & Eg).
        -- left. congruence.
        -- right. exists g. split; assumption.
    + rewrite IH. split.
      * intros (g & Hg & Eg). exists g. split; [right; exact Hg | exact Eg].
      * intros (g & [H | Hg] & Eg); [congruence | exists g; split; assumption].
Qed.

(** ** The scanner *)

(** A name is valid exactly when an alphanumeric character is left once
    one trailing extension is cut and the separators are trimmed. *)
Lemma is_valid_name_alnum name :
  is_valid_name name =
  existsb isalnum_c
    (strip_chars (s "-_=. ")
       (match rfind "."%char name with
        | Some i => firstn i name
        | None => name
        end)).
Proof.
  unfold is_valid_name.
  destruct (strip_chars _ _); reflexivity.
Qed.

Example is_valid_name_examples :
  map is_valid_name (map s ["---"; "..."; "-_=. "; "notes"; "01-intro"; "v1.2"; ".x"])%string
  = [false; false; false; true; true; true; false].
Proof. reflexivity. Qed.

Section ScannerFacts.

Variable yaml_safe_load : str -> option yaml_doc.
Variable render_markdown : str -> option str.
Variable fs : filesystem.
Variable cfg : config.

Lemma select_md_files_spec content_dir excl rels : forall md_files,
  select_md_files content_dir excl (map (fun rel => content_dir ++ rel) rels) md_files
  = Some (md_files
          ++ map (fun rel => content_dir ++ rel) (filter (kept content_dir excl) rels)).
Proof.
  induction rels as [|rel rels IH]; intros md_files.
  - cbn. rewrite app_nil_r. reflexivity.
  - cbn [map select_md_files filter].
    change (kept content_dir excl rel)
      with (negb (str_eqb (path_name (content_dir ++ rel)) (s "index.md"))
            && negb (existsb (fun excluded => mem excluded (content_dir ++ rel)) excl)
            && is_valid_name (path_stem (content_dir ++ rel))
            && forallb is_valid_name (removelast rel)).
    destruct (str_eqb (path_name (content_dir ++ rel)) (s "index.md")).
    { cbn [negb andb]. apply IH. }
    destruct (existsb (fun excluded => mem excluded (content_dir ++ rel)) excl).
    { cbn [negb andb]. apply IH. }
    destruct (is_valid_name (path_stem (content_dir ++ rel))).
    2:{ cbn [negb andb]. apply IH. }
    cbn [negb andb]. rewrite relative_to_app.
    assert (E : existsb (fun part => negb (is_valid_name part)) (removelast rel)
                = negb (forallb is_valid_name (removelast rel))).
    { induction (removelast rel) as [|x l IHl]; [reflexivity|].
      cbn [existsb forallb]. rewrite IHl.
      destruct (is_valid_name x); reflexivity. }
    rewrite E. destruct (forallb is_valid_name (removelast rel)); cbn [negb].
    + rewrite IH. cbn [map]. rewrite <- app_assoc. reflexivity.
    + apply IH.
Qed.

Lemma process_md_files_pages content_dir files : forall pages st,
  fst (process_md_files yaml_safe_load render_markdown fs cfg content_dir files pages st)
  = pages ++ loaded (load_page yaml_safe_load render_markdown fs cfg content_dir) files.
Proof.
  induction files as [|f files IH]; intros pages st.
  - cbn. rewrite app_nil_r. reflexivity.
  - cbn [process_md_files loaded]. unfold process_markdown_file.
    unfold load_page at 1.
    destruct (process_markdown_file_try yaml_safe_load render_markdown fs cfg f content_dir)
      as [pg|].
    + rewrite IH. rewrite <- app_assoc. reflexivity.
    + apply IH.
Qed.

Lemma scan_directory_pages content_dir st :
  dir_exists fs content_dir = true ->
  exists st',
    scan_directory yaml_safe_load render_markdown fs cfg content_dir st
    = Some (loaded (load_page yaml_safe_load render_markdown fs cfg content_dir)
              (sorted path_leb
                 (map (fun rel => content_dir ++ rel)
                    (filter (kept content_dir (excluded_set cfg))
                       (rglob_md fs content_dir)))),
            st').
Proof.
  intros Hd. unfold scan_directory. rewrite Hd. cbn [negb].
  fold (excluded_set cfg). rewrite select_md_files_spec. cbn [app].
  eexists. rewrite surjective_pairing at 1.
  rewrite process_md_files_pages. reflexivity.
Qed.

Lemma load_file_path content_dir f pg :
  load_page yaml_safe_load render_markdown fs cfg content_dir f = Some pg -> file_path pg = f.
Proof.
  unfold load_page, process_markdown_file_try. intros H.
  destruct (read_text fs f); [|discriminate].
  destruct (parse_frontmatter yaml_safe_load _) as [[d|] body]; [|discriminate].
  destruct (get_page_hierarchy cfg f content_dir) as [[[[? ?] ?] ?]|]; [|discriminate].
  destruct (render_markdown body); [|discriminate].
  destruct (generate_page_id f content_dir); [|discriminate].
  destruct (generate_page_url f content_dir); [|discriminate].
  destruct (relative_to f content_dir); [|discriminate].
  inversion H. reflexivity.
Qed.

Lemma load_levels content_dir f pg :
  load_page yaml_safe_load render_markdown fs cfg content_dir f = Some pg ->
  page_wf cfg pg /\
  List.length (levels pg) = List.length (levels_raw pg) /\
  List.length (levels_raw pg) = depth pg.
Proof.
  unfold load_page, process_markdown_file_try. intros H.
  destruct (read_text fs f); [|discriminate].
  destruct (parse_frontmatter yaml_safe_load _) as [[d|] body]; [|discriminate].
  destruct (get_page_hierarchy cfg f content_dir) as [[[[lr lv] cat] dp]|] eqn:Eh;
    [|discriminate].
  destruct (render_markdown body); [|discriminate].
  destruct (generate_page_id f content_dir); [|discriminate].
  destruct (generate_page_url f content_dir); [|discriminate].
  destruct (relative_to f content_dir) as [rel|] eqn:Er; [|discriminate].
  inversion H; subst; clear H. unfold page_wf. cbn.
  unfold get_page_hierarchy in Eh. rewrite Er in Eh. inversion Eh; subst.
  rewrite !length_map. repeat split.
Qed.

(** Every page of a scan has as many display levels as raw levels, and
    its depth is that number. *)
Lemma scan_directory_levels content_dir st pages st' :
  scan_directory yaml_safe_load render_markdown fs cfg content_dir st
  = Some (pages, st') ->
  forall pg, In pg pages ->
    page_wf cfg pg /\
    List.length (levels pg) = List.length (levels_raw pg) /\
    List.length (levels_raw pg) = depth pg.
Proof.
  intros H pg Hpg.
  destruct (dir_exists fs content_dir) eqn:Hd.
  - destruct (scan_directory_pages content_dir st Hd) as [st2 E].
    rewrite E in H. inversion H; subst; clear H.
    apply loaded_In in Hpg. destruct Hpg as (f & _ & Hf).
    eapply load_levels; eauto.
  - unfold scan_directory in H. rewrite Hd in H. cbn [negb] in H.
    inversion H; subst. destruct Hpg.
Qed.

(** C4 (amended): with the content directory present, a Markdown file
    found below it is in the output of the scan exactly when it is not
    named [index.md], no segment of its path is in the excluded-folder
    set, its stem and every folder segment of its relative path are
    valid names, and loading it raises no error. *)
Theorem scan_directory_keeps content_dir st rel :
  dir_exists fs content_dir = true ->
  In rel (rglob_md fs content_dir) ->
  let f := content_dir ++ rel in
  exists pages st',
    scan_directory yaml_safe_load render_markdown fs cfg content_dir st
    = Some (pages, st') /\
    ((exists pg, In pg pages /\ file_path pg = f) <->
     (path_name f <> s "index.md" /\
      (forall seg, In seg f -> ~ In seg (excluded_set cfg)) /\
      is_valid_name (path_stem f) = true /\
      (forall part, In part (removelast rel) -> is_valid_name part = true) /\
      load_page yaml_safe_load render_markdown fs cfg content_dir f <> None)).
Proof.
  intros Hd Hrel f.
  destruct (scan_directory_pages content_dir st Hd) as [st' E].
  eexists. exists st'. split; [exact E|].
  assert (K : kept content_dir (excluded_set cfg) rel = true <->
              (path_name f <> s "index.md" /\
               (forall seg, In seg f -> ~ In seg (excluded_set cfg)) /\
               is_valid_name (path_stem f) = true /\
               (forall part, In part (removelast rel) -> is_valid_name part = true))).
  { unfold kept. fold f. rewrite !andb_true_iff, !negb_true_iff.
    rewrite str_eqb_neq, forallb_forall.
    assert (X : existsb (fun excluded => mem excluded f) (excluded_set cfg) = false
                <-> forall seg, In seg f -> ~ In seg (excluded_set cfg)).
    { split.
      - intros Hx seg Hs He.
        assert (existsb (fun excluded => mem excluded f) (excluded_set cfg) = true).
        { apply existsb_exists. exists seg. split; [exact He|].
          apply mem_In. exact Hs. }
        congruence.
      - intros Hx. destruct (existsb _ _) eqn:Ee; [|reflexivity].
        apply existsb_exists in Ee. destruct Ee as (seg & He & Hm).
        apply mem_In in Hm. exfalso. exact (Hx seg Hm He). }
    rewrite X. tauto. }
  split.
  - intros (pg & Hpg & Hf). apply loaded_In in Hpg.
    destruct Hpg as (g & Hg & Hl).
    pose proof (load_file_path _ _ _ Hl) as Hfp.
    assert (Eg : g = content_dir ++ rel) by (unfold f in Hf; congruence).
    rewrite Eg in Hg, Hl. fold f in Hl.
    apply sorted_In in Hg. apply in_map_iff in Hg.
    destruct Hg as (rel' & Eapp & Hin).
    apply app_inv_head in Eapp. subst rel'.
    apply filter_In in Hin. destruct Hin as [_ Hk].
    apply K in Hk. destruct Hk as (K1 & K2 & K3 & K4).
    repeat split; auto. rewrite Hl. discriminate.
  - intros (K1 & K2 & K3 & K4 & Hl).
    destruct (load_page yaml_safe_load render_markdown fs cfg content_dir f) as [pg|] eqn:El; [|contradiction].
    exists pg. split; [|eapply load_file_path; eauto].
    apply loaded_In. exists f. split; [|exact El].
    apply sorted_In. apply in_map_iff. exists rel. split; [reflexivity|].
    apply filter_In. split; [exact Hrel|]. apply K. auto.
Qed.

(** C10 (amended): the excluded-folder test looks at every part of the
    path of a file as the scanner builds it, the parts of the content
    directory path it was handed included: when a part of that path is in
    the excluded-folder set, every Markdown file is skipped and the scan
    returns no page. *)
Theorem scan_directory_excluded_ancestor content_dir st seg :
  In seg content_dir ->
  In seg (excluded_set cfg) ->
  scan_directory yaml_safe_load render_markdown fs cfg content_dir st
  = Some ([], if dir_exists fs content_dir then st
              else print (MsgContentDirNotFound content_dir) st).
Proof.
  intros Hs He. unfold scan_directory.
  destruct (dir_exists fs content_dir); cbn [negb]; [|reflexivity].
  fold (excluded_set cfg). rewrite select_md_files_spec. cbn [app].
  assert (E : filter (kept content_dir (excluded_set cfg)) (rglob_md fs content_dir) = []).
  { induction (rglob_md fs content_dir) as [|rel rels IH]; [reflexivity|].
    cbn [filter]. rewrite IH.
    assert (K : kept content_dir (excluded_set cfg) rel = false).
    { unfold kept.
      assert (X : existsb (fun excluded => mem excluded (content_dir ++ rel))
                    (excluded_set cfg) = true).
      { apply existsb_exists. exists seg. split; [exact He|].
        apply mem_In. apply in_or_app. left. exact Hs. }
      rewrite X. cbn [negb]. rewrite andb_false_r. reflexivity. }
    rewrite K. reflexivity. }
  rewrite E. reflexivity.
Qed.

Variable emit_site : list page -> state -> option state.

(** C2 (amended): when the content directory is missing or the scan
    yields no page, the run prints its diagnostic (the missing directory
    is named first when there is none) and emits no site (what [main]
    does is the same whatever the emitting step would do), and the
    process still ends normally: [main] returns, after its closing line,
    with exit status 0. *)
Theorem main_without_pages content_dir st1 :
  dir_exists fs content_dir = false \/
  scan_directory yaml_safe_load render_markdown fs cfg content_dir
    (scan_start content_dir) = Some ([], st1) ->
  (exists diagnostics,
     main yaml_safe_load render_markdown fs cfg emit_site content_dir
     = ([MsgHeader content_dir; MsgGenerating] ++ diagnostics
          ++ [MsgNoMarkdown; MsgDone 0], 0%Z) /\
     (dir_exists fs content_dir = false ->
      diagnostics = [MsgContentDirNotFound content_dir])) /\
  (forall emit_other,
     main yaml_safe_load render_markdown fs cfg emit_other content_dir
     = main yaml_safe_load render_markdown fs cfg emit_site content_dir).
Proof.
  intros H.
  assert (S : exists st2,
             scan_directory yaml_safe_load render_markdown fs cfg content_dir
               (scan_start content_dir) = Some ([], st2) /\
             (dir_exists fs content_dir = false ->
              st2 = print (MsgContentDirNotFound content_dir) (scan_start content_dir))).
  { destruct (dir_exists fs content_dir) eqn:Hd.
    - destruct H as [H|H]; [discriminate|]. exists st1. split; [exact H|discriminate].
    - eexists. split; [|reflexivity]. unfold scan_directory. rewrite Hd. reflexivity. }
  destruct S as (st2 & Es & Hm).
  assert (P : exists diagnostics,
             printed st2 = [MsgHeader content_dir; MsgGenerating] ++ diagnostics /\
             (dir_exists fs content_dir = false ->
              diagnostics = [MsgContentDirNotFound content_dir])).
  { destruct (dir_exists fs content_dir) eqn:Hd.
    - destruct (scan_directory_pages content_dir (scan_start content_dir) Hd)
        as [st3 E3].
      rewrite E3 in Es. clear H Hm.
      exists (skipn 2 (printed st2)). split; [|discriminate].
      unfold scan_directory in E3. rewrite Hd in E3. cbn [negb] in E3.
      destruct (select_md_files _ _ _ _) as [files|]; [|discriminate].
      inversion E3 as [E4]. inversion Es; subst st3.
      rewrite (surjective_pairing (process_md_files _ _ _ _ _ _ _ _)) in E4.
      inversion E4 as [[Ep Est]].
      clear. generalize (@nil page).
      generalize (sorted path_leb files).
      assert (G : forall l pages st,
                 firstn 2 (printed st) = [MsgHeader content_dir; MsgGenerating] ->
                 firstn 2 (printed (snd (process_md_files yaml_safe_load
                    render_markdown fs cfg content_dir l pages st)))
                 = [MsgHeader content_dir; MsgGenerating]).
      { induction l as [|f l IH]; intros pages st Hst; [exact Hst|].
        cbn [process_md_files]. unfold process_markdown_file.
        destruct (process_markdown_file_try _ _ _ _ _ _).
        - apply IH. exact Hst.
        - apply IH. cbn [print printed].
          destruct (printed st) as [|a [|b r]]; try discriminate.
          cbn in *. exact Hst. }
      intros l pages.
      specialize (G l pages (scan_start content_dir) eq_refl).
      rewrite <- G at 1. symmetry. apply firstn_skipn.
    - exists [MsgContentDirNotFound content_dir]. split; [|reflexivity].
      rewrite (Hm eq_refl). reflexivity. }
  destruct P as (diagnostics & Ep & Hdg).
  split.
  - exists diagnostics. split; [|exact Hdg].
    unfold main, generate_site. fold (scan_start content_dir). rewrite Es.
    cbn [print printed List.length]. rewrite Ep.
    rewrite <- !app_assoc. reflexivity.
  - intros emit_other. unfold main, generate_site.
    fold (scan_start content_dir). rewrite Es. reflexivity.
Qed.

End ScannerFacts.

(** ** The scanner on concrete file systems *)

(** C1: with [docs/a/b.md] and [docs/a-b.md] the scan yields two pages
    from two distinct files that carry the same id [a-b]; their display
    and raw levels have the same length, which is their depth. *)
Theorem generate_page_id_collision :
  generate_page_id (docs ++ [s "a"; s "b.md"]) docs = Some (s "a-b") /\
  generate_page_id (docs ++ [s "a-b.md"]) docs = Some (s "a-b") /\
  match scan_directory no_yaml plain_markdown fs_two_files default_config docs
          (mkState [] []) with
  | Some ([p1; p2], _) =>
      file_path p1 = docs ++ [s "a"; s "b.md"] /\
      file_path p2 = docs ++ [s "a-b.md"] /\
      page_id p1 = page_id p2 /\
      url p1 = s "a/b.html" /\ url p2 = s "a-b.html" /\
      (List.length (levels p1) = 1 /\ List.length (levels_raw p1) = 1 /\ depth p1 = 1) /\
      (List.length (levels p2) = 0 /\ List.length (levels_raw p2) = 0 /\ depth p2 = 0)
  | _ => False
  end.
Proof. vm_compute. repeat split. Qed.

(** C4 (as stated, refuted): [docs/notes.md] is a Markdown file that none
    of the exclusion rules applies to, and it is not in the output of
    the scan, because it cannot be read. *)
Lemma scan_directory_drops_unreadable :
  kept docs (excluded_set default_config) [s "notes.md"] = true /\
  scan_directory no_yaml plain_markdown fs_unreadable default_config docs
    (mkState [] [])
  = Some ([], mkState [] [MsgErrorProcessing (docs ++ [s "notes.md"])]).
Proof. vm_compute. repeat split. Qed.

Lemma scan_directory_keeps_witness :
  exists pages st',
    scan_directory no_yaml plain_markdown fs_one_file default_config docs
      (mkState [] []) = Some (pages, st') /\
    exists pg, In pg pages /\ file_path pg = docs ++ [s "guide"; s "intro.md"].
Proof.
  destruct (scan_directory_keeps no_yaml plain_markdown fs_one_file default_config
              docs (mkState [] []) [s "guide"; s "intro.md"]
              eq_refl (or_introl eq_refl))
    as (pages & st' & E & H).
  exists pages, st'. split; [exact E|]. apply H.
  split; [intros X; vm_compute in X; discriminate|].
  split.
  { intros seg Hs He. vm_compute in He.
    destruct Hs as [<- | [<- | [<- | []]]];
      repeat (destruct He as [He | He]; [vm_compute in He; discriminate|]);
      exact He. }
  split; [reflexivity|].
  split.
  { intros part [<- | []]. reflexivity. }
  vm_compute. discriminate.
Defined.

(** C10 (as stated, refuted): the content directory [docs] is given
    relative to a working directory below [node_modules]; that ancestor
    is not a part of the paths the scanner builds, and the file
    [docs/guide/intro.md] is in the output. *)
Lemma scan_directory_relative_content_dir :
  In (s "node_modules") (absolute vendored_cwd docs) /\
  In (s "node_modules") (excluded_set default_config) /\
  option_map (fun r => map file_path (fst r))
    (scan_directory no_yaml plain_markdown fs_one_file default_config docs
       (mkState [] []))
  = Some [docs ++ [s "guide"; s "intro.md"]].
Proof.
  split; [right; right; left; reflexivity|].
  split; [do 4 right; left; reflexivity|].
  reflexivity.
Qed.

Lemma scan_directory_excluded_ancestor_witness :
  scan_directory no_yaml plain_markdown fs_one_file default_config vendored_docs
    (mkState [] [])
  = Some ([], mkState [] []).
Proof.
  apply (scan_directory_excluded_ancestor no_yaml plain_markdown fs_one_file
           default_config vendored_docs (mkState [] []) (s "node_modules")).
  - right. left. reflexivity.
  - vm_compute. do 4 right. left. reflexivity.
Defined.

(** C2 (as stated, refuted): with no content directory, [main] prints the
    two diagnostics and its closing line, and the exit status is 0. *)
Lemma main_missing_directory_status :
  main no_yaml plain_markdown fs_missing default_config (fun _ _ => None) docs
  = ([MsgHeader docs; MsgGenerating; MsgContentDirNotFound docs; MsgNoMarkdown;
      MsgDone 0], 0%Z).
Proof. vm_compute. reflexivity. Qed.

Lemma main_without_pages_witness :
  exists diagnostics,
    main no_yaml plain_markdown fs_unreadable default_config (fun _ _ => None) docs
    = ([MsgHeader docs; MsgGenerating] ++ diagnostics ++ [MsgNoMarkdown; MsgDone 0],
       0%Z).
Proof.
  destruct (main_without_pages no_yaml plain_markdown fs_unreadable default_config
              (fun _ _ => None) docs
              (mkState [] [MsgHeader docs; MsgGenerating;
                           MsgErrorProcessing (docs ++ [s "notes.md"])])
              (or_intror eq_refl))
    as ((d & E & _) & _).
  exists d. exact E.
Defined.

(** ** Dictionaries *)

Lemma dget_dset_same {V} (d : dict V) k v : dget (dset d k v) k = Some v.
Proof.
  induction d as [|[k' v'] d IH]; cbn [dset dget].
  - rewrite str_eqb_refl. reflexivity.
  - destruct (str_eqb k k') eqn:E; cbn [dget]; rewrite E; [reflexivity | exact IH].
Qed.

Lemma dget_dset_other {V} (d : dict V) k k0 v :
  k0 <> k -> dget (dset d k v) k0 = dget d k0.
Proof.
  intros Hn. induction d as [|[k' v'] d IH]; cbn [dset dget].
  - apply str_eqb_neq in Hn. rewrite Hn. reflexivity.
  - destruct (str_eqb k k') eqn:E; cbn [dget].
    + apply str_eqb_eq in E. subst k'.
      apply str_eqb_neq in Hn. rewrite Hn. reflexivity.
    + rewrite IH. reflexivity.
Qed.

Lemma dset_dset_same {V} (d : dict V) k a b : dset (dset d k a) k b = dset d k b.
Proof.
  induction d as [|[k' v'] d IH]; cbn [dset].
  - rewrite str_eqb_refl. reflexivity.
  - destruct (str_eqb k k') eqn:E; cbn [dset]; rewrite E; [reflexivity|].
    rewrite IH. reflexivity.
Qed.

Lemma din_dget {V} (d : dict V) k :
  din d k = match dget d k with Some _ => true | None => false end.
Proof. reflexivity. Qed.

(** ** Isomorphic trees *)

Lemma same_shape_refl a : same_shape a a.
Proof. destruct a as [[| |]|]; cbn; auto. Qed.

Lemma same_shape_sym a b : same_shape a b -> same_shape b a.
Proof.
  destruct a as [[| |]|], b as [[| |]|]; cbn; auto.
  apply Permutation_sym.
Qed.

Lemma same_shape_trans a b c : same_shape a b -> same_shape b c -> same_shape a c.
Proof.
  destruct a as [[| |]|], b as [[| |]|], c as [[| |]|]; cbn; auto;
    try contradiction; try congruence.
  apply Permutation_trans.
Qed.

Lemma tree_iso_refl a : tree_iso a a.
Proof. intros p. apply same_shape_refl. Qed.

Lemma tree_iso_sym a b : tree_iso a b -> tree_iso b a.
Proof. intros H p. apply same_shape_sym. apply H. Qed.

Lemma tree_iso_trans a b c : tree_iso a b -> tree_iso b c -> tree_iso a c.
Proof. intros H1 H2 p. eapply same_shape_trans; [apply H1 | apply H2]. Qed.

Lemma result_iso_refl a : result_iso a a.
Proof. destruct a; cbn; auto. apply tree_iso_refl. Qed.

Lemma result_iso_sym a b : result_iso a b -> result_iso b a.
Proof. destruct a, b; cbn; auto. apply tree_iso_sym. Qed.

Lemma result_iso_trans a b c : result_iso a b -> result_iso b c -> result_iso a c.
Proof.
  destruct a, b, c; cbn; auto; try contradiction. apply tree_iso_trans.
Qed.

Lemma tree_iso_dict d d' :
  tree_iso (VDict d) (VDict d') <-> forall k, result_iso (dget d k) (dget d' k).
Proof.
  split.
  - intros H k.
    destruct (dget d k) as [x|] eqn:E1, (dget d' k) as [x'|] eqn:E2; cbn.
    + intros p. specialize (H (k :: p)). cbn [lookup_path] in H.
      rewrite E1, E2 in H. exact H.
    + specialize (H [k]). cbn [lookup_path] in H. rewrite E1, E2 in H.
      destruct x; exact H.
    + specialize (H [k]). cbn [lookup_path] in H. rewrite E1, E2 in H. exact H.
    + exact I.
  - intros H [|k p]; cbn [lookup_path]; [exact I|].
    specialize (H k).
    destruct (dget d k) as [x|], (dget d' k) as [x'|]; cbn in H;
      try contradiction; [apply H | exact I].
Qed.

Lemma tree_iso_dict_inv d v : tree_iso (VDict d) v -> exists d', v = VDict d'.
Proof.
  intros H. specialize (H []). cbn in H. destruct v; try contradiction. eauto.
Qed.

Lemma tree_iso_list_inv ps v :
  tree_iso (VList ps) v -> exists ps', v = VList ps' /\ Permutation ps ps'.
Proof.
  intros H. specialize (H []). cbn in H. destruct v; try contradiction. eauto.
Qed.

Lemma tree_iso_str_inv x v : tree_iso (VStr x) v -> v = VStr x.
Proof.
  intros H. specialize (H []). cbn in H. destruct v; try contradiction. congruence.
Qed.

Lemma tree_iso_list ps ps' : Permutation ps ps' -> tree_iso (VList ps) (VList ps').
Proof. intros H [|k p]; cbn; auto. Qed.

(** ** One step of the walk as an update under one key *)

Lemma walk_levels_not_dict v rest i pg :
  (forall d, v <> VDict d) -> walk_levels v rest i pg = None.
Proof.
  intros H. destruct rest; destruct v; cbn [walk_levels]; try reflexivity;
    exfalso; eapply H; reflexivity.
Qed.

Lemma walk_levels_leaf d i pg :
  walk_levels (VDict d) [] i pg = update d K_PAGES (append_leaf pg).
Proof.
  cbn [walk_levels]. unfold update, append_leaf.
  destruct (dget d K_PAGES) as [[| |]|]; reflexivity.
Qed.

Lemma walk_levels_step d r rest i pg :
  walk_levels (VDict d) (r :: rest) i pg = update d r (step_child rest i pg).
Proof.
  cbn [walk_levels]. unfold update, step_child. rewrite din_dget.
  destruct (dget d r) as [child|] eqn:E.
  - rewrite E. reflexivity.
  - destruct (nth_error (levels pg) i) as [display|]; [|reflexivity].
    rewrite dget_dset_same.
    destruct (walk_levels (new_node display) rest (S i) pg); [|reflexivity].
    rewrite dset_dset_same. reflexivity.
Qed.

Lemma add_page_root d pg :
  levels_raw pg = [] -> add_page (VDict d) pg = update d K_PAGES (append_root pg).
Proof.
  intros H. unfold add_page. rewrite H. unfold update, append_root.
  rewrite din_dget. destruct (dget d K_PAGES) as [x|] eqn:E.
  - rewrite E. destruct x; reflexivity.
  - rewrite dget_dset_same, dset_dset_same. reflexivity.
Qed.

Lemma update_dict d k f x : update d k f = Some x -> exists d', x = VDict d'.
Proof.
  unfold update. destruct (f (dget d k)); [|discriminate].
  intros H. inversion H. eauto.
Qed.

Lemma walk_levels_dict v rest i pg x :
  walk_levels v rest i pg = Some x -> exists d, x = VDict d.
Proof.
  destruct v as [t|ps|d].
  - rewrite walk_levels_not_dict by discriminate. discriminate.
  - rewrite walk_levels_not_dict by discriminate. discriminate.
  - destruct rest as [|r rest].
    + rewrite walk_levels_leaf. apply update_dict.
    + rewrite walk_levels_step. apply update_dict.
Qed.

(** ** Updates and isomorphism *)

Lemma dset_iso d d' k x x' :
  tree_iso (VDict d) (VDict d') -> tree_iso x x' ->
  tree_iso (VDict (dset d k x)) (VDict (dset d' k x')).
Proof.
  intros Hd Hx. apply tree_iso_dict. intros k0.
  destruct (str_eqb k0 k) eqn:E.
  - apply str_eqb_eq in E. subst k0. rewrite !dget_dset_same. exact Hx.
  - apply str_eqb_neq in E. rewrite !dget_dset_other by exact E.
    apply tree_iso_dict. exact Hd.
Qed.

Lemma update_iso d d' k f g :
  tree_iso (VDict d) (VDict d') ->
  result_iso (f (dget d k)) (g (dget d' k)) ->
  result_iso (update d k f) (update d' k g).
Proof.
  intros Hd Hf. unfold update.
  destruct (f (dget d k)) as [x|], (g (dget d' k)) as [x'|]; cbn in *;
    try contradiction; [|exact I].
  apply dset_iso; assumption.
Qed.

Lemma update_twice d k f g :
  obind (update d k f)
    (fun t => match t with VDict d1 => update d1 k g | _ => None end)
  = update d k (fun o => obind (f o) (fun x => g (Some x))).
Proof.
  unfold update, obind. destruct (f (dget d k)) as [x|]; [|reflexivity].
  rewrite dget_dset_same. destruct (g (Some x)); [|reflexivity].
  rewrite dset_dset_same. reflexivity.
Qed.

Lemma update_commute d k1 k2 f g :
  k1 <> k2 ->
  result_iso
    (obind (update d k1 f)
       (fun t => match t with VDict d1 => update d1 k2 g | _ => None end))
    (obind (update d k2 g)
       (fun t => match t with VDict d1 => update d1 k1 f | _ => None end)).
Proof.
  intros Hn. unfold update, obind.
  destruct (f (dget d k1)) as [x|] eqn:Ef.
  - rewrite dget_dset_other by congruence.
    destruct (g (dget d k2)) as [y|] eqn:Eg.
    + rewrite dget_dset_other by congruence. rewrite Ef.
      cbn. apply tree_iso_dict. intros k.
      destruct (str_eqb k k1) eqn:E1.
      * apply str_eqb_eq in E1. subst k.
        rewrite dget_dset_other by congruence.
        rewrite !dget_dset_same. apply result_iso_refl.
      * apply str_eqb_neq in E1.
        destruct (str_eqb k k2) eqn:E2.
        -- apply str_eqb_eq in E2. subst k.
           rewrite dget_dset_same, dget_dset_other by congruence.
           rewrite dget_dset_same. apply result_iso_refl.
        -- apply str_eqb_neq in E2.
           rewrite !dget_dset_other by congruence. apply result_iso_refl.
    + exact I.
  - destruct (g (dget d k2)) as [y|] eqn:Eg; [|exact I].
    rewrite dget_dset_other by congruence. rewrite Ef. exact I.
Qed.

(** ** Adding a page respects isomorphism *)

Lemma append_leaf_iso pg o o' :
  result_iso o o' -> result_iso (append_leaf pg o) (append_leaf pg o').
Proof.
  destruct o as [x|], o' as [x'|]; cbn; try contradiction; auto.
  intros H. destruct x as [t|ps|d].
  - apply tree_iso_str_inv in H. subst. exact I.
  - apply tree_iso_list_inv in H. destruct H as (ps' & -> & Hp).
    cbn. apply tree_iso_list. apply Permutation_app_tail. exact Hp.
  - apply tree_iso_dict_inv in H. destruct H as (d' & ->). exact I.
Qed.

Lemma append_root_iso pg o o' :
  result_iso o o' -> result_iso (append_root pg o) (append_root pg o').
Proof.
  destruct o as [x|], o' as [x'|]; cbn; try contradiction.
  - intros H. destruct x as [t|ps|d].
    + apply tree_iso_str_inv in H. subst. exact I.
    + apply tree_iso_list_inv in H. destruct H as (ps' & -> & Hp).
      cbn. apply tree_iso_list. apply Permutation_app_tail. exact Hp.
    + apply tree_iso_dict_inv in H. destruct H as (d' & ->). exact I.
  - intros _. apply tree_iso_refl.
Qed.

Lemma walk_levels_iso pg rest : forall i v v',
  tree_iso v v' ->
  result_iso (walk_levels v rest i pg) (walk_levels v' rest i pg).
Proof.
  induction rest as [|r rest IH]; intros i v v' H.
  - destruct v as [t|ps|d].
    + apply tree_iso_str_inv in H. subst. apply result_iso_refl.
    + apply tree_iso_list_inv in H. destruct H as (ps' & -> & _). exact I.
    + destruct (tree_iso_dict_inv _ _ H) as (d' & ->).
      rewrite !walk_levels_leaf. apply update_iso; [exact H|].
      apply append_leaf_iso. apply tree_iso_dict. exact H.
  - destruct v as [t|ps|d].
    + apply tree_iso_str_inv in H. subst. apply result_iso_refl.
    + apply tree_iso_list_inv in H. destruct H as (ps' & -> & _). exact I.
    + destruct (tree_iso_dict_inv _ _ H) as (d' & ->).
      rewrite !walk_levels_step. apply update_iso; [exact H|].
      pose proof (proj1 (tree_iso_dict d d') H r) as Hr.
      unfold step_child.
      destruct (dget d r) as [c|], (dget d' r) as [c'|]; cbn in Hr;
        try contradiction.
      * apply IH. exact Hr.
      * destruct (nth_error (levels pg) i); [|exact I].
        apply IH. apply tree_iso_refl.
Qed.

Lemma add_page_iso pg v v' :
  tree_iso v v' -> result_iso (add_page v pg) (add_page v' pg).
Proof.
  intros H. destruct (levels_raw pg) as [|r rest] eqn:E.
  - destruct v as [t|ps|d].
    + apply tree_iso_str_inv in H. subst. apply result_iso_refl.
    + apply tree_iso_list_inv in H. destruct H as (ps' & -> & _).
      unfold add_page. rewrite E. exact I.
    + destruct (tree_iso_dict_inv _ _ H) as (d' & ->).
      rewrite !add_page_root by exact E. apply update_iso; [exact H|].
      apply append_root_iso. apply tree_iso_dict. exact H.
  - unfold add_page. rewrite E. apply walk_levels_iso. exact H.
Qed.

Lemma add_pages_iso pages : forall v v',
  tree_iso v v' -> result_iso (add_pages v pages) (add_pages v' pages).
Proof.
  induction pages as [|pg pages IH]; intros v v' H; [exact H|].
  cbn [add_pages]. pose proof (add_page_iso pg _ _ H) as Hp.
  destruct (add_page v pg) as [t|], (add_page v' pg) as [t'|]; cbn in Hp;
    try contradiction; [|exact I].
  apply IH. exact Hp.
Qed.

(** ** Adding two pages in either order *)

Lemma aligned_tail cfg pg r rest i :
  aligned cfg pg (r :: rest) i -> aligned cfg pg rest (S i).
Proof.
  intros H n x Hn. specialize (H (S n) x Hn).
  replace (S i + n) with (i + S n) by lia. exact H.
Qed.

Lemma aligned_head cfg pg r rest i :
  aligned cfg pg (r :: rest) i ->
  nth_error (levels pg) i = Some (level_display cfg r).
Proof.
  intros H. specialize (H 0 r eq_refl). rewrite Nat.add_0_r in H. exact H.
Qed.

Lemma update_same_key d k f g f' g' :
  (forall o, result_iso (obind (f o) (fun x => g (Some x)))
                        (obind (g' o) (fun x => f' (Some x)))) ->
  result_iso
    (obind (update d k f)
       (fun t => match t with VDict d1 => update d1 k g | _ => None end))
    (obind (update d k g')
       (fun t => match t with VDict d1 => update d1 k f' | _ => None end)).
Proof.
  intros H. rewrite !update_twice.
  apply update_iso; [apply tree_iso_refl | apply H].
Qed.

(** What [walk_levels] does after a step that returned [t]. *)
Lemma obind_walk_dict (o : option pyval) (F : pyval -> option pyval)
    (G : dict pyval -> option pyval) :
  (forall x, o = Some x -> exists d, x = VDict d) ->
  (forall d, F (VDict d) = G d) ->
  obind o F = obind o (fun t => match t with VDict d1 => G d1 | _ => None end).
Proof.
  intros Ho HF. destruct o as [x|]; [|reflexivity].
  destruct (Ho x eq_refl) as (d & ->). cbn. apply HF.
Qed.

Lemma append_then_walk pg q rest i o :
  obind (append_leaf pg o) (fun x => walk_levels x rest i q) = None.
Proof.
  destruct o as [[| |]|]; try reflexivity.
  cbn. apply walk_levels_not_dict. discriminate.
Qed.

Lemma walk_then_append pg (w : option pyval) :
  (forall x, w = Some x -> exists d, x = VDict d) ->
  obind w (fun x => append_leaf pg (Some x)) = None.
Proof.
  intros H. destruct w as [x|]; [|reflexivity].
  destruct (H x eq_refl) as (d & ->). reflexivity.
Qed.

Lemma step_child_dict rest i pg o x :
  step_child rest i pg o = Some x -> exists d, x = VDict d.
Proof.
  unfold step_child. destruct o as [c|].
  - apply walk_levels_dict.
  - destruct (nth_error (levels pg) i); [apply walk_levels_dict | discriminate].
Qed.

Lemma walk_levels_commute cfg p q rp : forall rq ip iq v,
  aligned cfg p rp ip -> aligned cfg q rq iq ->
  result_iso
    (obind (walk_levels v rp ip p) (fun t => walk_levels t rq iq q))
    (obind (walk_levels v rq iq q) (fun t => walk_levels t rp ip p)).
Proof.
  induction rp as [|r1 rp IH]; intros rq ip iq v Ap Aq.
  - destruct v as [t|ps|d];
      try (rewrite !(walk_levels_not_dict _ _ _ _) by discriminate; exact I).
    destruct rq as [|r2 rq].
    + rewrite !walk_levels_leaf.
      rewrite (obind_walk_dict _ (fun t => walk_levels t [] iq q)
                 (fun d1 => update d1 K_PAGES (append_leaf q)))
        by (apply update_dict || (intros; apply walk_levels_leaf)).
      rewrite (obind_walk_dict _ (fun t => walk_levels t [] ip p)
                 (fun d1 => update d1 K_PAGES (append_leaf p)))
        by (apply update_dict || (intros; apply walk_levels_leaf)).
      apply update_same_key. intros o.
      destruct o as [[t|ps|d0]|]; cbn; try exact I.
      apply tree_iso_list. rewrite <- !app_assoc. apply Permutation_app_head.
      apply perm_swap.
    + rewrite walk_levels_leaf, walk_levels_step.
      rewrite (obind_walk_dict _ (fun t => walk_levels t (r2 :: rq) iq q)
                 (fun d1 => update d1 r2 (step_child rq iq q)))
        by (apply update_dict || (intros; apply walk_levels_step)).
      rewrite (obind_walk_dict _ (fun t => walk_levels t [] ip p)
                 (fun d1 => update d1 K_PAGES (append_leaf p)))
        by (apply update_dict || (intros; apply walk_levels_leaf)).
      destruct (str_eqb K_PAGES r2) eqn:E.
      * apply str_eqb_eq in E. subst r2. apply update_same_key. intros o.
        assert (E1 : obind (append_leaf p o) (fun x => step_child rq iq q (Some x)) = None)
          by apply append_then_walk.
        rewrite E1.
        rewrite walk_then_append by (intros x; apply step_child_dict).
        exact I.
      * apply str_eqb_neq in E. apply update_commute. exact E.
  - destruct v as [t|ps|d];
      try (rewrite !(walk_levels_not_dict _ _ _ _) by discriminate; exact I).
    destruct rq as [|r2 rq].
    + rewrite walk_levels_leaf, walk_levels_step.
      rewrite (obind_walk_dict _ (fun t => walk_levels t [] iq q)
                 (fun d1 => update d1 K_PAGES (append_leaf q)))
        by (apply update_dict || (intros; apply walk_levels_leaf)).
      rewrite (obind_walk_dict _ (fun t => walk_levels t (r1 :: rp) ip p)
                 (fun d1 => update d1 r1 (step_child rp ip p)))
        by (apply update_dict || (intros; apply walk_levels_step)).
      destruct (str_eqb r1 K_PAGES) eqn:E.
      * apply str_eqb_eq in E. subst r1. apply update_same_key. intros o.
        assert (E1 : obind (append_leaf q o) (fun x => step_child rp ip p (Some x)) = None)
          by apply append_then_walk.
        rewrite E1.
        rewrite walk_then_append by (intros x; apply step_child_dict).
        exact I.
      * apply str_eqb_neq in E. apply update_commute. exact E.
    + rewrite !walk_levels_step.
      rewrite (obind_walk_dict _ (fun t => walk_levels t (r2 :: rq) iq q)
                 (fun d1 => update d1 r2 (step_child rq iq q)))
        by (apply update_dict || (intros; apply walk_levels_step)).
      rewrite (obind_walk_dict _ (fun t => walk_levels t (r1 :: rp) ip p)
                 (fun d1 => update d1 r1 (step_child rp ip p)))
        by (apply update_dict || (intros; apply walk_levels_step)).
      destruct (str_eqb r1 r2) eqn:E.
      * apply str_eqb_eq in E. subst r2. apply update_same_key. intros o.
        unfold step_child at 1 3. destruct o as [c|].
        -- apply IH; eapply aligned_tail; eassumption.
        -- rewrite (aligned_head _ _ _ _ _ Ap), (aligned_head _ _ _ _ _ Aq).
           apply IH; eapply aligned_tail; eassumption.
      * apply str_eqb_neq in E. apply update_commute. exact E.
Qed.

Lemma page_wf_aligned cfg pg : page_wf cfg pg -> aligned cfg pg (levels_raw pg) 0.
Proof.
  intros H n r Hn. rewrite H. cbn [Nat.add]. apply map_nth_error. exact Hn.
Qed.

Lemma add_page_walk v pg r rest :
  levels_raw pg = r :: rest -> add_page v pg = walk_levels v (r :: rest) 0 pg.
Proof. intros H. unfold add_page. rewrite H. reflexivity. Qed.

Lemma add_page_not_dict v pg : (forall d, v <> VDict d) -> add_page v pg = None.
Proof.
  intros H. unfold add_page. destruct (levels_raw pg).
  - destruct v; try reflexivity. exfalso. eapply H. reflexivity.
  - apply walk_levels_not_dict. exact H.
Qed.

Lemma add_page_dict v pg x : add_page v pg = Some x -> exists d, x = VDict d.
Proof.
  destruct (levels_raw pg) as [|r rest] eqn:E.
  - destruct v as [t|ps|d];
      try (rewrite add_page_not_dict by discriminate; discriminate).
    rewrite add_page_root by exact E. apply update_dict.
  - rewrite (add_page_walk _ _ _ _ E). apply walk_levels_dict.
Qed.

Lemma add_page_commute_root_walk v p q r rq :
  levels_raw p = [] -> levels_raw q = r :: rq ->
  result_iso (obind (add_page v p) (fun t => add_page t q))
             (obind (add_page v q) (fun t => add_page t p)).
Proof.
  intros Ep Eq.
  destruct v as [t|ps|d];
    try (rewrite !(add_page_not_dict _ _) by discriminate; exact I).
  rewrite (add_page_root _ _ Ep), (add_page_walk _ _ _ _ Eq), walk_levels_step.
  rewrite (obind_walk_dict _ (fun t => add_page t q)
             (fun d1 => update d1 r (step_child rq 0 q)))
    by (apply update_dict
        || (intros; rewrite (add_page_walk _ _ _ _ Eq); apply walk_levels_step)).
  rewrite (obind_walk_dict _ (fun t => add_page t p)
             (fun d1 => update d1 K_PAGES (append_root p)))
    by (apply update_dict || (intros; apply add_page_root; exact Ep)).
  destruct (str_eqb K_PAGES r) eqn:E.
  - apply str_eqb_eq in E. subst r. apply update_same_key. intros o.
    assert (E1 : obind (append_root p o) (fun x => step_child rq 0 q (Some x)) = None).
    { destruct o as [[| |]|]; try reflexivity;
        cbn; apply walk_levels_not_dict; discriminate. }
    assert (E2 : obind (step_child rq 0 q o) (fun x => append_root p (Some x)) = None).
    { destruct (step_child rq 0 q o) as [x|] eqn:Es; [|reflexivity].
      destruct (step_child_dict _ _ _ _ _ Es) as (d0 & ->). reflexivity. }
    rewrite E1, E2. exact I.
  - apply str_eqb_neq in E. apply update_commute. exact E.
Qed.

Lemma add_page_commute cfg v p q :
  page_wf cfg p -> page_wf cfg q ->
  result_iso (obind (add_page v p) (fun t => add_page t q))
             (obind (add_page v q) (fun t => add_page t p)).
Proof.
  intros Wp Wq.
  destruct (levels_raw p) as [|r1 rp] eqn:Ep, (levels_raw q) as [|r2 rq] eqn:Eq.
  - destruct v as [t|ps|d];
      try (rewrite !(add_page_not_dict _ _) by discriminate; exact I).
    rewrite (add_page_root _ _ Ep), (add_page_root _ _ Eq).
    rewrite (obind_walk_dict _ (fun t => add_page t q)
               (fun d1 => update d1 K_PAGES (append_root q)))
      by (apply update_dict || (intros; apply add_page_root; exact Eq)).
    rewrite (obind_walk_dict _ (fun t => add_page t p)
               (fun d1 => update d1 K_PAGES (append_root p)))
      by (apply update_dict || (intros; apply add_page_root; exact Ep)).
    apply update_same_key. intros o.
    destruct o as [[t|ps|d0]|]; cbn; try exact I.
    + apply tree_iso_list. rewrite <- !app_assoc. apply Permutation_app_head.
      apply perm_swap.
    + apply tree_iso_list. apply perm_swap.
  - eapply add_page_commute_root_walk; eassumption.
  - apply result_iso_sym. eapply add_page_commute_root_walk; eassumption.
  - rewrite (add_page_walk v _ _ _ Ep), (add_page_walk v _ _ _ Eq).
    assert (E1 : obind (walk_levels v (r1 :: rp) 0 p) (fun t => add_page t q)
                 = obind (walk_levels v (r1 :: rp) 0 p)
                     (fun t => walk_levels t (r2 :: rq) 0 q)).
    { destruct (walk_levels v (r1 :: rp) 0 p); [|reflexivity].
      cbn. apply add_page_walk. exact Eq. }
    assert (E2 : obind (walk_levels v (r2 :: rq) 0 q) (fun t => add_page t p)
                 = obind (walk_levels v (r2 :: rq) 0 q)
                     (fun t => walk_levels t (r1 :: rp) 0 p)).
    { destruct (walk_levels v (r2 :: rq) 0 q); [|reflexivity].
      cbn. apply add_page_walk. exact Ep. }
    rewrite E1, E2. apply (walk_levels_commute cfg).
    + rewrite <- Ep. apply page_wf_aligned. exact Wp.
    + rewrite <- Eq. apply page_wf_aligned. exact Wq.
Qed.

Lemma add_pages_perm cfg pages pages' :
  Permutation pages pages' ->
  Forall (page_wf cfg) pages ->
  forall v v', tree_iso v v' ->
    result_iso (add_pages v pages) (add_pages v' pages').
Proof.
  induction 1 as [|x l l' Hp IH|x y l|l l' l'' Hp1 IH1 Hp2 IH2];
    intros Hwf v v' Hv.
  - exact Hv.
  - cbn [add_pages]. pose proof (add_page_iso x _ _ Hv) as Hx.
    destruct (add_page v x) as [t|], (add_page v' x) as [t'|]; cbn in Hx;
      try contradiction; [|exact I].
    apply IH; [inversion Hwf; assumption | exact Hx].
  - inversion Hwf as [|? ? Wy Hwf']; subst.
    inversion Hwf' as [|? ? Wx Hwf'']; subst.
    pose proof (add_page_commute cfg v y x Wy Wx) as Hc.
    assert (Hr : result_iso (obind (add_page v x) (fun t => add_page t y))
                            (obind (add_page v' x) (fun t => add_page t y))).
    { pose proof (add_page_iso x _ _ Hv) as Hx.
      destruct (add_page v x) as [t|], (add_page v' x) as [t'|]; cbn in Hx;
        try contradiction; [|exact I].
      cbn. apply add_page_iso. exact Hx. }
    pose proof (result_iso_trans _ _ _ Hc Hr) as Ht.
    change (add_pages v (y :: x :: l))
      with (match add_page v y with
            | Some t => match add_page t x with
                        | Some t2 => add_pages t2 l
                        | None => None
                        end
            | None => None
            end).
    change (add_pages v' (x :: y :: l))
      with (match add_page v' x with
            | Some t => match add_page t y with
                        | Some t2 => add_pages t2 l
                        | None => None
                        end
            | None => None
            end).
    unfold obind in Ht.
    destruct (add_page v y) as [t1|]; [destruct (add_page t1 x) as [t2|]|];
      (destruct (add_page v' x) as [u1|]; [destruct (add_page u1 y) as [u2|]|]);
      cbn in Ht; try contradiction; try exact I.
    apply add_pages_iso. exact Ht.
  - eapply result_iso_trans.
    + apply IH1; [exact Hwf | apply tree_iso_refl].
    + apply IH2; [|exact Hv].
      eapply Permutation_Forall; eassumption.
Qed.

(** ** Trees built from pages without reserved folder names *)

Lemma pyval_ind' (P : pyval -> Prop) :
  (forall t, P (VStr t)) ->
  (forall ps, P (VList ps)) ->
  (forall d, Forall (fun kv => P (snd kv)) d -> P (VDict d)) ->
  forall v, P v.
Proof.
  intros Hs Hl Hd. fix IH 1. intros [t|ps|d]; [apply Hs | apply Hl |].
  apply Hd. revert d. fix IHd 1. intros [|[k x] d].
  - constructor.
  - constructor; [apply IH | apply IHd].
Qed.

Lemma dget_In {V} (d : dict V) k v : dget d k = Some v -> In (k, v) d.
Proof.
  induction d as [|[k' v'] d IH]; cbn [dget]; [discriminate|].
  destruct (str_eqb k k') eqn:E.
  - intros H. inversion H; subst. apply str_eqb_eq in E. subst. left. reflexivity.
  - intros H. right. apply IH. exact H.
Qed.

Lemma dset_Forall {V} (P : str * V -> Prop) (d : dict V) k v :
  Forall P d -> (forall k', k' = k -> P (k', v)) -> Forall P (dset d k v).
Proof.
  intros Hd Hv. induction Hd as [|[k' v'] d Hx Hd IH]; cbn [dset].
  - constructor; [apply Hv; reflexivity | constructor].
  - destruct (str_eqb k k') eqn:E.
    + constructor; [|exact Hd]. apply Hv. apply str_eqb_eq in E. congruence.
    + constructor; [exact Hx | exact IH].
Qed.

Lemma not_reserved_neq r : reserved r = false -> r <> K_PAGES /\ r <> K_DISPLAY.
Proof.
  unfold reserved. intros H. apply orb_false_elim in H. destruct H as [H1 H2].
  apply str_eqb_neq in H1, H2. auto.
Qed.

Lemma node_ok_new display : node_ok (new_node display).
Proof.
  apply (node_ok_dict _ [] display); try reflexivity.
  repeat constructor.
Qed.

Lemma children_ok_get d r c :
  Forall (fun kv => reserved (fst kv) = true \/ node_ok (snd kv)) d ->
  reserved r = false -> dget d r = Some c -> node_ok c.
Proof.
  intros Hd Hr Hc. apply dget_In in Hc.
  rewrite Forall_forall in Hd. destruct (Hd _ Hc) as [H|H]; [|exact H].
  cbn in H. congruence.
Qed.

Lemma walk_levels_ok pg rest : forall i v,
  node_ok v ->
  (forall r, In r rest -> reserved r = false) ->
  i + List.length rest <= List.length (levels pg) ->
  exists v', walk_levels v rest i pg = Some v' /\ node_ok v'.
Proof.
  induction rest as [|r rest IH]; intros i v Hv Hr Hl.
  - inversion Hv as [d ps t Hp Hdisp Hch]; subst.
    rewrite walk_levels_leaf. unfold update, append_leaf. rewrite Hp.
    eexists. split; [reflexivity|].
    apply (node_ok_dict _ (ps ++ [pg]) t).
    + apply dget_dset_same.
    + rewrite dget_dset_other by discriminate. exact Hdisp.
    + apply dset_Forall; [exact Hch|]. intros k' ->. left. reflexivity.
  - inversion Hv as [d ps t Hp Hdisp Hch]; subst.
    assert (Hrr : reserved r = false) by (apply Hr; left; reflexivity).
    destruct (not_reserved_neq _ Hrr) as [N1 N2].
    rewrite walk_levels_step. unfold update.
    assert (Hc : exists c', step_child rest i pg (dget d r) = Some c' /\ node_ok c').
    { unfold step_child. destruct (dget d r) as [c|] eqn:Ec.
      - apply IH.
        + eapply children_ok_get; eauto.
        + intros; apply Hr; right; assumption.
        + cbn [List.length] in Hl. lia.
      - destruct (nth_error (levels pg) i) as [display|] eqn:En.
        + apply IH.
          * apply node_ok_new.
          * intros; apply Hr; right; assumption.
          * cbn [List.length] in Hl. lia.
        + apply nth_error_None in En. cbn [List.length] in Hl. lia. }
    destruct Hc as (c' & Ec' & Hc'). rewrite Ec'.
    eexists. split; [reflexivity|].
    apply (node_ok_dict _ ps t).
    + rewrite dget_dset_other by congruence. exact Hp.
    + rewrite dget_dset_other by congruence. exact Hdisp.
    + apply dset_Forall; [exact Hch|]. intros k' ->. right. exact Hc'.
Qed.

Lemma add_page_ok cfg v pg :
  root_ok v -> page_wf cfg pg -> reserved_free pg ->
  exists v', add_page v pg = Some v' /\ root_ok v'.
Proof.
  intros (d & -> & Hp & Hdisp & Hch) Hwf Hrf.
  destruct (levels_raw pg) as [|r rest] eqn:E.
  - rewrite add_page_root by exact E. unfold update, append_root.
    destruct Hp as [Hp | (ps & Hp)]; rewrite Hp;
      (eexists; split; [reflexivity|]);
      (eexists; split; [reflexivity|]);
      (split; [right; eexists; apply dget_dset_same|]);
      (split; [rewrite dget_dset_other by discriminate; exact Hdisp|]);
      (apply dset_Forall; [exact Hch|]; intros k' ->; left; reflexivity).
  - rewrite (add_page_walk _ _ _ _ E), walk_levels_step. unfold update.
    assert (Hrr : reserved r = false) by (apply Hrf; rewrite E; left; reflexivity).
    destruct (not_reserved_neq _ Hrr) as [N1 N2].
    assert (Hlen : List.length (levels pg) = S (List.length rest)).
    { rewrite Hwf, length_map, E. reflexivity. }
    assert (Hc : exists c', step_child rest 0 pg (dget d r) = Some c' /\ node_ok c').
    { unfold step_child. destruct (dget d r) as [c|] eqn:Ec.
      - apply walk_levels_ok.
        + eapply children_ok_get; eauto.
        + intros x Hx. apply Hrf. rewrite E. right. exact Hx.
        + lia.
      - destruct (nth_error (levels pg) 0) as [display|] eqn:En.
        + apply walk_levels_ok.
          * apply node_ok_new.
          * intros x Hx. apply Hrf. rewrite E. right. exact Hx.
          * lia.
        + apply nth_error_None in En. lia. }
    destruct Hc as (c' & Ec' & Hc'). rewrite Ec'.
    eexists. split; [reflexivity|].
    eexists. split; [reflexivity|].
    split; [rewrite dget_dset_other by congruence; exact Hp|].
    split; [rewrite dget_dset_other by congruence; exact Hdisp|].
    apply dset_Forall; [exact Hch|]. intros k' ->. right. exact Hc'.
Qed.

Lemma add_pages_ok cfg pages : forall v,
  root_ok v -> Forall (page_wf cfg) pages -> Forall reserved_free pages ->
  exists v', add_pages v pages = Some v' /\ root_ok v'.
Proof.
  induction pages as [|pg pages IH]; intros v Hv Hwf Hrf.
  - exists v. split; [reflexivity | exact Hv].
  - inversion Hwf as [|? ? Wp Wl]; subst. inversion Hrf as [|? ? Rp Rl]; subst.
    destruct (add_page_ok cfg v pg Hv Wp Rp) as (v1 & E1 & Hv1).
    cbn [add_pages]. rewrite E1. apply IH; assumption.
Qed.

Lemma build_tree_ok cfg pages :
  Forall (page_wf cfg) pages -> Forall reserved_free pages ->
  exists t, build_tree pages = Some t /\ root_ok t.
Proof.
  intros Hwf Hrf. apply (add_pages_ok cfg); auto.
  exists []. repeat split; auto.
Qed.

(** C9: building the category tree does not depend on the order of the
    pages.  For pages whose display levels are those of their raw levels,
    the tree built from a permutation of the list is isomorphic to the
    tree built from the list: under every path of raw folder names both
    have a node or none, with the same display name and the same pages up
    to their order.  Both trees exist when no folder bears one of the two
    reserved keys as its name; when such a name makes [build_tree] raise,
    it raises for every order. *)
Theorem build_tree_order_independent (cfg : config) (pages pages' : list page) :
  Forall (page_wf cfg) pages ->
  Permutation pages pages' ->
  result_iso (build_tree pages) (build_tree pages') /\
  (Forall reserved_free pages ->
   exists t t', build_tree pages = Some t /\ build_tree pages' = Some t' /\
                tree_iso t t').
Proof.
  intros Hwf Hp.
  assert (R : result_iso (build_tree pages) (build_tree pages')).
  { unfold build_tree.
    apply (add_pages_perm cfg); [exact Hp | exact Hwf | apply tree_iso_refl]. }
  split; [exact R|]. intros Hrf.
  destruct (build_tree_ok cfg pages Hwf Hrf) as (t & Et & _).
  rewrite Et in *. destruct (build_tree pages') as [t'|]; [|contradiction].
  exists t, t'. repeat split. exact R.
Qed.

(** ** Pages held by a tree *)

Lemma pages_in_dict d :
  pages_in (VDict d) = flat_map (fun kv => pages_in (snd kv)) d.
Proof.
  induction d as [|[k x] d IH]; [reflexivity|].
  cbn [flat_map snd]. rewrite <- IH. reflexivity.
Qed.







(** ** Links of the navigation *)

Section NavigationFacts.

Variable cfg : config.

Lemma render_sublevel_dict d parent_id level_depth url_prefix :
  render_sublevel cfg (VDict d) parent_id level_depth url_prefix =
  match sorted_pages (dget d K_PAGES) with
  | None => None
  | Some pages =>
      match render_folders level_depth parent_id
              (subfolders_of
                 (map (fun kv =>
                         (fst kv,
                          (snd kv,
                           fun folder_id =>
                             render_sublevel cfg (snd kv) folder_id
                               (S level_depth) url_prefix)))
                    d)) with
      | None => None
      | Some folder_parts =>
          Some (folder_parts ++ render_pages cfg level_depth url_prefix pages)
      end
  end.
Proof.
  cbn [render_sublevel].
  match goal with
  | |- context [subfolders_of (?F d)] =>
      assert (E : F d =
                  map (fun kv =>
                         (fst kv,
                          (snd kv,
                           fun folder_id =>
                             render_sublevel cfg (snd kv) folder_id
                               (S level_depth) url_prefix)))
                    d)
  end.
  { induction d as [|[k x] d IH]; [reflexivity|].
    cbn [map fst snd]. rewrite <- IH. reflexivity. }
  rewrite E. reflexivity.
Qed.

Lemma subfolders_of_Forall {V} (P : str * V -> Prop) items :
  Forall P items -> Forall P (subfolders_of items).
Proof.
  intros H. unfold subfolders_of. rewrite Forall_forall in *.
  intros x Hx. apply filter_In in Hx. destruct Hx as [Hx _].
  apply sorted_In in Hx. apply H. exact Hx.
Qed.










End NavigationFacts.

(** ** The navigation is rendered *)


Section NavigationTotal.

Variable cfg : config.






End NavigationTotal.

(** ** Every page of a visible folder is linked *)

Lemma located_leaf d ps pg :
  dget d K_PAGES = Some (VList ps) -> In pg ps -> located (VDict d) [] pg.
Proof.
  intros H Hin. exists ps. cbn [app lookup_path]. rewrite H. auto.
Qed.

Lemma located_leaf_inv d pg :
  located (VDict d) [] pg -> exists ps, dget d K_PAGES = Some (VList ps) /\ In pg ps.
Proof.
  intros (ps & H & Hin). cbn [app lookup_path] in H.
  destruct (dget d K_PAGES) as [x|]; [|discriminate].
  inversion H; subst. eauto.
Qed.

Lemma located_step d k p pg :
  located (VDict d) (k :: p) pg <->
  exists x, dget d k = Some x /\ located x p pg.
Proof.
  unfold located. cbn [app lookup_path]. split.
  - intros (ps & H & Hin). destruct (dget d k) as [x|]; [|discriminate]. eauto.
  - intros (x & -> & ps & H & Hin). eauto.
Qed.

Lemma located_not_dict v p pg : located v p pg -> exists d, v = VDict d.
Proof.
  intros (ps & H & _). destruct v as [t|l|d]; [| |eauto];
    destruct p; cbn in H; discriminate.
Qed.

Lemma walk_levels_located pg rest : forall i v v',
  walk_levels v rest i pg = Some v' -> located v' rest pg.
Proof.
  induction rest as [|r rest IH]; intros i v v' H.
  - destruct v as [t|ps|d];
      try (rewrite walk_levels_not_dict in H by discriminate; discriminate).
    rewrite walk_levels_leaf in H. unfold update, append_leaf in H.
    destruct (dget d K_PAGES) as [[t|ps|d0]|]; try discriminate.
    inversion H; subst. eapply located_leaf; [apply dget_dset_same|].
    apply in_or_app. right. left. reflexivity.
  - destruct v as [t|ps|d];
      try (rewrite walk_levels_not_dict in H by discriminate; discriminate).
    rewrite walk_levels_step in H. unfold update in H.
    destruct (step_child rest i pg (dget d r)) as [c'|] eqn:Es; [|discriminate].
    inversion H; subst. apply located_step. exists c'.
    split; [apply dget_dset_same|].
    unfold step_child in Es. destruct (dget d r).
    + eapply IH; eassumption.
    + destruct (nth_error (levels pg) i); [|discriminate]. eapply IH; eassumption.
Qed.

Lemma walk_levels_keeps q pg rest : forall i p v v',
  walk_levels v rest i q = Some v' -> located v p pg -> located v' p pg.
Proof.
  induction rest as [|r rest IH]; intros i p v v' H L.
  - destruct v as [t|ps|d];
      try (rewrite walk_levels_not_dict in H by discriminate; discriminate).
    rewrite walk_levels_leaf in H. unfold update, append_leaf in H.
    destruct (dget d K_PAGES) as [[t|ps|d0]|] eqn:E; try discriminate.
    inversion H; subst; clear H. destruct p as [|k p].
    + apply located_leaf_inv in L. destruct L as (ps0 & E0 & Hin).
      rewrite E in E0. inversion E0; subst.
      eapply located_leaf; [apply dget_dset_same|]. apply in_or_app. left. exact Hin.
    + apply located_step in L. destruct L as (x & Ex & Lx).
      apply located_step. exists x. split; [|exact Lx].
      destruct (str_eqb k K_PAGES) eqn:Ek.
      * apply str_eqb_eq in Ek. subst k. rewrite E in Ex. inversion Ex; subst.
        apply located_not_dict in Lx. destruct Lx as (d1 & Hd). discriminate.
      * apply str_eqb_neq in Ek. rewrite dget_dset_other by exact Ek. exact Ex.
  - destruct v as [t|ps|d];
      try (rewrite walk_levels_not_dict in H by discriminate; discriminate).
    rewrite walk_levels_step in H. unfold update in H.
    destruct (step_child rest i q (dget d r)) as [c'|] eqn:Es; [|discriminate].
    inversion H; subst; clear H. destruct p as [|k p].
    + apply located_leaf_inv in L. destruct L as (ps0 & E0 & Hin).
      destruct (str_eqb K_PAGES r) eqn:Ek.
      * apply str_eqb_eq in Ek. subst r. rewrite E0 in Es. unfold step_child in Es.
        rewrite walk_levels_not_dict in Es by discriminate. discriminate.
      * apply str_eqb_neq in Ek. eapply located_leaf; [|exact Hin].
        rewrite dget_dset_other by exact Ek. exact E0.
    + apply located_step in L. destruct L as (x & Ex & Lx).
      apply located_step.
      destruct (str_eqb k r) eqn:Ek.
      * apply str_eqb_eq in Ek. subst k. exists c'.
        split; [apply dget_dset_same|].
        rewrite Ex in Es. unfold step_child in Es. eapply IH; eassumption.
      * apply str_eqb_neq in Ek. exists x. split; [|exact Lx].
        rewrite dget_dset_other by exact Ek. exact Ex.
Qed.

Lemma add_page_located v pg v' :
  add_page v pg = Some v' -> located v' (levels_raw pg) pg.
Proof.
  intros H. destruct (levels_raw pg) as [|r rest] eqn:E.
  - destruct v as [t|ps|d];
      try (rewrite add_page_not_dict in H by discriminate; discriminate).
    rewrite add_page_root in H by exact E. unfold update, append_root in H.
    destruct (dget d K_PAGES) as [[t|ps|d0]|]; try discriminate;
      inversion H; subst; (eapply located_leaf; [apply dget_dset_same|]).
    + apply in_or_app. right. left. reflexivity.
    + left. reflexivity.
  - rewrite (add_page_walk _ _ _ _ E) in H. eapply walk_levels_located. exact H.
Qed.

Lemma add_page_keeps v q v' p pg :
  add_page v q = Some v' -> located v p pg -> located v' p pg.
Proof.
  intros H L. destruct (levels_raw q) as [|r rest] eqn:E.
  - destruct v as [t|ps|d];
      try (rewrite add_page_not_dict in H by discriminate; discriminate).
    rewrite add_page_root in H by exact E. unfold update in H.
    destruct p as [|k p].
    + apply located_leaf_inv in L. destruct L as (ps0 & E0 & Hin).
      rewrite E0 in H. cbn [append_root] in H. inversion H; subst.
      eapply located_leaf; [apply dget_dset_same|]. apply in_or_app. left. exact Hin.
    + apply located_step in L. destruct L as (x & Ex & Lx).
      destruct (str_eqb k K_PAGES) eqn:Ek.
      * apply str_eqb_eq in Ek. subst k. rewrite Ex in H.
        destruct (located_not_dict _ _ _ Lx) as (d1 & ->).
        cbn [append_root] in H. discriminate.
      * apply str_eqb_neq in Ek.
        destruct (append_root q (dget d K_PAGES)) as [y|]; [|discriminate].
        inversion H; subst. apply located_step. exists x. split; [|exact Lx].
        rewrite dget_dset_other by exact Ek. exact Ex.
  - rewrite (add_page_walk _ _ _ _ E) in H. eapply walk_levels_keeps; eassumption.
Qed.

Lemma add_pages_located pages : forall v t,
  add_pages v pages = Some t ->
  (forall p pg, located v p pg -> located t p pg) /\
  (forall pg, In pg pages -> located t (levels_raw pg) pg).
Proof.
  induction pages as [|q pages IH]; intros v t H.
  - inversion H; subst. split; [auto | intros pg []].
  - cbn [add_pages] in H. destruct (add_page v q) as [v1|] eqn:E1; [|discriminate].
    destruct (IH _ _ H) as [K1 K2]. split.
    + intros p pg L. apply K1. eapply add_page_keeps; eassumption.
    + intros pg [<- | Hin]; [|apply K2; exact Hin].
      apply K1. eapply add_page_located. exact E1.
Qed.

Section NavigationComplete.

Variable cfg : config.






End NavigationComplete.

(** ** Navigation at a relative depth *)



Lemma sample_pages_wf : Forall (page_wf default_config) sample_pages.
Proof. repeat constructor. Defined.

Lemma sample_pages_reserved_free : Forall reserved_free sample_pages.
Proof.
  repeat constructor; intros r Hr; cbn in Hr;
    repeat (destruct Hr as [<- | Hr]; [reflexivity|]); destruct Hr.
Defined.


Lemma build_tree_order_independent_witness :
  result_iso (build_tree [page_intro; page_linux; page_about])
             (build_tree [page_about; page_intro; page_linux]) /\
  exists t t',
    build_tree [page_intro; page_linux; page_about] = Some t /\
    build_tree [page_about; page_intro; page_linux] = Some t' /\
    tree_iso t t'.
Proof.
  destruct (build_tree_order_independent default_config
              [page_intro; page_linux; page_about]
              [page_about; page_intro; page_linux]
              sample_pages_wf
              (Permutation_sym
                 (Permutation_cons_append [page_intro; page_linux] page_about)))
    as [H1 H2].
  split; [exact H1 | exact (H2 sample_pages_reserved_free)].
Defined.

(** A folder named [__pages__] next to a root-level page makes
    [build_tree] raise, whatever the order. *)
Example build_tree_reserved_name :
  build_tree [page_about; page_clash] = None /\
  build_tree [page_clash; page_about] = None.
Proof. split; reflexivity. Qed.

Lemma reading_time_rounds_to_nearest_witness :
  calculate_reading_time (body_of_words 400) = 2%Z /\
  calculate_reading_time (body_of_words 50) = 1%Z.
Proof.
  destruct (reading_time_rounds_to_nearest (body_of_words 400)) as (_ & _ & H400 & _).
  destruct (reading_time_rounds_to_nearest (body_of_words 50)) as (_ & _ & _ & H50).
  split; [apply H400 | apply H50]; vm_compute; reflexivity.
Defined.

(* ================================================================== *)
(** * Further properties of the code *)
(* ================================================================== *)

(** ** Number prefixes, in general *)

Lemma takewhile_app_stop (p : ascii -> bool) a b :
  forallb p a = true ->
  match b with [] => True | c :: _ => p c = false end ->
  takewhile p (a ++ b) = a /\ dropwhile p (a ++ b) = b.
Proof.
  intros Ha Hb. induction a as [|x a IH]; cbn [app].
  - destruct b as [|c b]; [split; reflexivity|].
    cbn [takewhile dropwhile]. rewrite Hb. split; reflexivity.
  - cbn [forallb] in Ha. apply andb_prop in Ha. destruct Ha as [Hx Ha].
    cbn [takewhile dropwhile]. rewrite Hx. destruct (IH Ha) as [E1 E2].
    rewrite E1, E2. split; reflexivity.
Qed.

Lemma sep_not_digit c : is_prefix_sep c = true -> isdigit c = false.
Proof.
  destruct c as [[|] [|] [|] [|] [|] [|] [|] [|]]; vm_compute; intros H;
    try reflexivity; discriminate.
Qed.

Lemma strip_number_prefix_strips digits seps rest :
  digits <> [] -> seps <> [] ->
  forallb isdigit digits = true -> forallb is_prefix_sep seps = true ->
  match rest with [] => True | c :: _ => is_prefix_sep c = false end ->
  strip_number_prefix (digits ++ seps ++ rest) = rest.
Proof.
  intros Hd Hs Fd Fs Hr.
  assert (Hstop : match seps ++ rest with
                  | [] => True
                  | c :: _ => isdigit c = false
                  end).
  { destruct seps as [|c seps]; [contradiction|]. cbn [app].
    cbn [forallb] in Fs. apply andb_prop in Fs. apply sep_not_digit. tauto. }
  destruct (takewhile_app_stop isdigit digits (seps ++ rest) Fd Hstop) as [E1 E2].
  destruct (takewhile_app_stop is_prefix_sep seps rest Fs Hr) as [E3 E4].
  unfold strip_number_prefix. rewrite E1, E2, E3, E4.
  destruct digits; [contradiction|]. destruct seps; [contradiction|]. reflexivity.
Qed.

Lemma strip_number_prefix_keeps name :
  match name with [] => True | c :: _ => isdigit c = false end ->
  strip_number_prefix name = name.
Proof.
  intros Hn. unfold strip_number_prefix.
  destruct name as [|c name]; [reflexivity|].
  cbn [takewhile]. rewrite Hn. reflexivity.
Qed.

(** X1: the numeric prefix is stripped greedily and only when it is
    complete.  A name made of a non-empty run of digits, a non-empty run
    of separators ([-], [_], [.], white space) and a rest that does not
    start with a separator becomes that rest; a name that does not start
    with a digit, or whose leading digits are not followed by a
    separator, is returned unchanged. *)
Theorem strip_number_prefix_greedy :
  (forall digits seps rest,
     digits <> [] -> seps <> [] ->
     forallb isdigit digits = true -> forallb is_prefix_sep seps = true ->
     match rest with [] => True | c :: _ => is_prefix_sep c = false end ->
     strip_number_prefix (digits ++ seps ++ rest) = rest) /\
  (forall name,
     match name with [] => True | c :: _ => isdigit c = false end ->
     strip_number_prefix name = name) /\
  (forall digits rest,
     forallb isdigit digits = true ->
     match rest with
     | [] => True
     | c :: _ => isdigit c = false /\ is_prefix_sep c = false
     end ->
     strip_number_prefix (digits ++ rest) = digits ++ rest).
Proof.
  split; [|split].
  - apply strip_number_prefix_strips.
  - apply strip_number_prefix_keeps.
  - intros digits rest Fd Hr.
    assert (Hstop : match rest with [] => True | c :: _ => isdigit c = false end)
      by (destruct rest; tauto).
    assert (Hstop2 : match rest with [] => True | c :: _ => is_prefix_sep c = false end)
      by (destruct rest; tauto).
    destruct (takewhile_app_stop isdigit digits rest Fd Hstop) as [E1 E2].
    unfold strip_number_prefix. rewrite E1, E2.
    destruct digits; [reflexivity|].
    destruct rest as [|c rest]; [reflexivity|].
    cbn [takewhile]. rewrite Hstop2. reflexivity.
Qed.

Lemma strip_number_prefix_greedy_witness :
  strip_number_prefix (s "0042" ++ s "_- ." ++ s "notes-1") = s "notes-1" /\
  strip_number_prefix (s "v2-notes") = s "v2-notes" /\
  strip_number_prefix (s "2024" ++ s "q3") = s "2024" ++ s "q3".
Proof.
  destruct strip_number_prefix_greedy as (H1 & H2 & H3).
  split; [|split].
  - apply H1; try discriminate; reflexivity.
  - apply H2. reflexivity.
  - apply H3; [reflexivity | split; reflexivity].
Defined.

(** ** Capitalisation keeps the words *)



Lemma join_wordlike_nonempty w ws : wordlike w -> join (s " ") (w :: ws) <> [].
Proof.
  intros [Hne _]. destruct w as [|c w]; [contradiction|].
  destruct ws; cbn; discriminate.
Qed.

Lemma capitalize_with_acronyms_split (text : str) (acronyms : option pyset) :
  let acr := match acronyms with None => [] | Some a => a end in
  capitalize_with_acronyms text acronyms
  = join (s " ") (map_from (cased_word acr) 0 (split_ws text)) /\
  split_ws (capitalize_with_acronyms text acronyms)
  = map_from (cased_word acr) 0 (split_ws text).
Proof.
  intros acr.
  assert (E : capitalize_with_acronyms text acronyms
              = join (s " ") (map_from (cased_word acr) 0 (split_ws text))).
  { unfold capitalize_with_acronyms. fold acr.
    rewrite capitalize_loop_spec. reflexivity. }
  split; [exact E|]. rewrite E. apply split_ws_join.
  apply map_from_Forall with (P := wordlike).
  - intros; apply wordlike_cased; assumption.
  - apply split_ws_wordlike.
Qed.


(** ** Display names are clean *)

(** X3: when no override applies, a formatted display name contains no
    hyphen and no underscore, and it is its own words joined by single
    spaces. *)
Theorem format_display_name_clean (name : str) (acr : pyset) (ovr : dict str) :
  dget ovr name = None ->
  dget ovr (strip_number_prefix name) = None ->
  let r := format_display_name name true (Some acr) (Some ovr) in
  (forall c, In c r -> c <> "-"%char /\ c <> "_"%char) /\
  join (s " ") (split_ws r) = r.
Proof.
  intros H1 H2 r.
  assert (E : r = capitalize_with_acronyms
                    (replace "_"%char (s " ")
                       (replace "-"%char (s " ") (strip_number_prefix name)))
                    (Some acr)).
  { unfold r, format_display_name. cbn [negb]. rewrite H1, H2. reflexivity. }
  split.
  - apply plain_forall. rewrite E. apply capitalize_with_acronyms_plain.
  - rewrite E.
    destruct (capitalize_with_acronyms_split
                (replace "_"%char (s " ")
                   (replace "-"%char (s " ") (strip_number_prefix name)))
                (Some acr)) as [Ej Es].
    rewrite Es. symmetry. exact Ej.
Qed.

Lemma format_display_name_clean_witness :
  let r := format_display_name (s "07_deep-dive__into  the-API") true
             (Some [s "api"]) (Some [(s "faq", s "F-A-Q")]) in
  r = s "Deep Dive Into the API" /\
  (forall c, In c r -> c <> "-"%char /\ c <> "_"%char) /\
  join (s " ") (split_ws r) = r.
Proof.
  split; [reflexivity|].
  apply (format_display_name_clean (s "07_deep-dive__into  the-API")
           [s "api"] [(s "faq", s "F-A-Q")]); reflexivity.
Defined.

(** ** Keys of the legacy frontmatter *)

Lemma dset_In_inv {V} (d : dict V) k v k' v' :
  In (k', v') (dset d k v) -> In (k', v') d \/ (k' = k /\ v' = v).
Proof.
  induction d as [|[k0 v0] d IH]; cbn [dset].
  - intros [H|[]]. inversion H. auto.
  - destruct (str_eqb k k0) eqn:E.
    + intros [H|H]; [|left; right; exact H].
      inversion H; subst. apply str_eqb_eq in E. auto.
    + intros [H|H]; [left; left; exact H|].
      destruct (IH H) as [Hd|Hn]; [left; right; exact Hd | right; exact Hn].
Qed.

Lemma lower_replace_lower t :
  lower (replace " "%char (s "_") (lower t)) = replace " "%char (s "_") (lower t).
Proof.
  unfold replace, lower. induction t as [|c t IH]; [reflexivity|].
  cbn [map flat_map]. rewrite map_app, IH. f_equal.
  destruct (ch_eqb (lower_c c) " "%char); [reflexivity|].
  cbn [map]. rewrite lower_c_idem. reflexivity.
Qed.

Lemma header_entries_keys lines : forall fm,
  (forall k v, In (k, v) fm -> lower k = k /\ ~ In " "%char k) ->
  forall k v, In (k, v) (fold_left add_header_entry lines fm) ->
    lower k = k /\ ~ In " "%char k.
Proof.
  induction lines as [|line lines IH]; intros fm Hfm k v Hin; [eauto|].
  cbn [fold_left] in Hin. apply (IH _) in Hin; [exact Hin|].
  intros k0 v0 H0. unfold add_header_entry in H0.
  destruct (header_entry line) as [[k1 v1]|] eqn:E; [|eauto].
  apply dset_In_inv in H0. destruct H0 as [H0|[-> ->]]; [eauto|].
  unfold header_entry in E.
  destruct (contains ":"%char (strip (skipn 1 line))); [|discriminate].
  inversion E; subst. split.
  - apply lower_replace_lower.
  - intros Hs. apply replace_removes in Hs.
    destruct Hs as [[Hs|[]] | [_ Hs]]; [discriminate | congruence].
Qed.

(** X4: in the legacy [%] format every key of the frontmatter is
    normalised: it is lower-case and contains no space, whatever the
    header lines spell. *)
Theorem parse_frontmatter_legacy_keys (yaml_safe_load : str -> option yaml_doc)
    (content : str) :
  startswith content (s "%") = true ->
  exists fm body,
    parse_frontmatter yaml_safe_load content = (FmDict fm, body) /\
    forall k v, In (k, v) fm -> lower k = k /\ ~ In " "%char k.
Proof.
  intros H.
  assert (E : startswith content (s "---") = false).
  { destruct content as [|c content]; [discriminate|].
    cbn in H. apply andb_prop in H. destruct H as [H _].
    apply ch_eqb_eq in H. subst c. reflexivity. }
  unfold parse_frontmatter. rewrite E, H. rewrite percent_loop_spec.
  eexists. eexists. split; [reflexivity|].
  apply header_entries_keys. intros k v [].
Qed.

Lemma parse_frontmatter_legacy_keys_witness :
  exists fm body,
    parse_frontmatter no_yaml (s "% Display Name : My Page" ++ [LF] ++ s "text")
    = (FmDict fm, body) /\
    dget fm (s "display_name") = Some (s "My Page") /\
    forall k v, In (k, v) fm -> lower k = k /\ ~ In " "%char k.
Proof.
  destruct (parse_frontmatter_legacy_keys no_yaml
              (s "% Display Name : My Page" ++ [LF] ++ s "text") eq_refl)
    as (fm & body & E & H).
  exists fm, body. split; [exact E|]. split; [|exact H].
  vm_compute in E. inversion E. reflexivity.
Defined.

(** ** Valid names *)

Lemma existsb_dropwhile (p q : ascii -> bool) t :
  (forall c, p c = true -> q c = false) ->
  existsb q (dropwhile p t) = existsb q t.
Proof.
  intros H. induction t as [|c t IH]; [reflexivity|].
  cbn [dropwhile existsb]. destruct (p c) eqn:E; [|reflexivity].
  rewrite IH, (H c E). reflexivity.
Qed.

Lemma existsb_rev {A} (q : A -> bool) l : existsb q (rev l) = existsb q l.
Proof.
  induction l as [|x l IH]; [reflexivity|].
  cbn [rev existsb]. rewrite existsb_app, IH. cbn [existsb].
  rewrite orb_false_r. apply orb_comm.
Qed.

Lemma trimmed_not_alnum c : in_chars (s "-_=. ") c = true -> isalnum_c c = false.
Proof.
  destruct c as [[|] [|] [|] [|] [|] [|] [|] [|]]; vm_compute; intros H;
    try reflexivity; discriminate.
Qed.

Lemma ch_eqb_eq_sym_false a b : ch_eqb a b = false -> ch_eqb b a = false.
Proof.
  intros H. destruct (ch_eqb b a) eqn:E; [|reflexivity].
  apply ch_eqb_eq in E. subst. rewrite ch_eqb_refl in H. discriminate.
Qed.

Lemma rfind_absent c t : contains c t = false -> rfind c t = None.
Proof.
  unfold contains. induction t as [|x t IH]; [reflexivity|].
  cbn [existsb rfind]. intros H. apply orb_false_elim in H. destruct H as [Hx Ht].
  rewrite (IH Ht). rewrite ch_eqb_eq_sym_false; [reflexivity | exact Hx].
Qed.

(** X5: a name is valid exactly when the part before its last dot (the
    whole name when it has no dot) contains a letter or a digit; trimming
    the separators changes nothing to that.  In particular a name whose
    only dot is its first character, such as [.git] or [.obsidian], is
    never valid, whatever the excluded-folder list says. *)
Theorem is_valid_name_iff :
  (forall name,
     is_valid_name name =
     existsb isalnum_c
       (match rfind "."%char name with
        | Some i => firstn i name
        | None => name
        end)) /\
  (forall t, contains "."%char t = false -> is_valid_name ("."%char :: t) = false).
Proof.
  assert (A : forall name,
     is_valid_name name =
     existsb isalnum_c
       (match rfind "."%char name with
        | Some i => firstn i name
        | None => name
        end)).
  { intros name. rewrite is_valid_name_alnum. unfold strip_chars, strip_with.
    rewrite existsb_rev, existsb_dropwhile by apply trimmed_not_alnum.
    rewrite existsb_rev. apply existsb_dropwhile. apply trimmed_not_alnum. }
  split; [exact A|].
  intros t Ht. rewrite A. cbn [rfind]. rewrite (rfind_absent _ _ Ht).
  reflexivity.
Qed.

Lemma is_valid_name_iff_witness :
  is_valid_name (s ".obsidian") = false /\ is_valid_name (s ".git") = false.
Proof.
  destruct is_valid_name_iff as [_ H].
  split; [exact (H (s "obsidian") eq_refl) | exact (H (s "git") eq_refl)].
Defined.

(** ** Escaping *)

Lemma flat_map_pieces (F : str -> str) :
  F [] = [] -> (forall x t, F (x :: t) = F [x] ++ F t) ->
  forall t, F t = flat_map (fun x => F [x]) t.
Proof.
  intros H0 H1. induction t as [|x t IH]; [exact H0|].
  rewrite H1, IH. reflexivity.
Qed.

Lemma forallb_flat_map {A B} (q : B -> bool) (f : A -> list B) l :
  (forall x, forallb q (f x) = true) -> forallb q (flat_map f l) = true.
Proof.
  intros H. induction l as [|x l IH]; [reflexivity|].
  cbn [flat_map]. rewrite forallb_app, H, IH. reflexivity.
Qed.

Lemma replace_app old new a b :
  replace old new (a ++ b) = replace old new a ++ replace old new b.
Proof. unfold replace. apply flat_map_app. Qed.

Lemma html_escape_cons x t : html_escape (x :: t) = html_escape [x] ++ html_escape t.
Proof. unfold html_escape. cbn [flat_map]. rewrite app_nil_r. reflexivity. Qed.

Lemma html_escape_char_safe x :
  forallb (fun c => negb (html_special c)) (html_escape [x]) = true.
Proof. each_ascii x. Qed.

Lemma html_escape_char_plain x :
  html_special x = false -> ch_eqb x "&"%char = false -> html_escape [x] = [x].
Proof.
  destruct x as [[|] [|] [|] [|] [|] [|] [|] [|]]; vm_compute; intros H1 H2;
    try reflexivity; discriminate.
Qed.

(** X6: [html.escape] lets no [<], [>], double or single quote through,
    and leaves a text without these characters and without [&]
    unchanged. *)
Theorem html_escape_safe (t : str) :
  (forall c, In c (html_escape t) -> html_special c = false) /\
  (forallb (fun c => negb (html_special c) && negb (ch_eqb c "&"%char)) t = true ->
   html_escape t = t).
Proof.
  split.
  - intros c Hc.
    assert (F : forallb (fun c => negb (html_special c)) (html_escape t) = true).
    { rewrite (flat_map_pieces html_escape eq_refl html_escape_cons).
      apply forallb_flat_map. apply html_escape_char_safe. }
    rewrite forallb_forall in F. apply negb_true_iff. apply F. exact Hc.
  - induction t as [|x t IH]; intros H; [reflexivity|].
    cbn [forallb] in H. apply andb_prop in H. destruct H as [Hx Ht].
    apply andb_prop in Hx. destruct Hx as [H1 H2].
    apply negb_true_iff in H1, H2.
    rewrite html_escape_cons, (html_escape_char_plain x H1 H2), (IH Ht).
    reflexivity.
Qed.

Lemma html_escape_safe_witness :
  html_escape (s "Guides 1.2 (draft)") = s "Guides 1.2 (draft)".
Proof.
  destruct (html_escape_safe (s "Guides 1.2 (draft)")) as [_ H].
  apply H. reflexivity.
Defined.

Lemma escape_js_cons x t :
  escape_js_string (Some (x :: t))
  = escape_js_string (Some [x]) ++ escape_js_string (Some t).
Proof.
  unfold escape_js_string.
  change (x :: t) with ([x] ++ t). rewrite !replace_app. reflexivity.
Qed.

Lemma js_safe_piece x rest :
  js_safe (escape_js_string (Some [x]) ++ rest) = js_safe rest.
Proof. each_ascii x. Qed.

Lemma escape_js_char_plain x :
  js_safe [x] = true -> escape_js_string (Some [x]) = [x].
Proof.
  destruct x as [[|] [|] [|] [|] [|] [|] [|] [|]]; vm_compute; intros H;
    try reflexivity; discriminate.
Qed.

(** X7: the text that [escape_js_string] returns can stand between the
    quotes of a JavaScript string literal: every backslash in it escapes
    the character that follows, and no quote, line feed or carriage
    return is left unescaped.  [None] gives the empty string, and a text
    without backslash, quote, line feed and carriage return is returned
    unchanged. *)
Theorem escape_js_string_safe (t : str) :
  js_safe (escape_js_string (Some t)) = true /\
  escape_js_string None = [] /\
  (forallb (fun c => js_safe [c]) t = true -> escape_js_string (Some t) = t).
Proof.
  split; [|split; [reflexivity|]].
  - induction t as [|x t IH]; [reflexivity|].
    rewrite escape_js_cons, js_safe_piece. exact IH.
  - induction t as [|x t IH]; intros H; [reflexivity|].
    cbn [forallb] in H. apply andb_prop in H. destruct H as [Hx Ht].
    rewrite escape_js_cons, (escape_js_char_plain x Hx). cbn [app].
    f_equal. apply IH. exact Ht.
Qed.

Lemma escape_js_string_safe_witness :
  escape_js_string (Some (s "Getting started: part 2")) = s "Getting started: part 2".
Proof.
  destruct (escape_js_string_safe (s "Getting started: part 2")) as (_ & _ & H).
  apply H. reflexivity.
Defined.

Lemma slug_cons x t : slug (x :: t) = slug [x] ++ slug t.
Proof.
  unfold slug, lower. change (map lower_c (x :: t)) with ([lower_c x] ++ map lower_c t).
  rewrite !replace_app. reflexivity.
Qed.

Lemma slug_char x :
  forallb (fun c => negb (ch_eqb c " "%char) && negb (ch_eqb c "&"%char)
                    && negb (isupper_c c)) (slug [x]) = true.
Proof. each_ascii x. Qed.

(** X8: the identifier derived from a raw folder name for the category
    markup contains no space, no ampersand and no upper-case letter. *)
Theorem slug_characters (raw : str) (c : ascii) :
  In c (slug raw) ->
  c <> " "%char /\ c <> "&"%char /\ isupper_c c = false.
Proof.
  intros Hc.
  assert (F : forallb (fun c => negb (ch_eqb c " "%char) && negb (ch_eqb c "&"%char)
                                && negb (isupper_c c)) (slug raw) = true).
  { rewrite (flat_map_pieces slug eq_refl slug_cons).
    apply forallb_flat_map. apply slug_char. }
  rewrite forallb_forall in F. specialize (F c Hc).
  apply andb_prop in F. destruct F as [F F3].
  apply andb_prop in F. destruct F as [F1 F2].
  apply negb_true_iff in F1, F2, F3.
  repeat split; try exact F3; intros ->; rewrite ch_eqb_refl in *; discriminate.
Qed.

Lemma slug_characters_witness :
  slug (s "Q&A Corner") = s "qanda-corner" /\
  ("q"%char <> " "%char /\ "q"%char <> "&"%char /\ isupper_c "q"%char = false).
Proof.
  split; [reflexivity|].
  apply (slug_characters (s "Q&A Corner") "q"%char). left. reflexivity.
Defined.

(** ** Canonical URLs *)

Lemma dropwhile_head (p : ascii -> bool) t :
  match dropwhile p t with [] => True | c :: _ => p c = false end.
Proof.
  induction t as [|c t IH]; cbn [dropwhile]; [exact I|].
  destruct (p c) eqn:E; [exact IH | exact E].
Qed.

Lemma rstrip_chars_no_tail chars t pre c :
  in_chars chars c = true -> rstrip_chars chars t <> pre ++ [c].
Proof.
  intros Hc E. unfold rstrip_chars in E.
  apply (f_equal (@rev ascii)) in E. rewrite rev_involutive, rev_app_distr in E.
  cbn [rev app] in E.
  pose proof (dropwhile_head (in_chars chars) (rev t)) as H.
  rewrite E in H. congruence.
Qed.

Lemma rstrip_chars_tail chars t c :
  in_chars chars c = true -> rstrip_chars chars (t ++ [c]) = rstrip_chars chars t.
Proof.
  intros Hc. unfold rstrip_chars. rewrite rev_app_distr. cbn [rev app dropwhile].
  rewrite Hc. reflexivity.
Qed.

(** X9: the canonical URL does not depend on a trailing slash of the
    site URL nor, for a non-empty page URL, on a leading slash of the
    page URL; base and page are joined by exactly one slash: the base
    never ends with a slash and the page part never starts with one. *)
Theorem generate_canonical_url_slashes (st : site) (page_url : str) :
  generate_canonical_url (with_site_url st (site_url st ++ s "/")) page_url
  = generate_canonical_url st page_url /\
  (page_url <> [] ->
   generate_canonical_url st ("/"%char :: page_url)
   = generate_canonical_url st page_url) /\
  (page_url <> [] ->
   exists base rest,
     generate_canonical_url st page_url = base ++ s "/" ++ rest /\
     (forall pre, base <> pre ++ s "/") /\
     (forall r, rest <> "/"%char :: r)).
Proof.
  split; [|split].
  - unfold generate_canonical_url. cbn [with_site_url site_url].
    change (site_url st ++ s "/") with (site_url st ++ ["/"%char]).
    rewrite (rstrip_chars_tail (s "/") (site_url st) "/"%char eq_refl).
    reflexivity.
  - intros Hn. destruct page_url as [|c u]; [contradiction|]. reflexivity.
  - intros Hn. destruct page_url as [|c u]; [contradiction|].
    exists (rstrip_chars (s "/") (site_url st)), (lstrip_chars (s "/") (c :: u)).
    split; [reflexivity|]. split.
    + intros pre. apply rstrip_chars_no_tail. reflexivity.
    + intros r E. unfold lstrip_chars in E.
      pose proof (dropwhile_head (in_chars (s "/")) (c :: u)) as H.
      rewrite E in H. discriminate.
Qed.

Lemma generate_canonical_url_slashes_witness :
  let st := mkSite (s "Docs") (s "Notes") (s "https://example.org//") None None None None in
  generate_canonical_url st (s "//guides/intro.html")
  = s "https://example.org/guides/intro.html" /\
  generate_canonical_url st (s "/guides/intro.html")
  = generate_canonical_url st (s "guides/intro.html").
Proof.
  intros st. split; [reflexivity|].
  destruct (generate_canonical_url_slashes st (s "guides/intro.html")) as (_ & H & _).
  apply H. discriminate.
Defined.

(** ** Meta description *)

(** X10: the meta description is never longer than 160 characters,
    whatever the page, the page type and the configured templates; and
    for a page that is not the index, a non-empty [description] of its
    frontmatter is used (cut at 160 characters) before any template. *)
Theorem generate_meta_description_bounded (st : site) (pg : option page)
    (page_type : str) :
  List.length (generate_meta_description st pg page_type) <= 160 /\
  (forall page d,
     pg = Some page -> str_eqb page_type (s "index") = false ->
     dget (frontmatter page) (s "description") = Some d -> d <> [] ->
     generate_meta_description st pg page_type = firstn 160 d).
Proof.
  split.
  - unfold generate_meta_description.
    destruct (str_eqb page_type (s "index")); [apply firstn_le_length|].
    destruct pg as [page|]; [|apply firstn_le_length].
    destruct (dget (frontmatter page) (s "description")) as [[|c r]|];
      apply firstn_le_length.
  - intros page d -> Ht Hd Hne. unfold generate_meta_description.
    rewrite Ht, Hd. destruct d; [contradiction | reflexivity].
Qed.

Lemma generate_meta_description_bounded_witness :
  let st := mkSite (s "Docs") (s "Notes") (s "https://example.org") None None None None in
  let pg := mkPage (s "a") (s "a.html") (s "A") [] [] [] 0 (s "General") [] 1
              [s "a.md"] [s "a.md"] [(s "description", s "All about A.")] in
  generate_meta_description st (Some pg) (s "content") = s "All about A.".
Proof.
  intros st pg.
  destruct (generate_meta_description_bounded st (Some pg) (s "content")) as [_ H].
  apply (H pg (s "All about A.")); try reflexivity. discriminate.
Defined.

(** ** Reading time, monotone *)

Lemma py_round_div_monotone n m :
  (0 <= n <= m)%Z -> (py_round_div n 200 <= py_round_div m 200)%Z.
Proof.
  intros H.
  destruct (Z.eq_dec n m) as [->|Hne]; [lia|].
  pose proof (py_round_div_nearest n ltac:(lia)) as Hn.
  pose proof (py_round_div_nearest m ltac:(lia)) as Hm.
  cbv zeta in Hn, Hm. lia.
Qed.

(** X11: the reading time never decreases when words are added: a body
    with at least as many words as another has at least its reading
    time. *)
Theorem calculate_reading_time_monotone (a b : str) :
  (word_count a <= word_count b)%Z ->
  (calculate_reading_time a <= calculate_reading_time b)%Z.
Proof.
  intros H. unfold calculate_reading_time. fold (word_count a) (word_count b).
  assert (0 <= word_count a)%Z by (unfold word_count; lia).
  pose proof (py_round_div_monotone (word_count a) (word_count b) ltac:(lia)).
  lia.
Qed.

Lemma calculate_reading_time_monotone_witness :
  (calculate_reading_time (body_of_words 299)
   <= calculate_reading_time (body_of_words 300))%Z.
Proof.
  apply calculate_reading_time_monotone. vm_compute. discriminate.
Defined.

(** ** The order of strings and paths *)

Lemma code_inj a b : code a = code b -> a = b.
Proof.
  unfold code. intros H.
  rewrite <- (ascii_nat_embedding a), <- (ascii_nat_embedding b), H. reflexivity.
Qed.

Lemma str_leb_total a : forall b, str_leb a b = true \/ str_leb b a = true.
Proof.
  induction a as [|x a IH]; intros [|y b]; cbn [str_leb]; auto.
  destruct (code x <? code y) eqn:E1; [auto|].
  destruct (code y <? code x) eqn:E2; [auto|]. apply IH.
Qed.

Lemma str_leb_antisym a : forall b,
  str_leb a b = true -> str_leb b a = true -> a = b.
Proof.
  induction a as [|x a IH]; intros [|y b]; cbn [str_leb]; try discriminate; auto.
  destruct (code x <? code y) eqn:E1, (code y <? code x) eqn:E2;
    try discriminate.
  - apply Nat.ltb_lt in E1, E2. lia.
  - intros H1 H2. apply Nat.ltb_ge in E1, E2.
    assert (x = y) by (apply code_inj; lia). subst. f_equal. apply IH; assumption.
Qed.

Lemma str_leb_trans a : forall b c,
  str_leb a b = true -> str_leb b c = true -> str_leb a c = true.
Proof.
  induction a as [|x a IH]; intros [|y b] [|z c]; cbn [str_leb];
    try discriminate; auto.
  destruct (Nat.ltb_spec (code x) (code y)), (Nat.ltb_spec (code y) (code x)),
           (Nat.ltb_spec (code y) (code z)), (Nat.ltb_spec (code z) (code y)),
           (Nat.ltb_spec (code x) (code z)), (Nat.ltb_spec (code z) (code x));
    try lia; try discriminate; auto.
  apply IH.
Qed.

Lemma path_leb_total a : forall b, path_leb a b = true \/ path_leb b a = true.
Proof.
  induction a as [|x a IH]; intros [|y b]; cbn [path_leb]; auto.
  rewrite (str_eqb_sym y x). destruct (str_eqb x y); [apply IH | apply str_leb_total].
Qed.

Lemma path_leb_antisym a : forall b,
  path_leb a b = true -> path_leb b a = true -> a = b.
Proof.
  induction a as [|x a IH]; intros [|y b]; cbn [path_leb]; try discriminate; auto.
  rewrite (str_eqb_sym y x). destruct (str_eqb x y) eqn:E.
  - apply str_eqb_eq in E. subst. intros H1 H2. f_equal. apply IH; assumption.
  - intros H1 H2. apply str_eqb_neq in E. exfalso. apply E.
    apply str_leb_antisym; assumption.
Qed.

Lemma path_leb_trans a : forall b c,
  path_leb a b = true -> path_leb b c = true -> path_leb a c = true.
Proof.
  induction a as [|x a IH]; intros [|y b] [|z c]; cbn [path_leb];
    try discriminate; auto.
  destruct (str_eqb x y) eqn:E1.
  - apply str_eqb_eq in E1. subst y. destruct (str_eqb x z); [apply IH | auto].
  - destruct (str_eqb y z) eqn:E2.
    + apply str_eqb_eq in E2. subst z. rewrite E1. auto.
    + intros H1 H2. destruct (str_eqb x z) eqn:E3.
      * apply str_eqb_eq in E3. subst z. apply str_eqb_neq in E1.
        exfalso. apply E1. apply str_leb_antisym; assumption.
      * eapply str_leb_trans; eassumption.
Qed.

Section SortFacts.

Variable A : Type.
Variable leb : A -> A -> bool.
Hypothesis leb_total : forall a b, leb a b = true \/ leb b a = true.
Hypothesis leb_trans : forall a b c, leb a b = true -> leb b c = true -> leb a c = true.
Hypothesis leb_antisym : forall a b, leb a b = true -> leb b a = true -> a = b.

Lemma insert_sorted_ascending x l :
  ascending leb l -> ascending leb (insert_sorted leb x l).
Proof.
  induction l as [|y l IH]; intros H; cbn [insert_sorted].
  - cbn. auto.
  - destruct H as [Hy Hl]. destruct (leb x y) eqn:E.
    + cbn [ascending]. split; [|split; assumption].
      constructor; [exact E|].
      eapply Forall_impl; [|exact Hy]. intros z Hz. eapply leb_trans; eassumption.
    + cbn [ascending]. split; [|apply IH; exact Hl].
      assert (Hyx : leb y x = true) by (destruct (leb_total x y); congruence).
      eapply Permutation_Forall;
        [apply Permutation_sym; apply insert_sorted_perm|].
      constructor; assumption.
Qed.

Lemma sorted_ascending l : ascending leb (sorted leb l).
Proof.
  induction l as [|x l IH]; cbn [sorted]; [exact I|].
  apply insert_sorted_ascending. exact IH.
Qed.

Lemma ascending_unique l : forall l',
  ascending leb l -> ascending leb l' -> Permutation l l' -> l = l'.
Proof.
  induction l as [|x l IH]; intros l' Hl Hl' Hp.
  - apply Permutation_nil in Hp. congruence.
  - destruct l' as [|y l'].
    { apply Permutation_sym, Permutation_nil in Hp. discriminate. }
    destruct Hl as [Hx Hl], Hl' as [Hy Hl'].
    assert (Exy : x = y).
    { assert (Hin1 : In x (y :: l')) by (eapply Permutation_in; [exact Hp | left; reflexivity]).
      assert (Hin2 : In y (x :: l))
        by (eapply Permutation_in; [apply Permutation_sym; exact Hp | left; reflexivity]).
      destruct Hin1 as [E|Hin1]; [congruence|].
      destruct Hin2 as [E|Hin2]; [congruence|].
      rewrite Forall_forall in Hx, Hy.
      apply leb_antisym; [apply Hx; exact Hin2 | apply Hy; exact Hin1]. }
    subst y. f_equal. apply IH; try assumption.
    eapply Permutation_cons_inv. exact Hp.
Qed.

Lemma sorted_permutation_eq l l' :
  Permutation l l' -> sorted leb l = sorted leb l'.
Proof.
  intros Hp. apply ascending_unique; try apply sorted_ascending.
  eapply perm_trans; [apply sorted_perm|].
  eapply perm_trans; [exact Hp|]. apply Permutation_sym. apply sorted_perm.
Qed.

Lemma ascending_filter (q : A -> bool) l :
  ascending leb l -> ascending leb (filter q l).
Proof.
  induction l as [|x l IH]; intros H; [exact I|].
  destruct H as [Hx Hl]. cbn [filter]. destruct (q x); [|apply IH; exact Hl].
  cbn [ascending]. split; [|apply IH; exact Hl].
  rewrite Forall_forall in *. intros y Hy. apply filter_In in Hy. apply Hx. tauto.
Qed.

End SortFacts.

Lemma filter_permutation {A} (q : A -> bool) l l' :
  Permutation l l' -> Permutation (filter q l) (filter q l').
Proof.
  induction 1 as [|x l l' Hp IH|x y l|l l' l'' Hp1 IH1 Hp2 IH2]; cbn [filter].
  - constructor.
  - destruct (q x); [constructor|]; exact IH.
  - destruct (q x), (q y); try apply Permutation_refl. apply perm_swap.
  - eapply perm_trans; eassumption.
Qed.

(** ** The scanner: order, diagnostics, category index *)

Section ScannerOrder.

Variable yaml_safe_load : str -> option yaml_doc.
Variable render_markdown : str -> option str.
Variable cfg : config.

Lemma process_md_files_read_text fs fs' content_dir files :
  (forall p, read_text fs p = read_text fs' p) ->
  forall pages st,
    process_md_files yaml_safe_load render_markdown fs cfg content_dir files pages st
    = process_md_files yaml_safe_load render_markdown fs' cfg content_dir files pages st.
Proof.
  intros Hr. induction files as [|f files IH]; intros pages st; [reflexivity|].
  cbn [process_md_files]. unfold process_markdown_file, process_markdown_file_try.
  rewrite (Hr f).
  destruct (read_text fs' f); [|apply IH].
  destruct (parse_frontmatter yaml_safe_load _) as [[d|] body]; [|apply IH].
  destruct (get_page_hierarchy cfg f content_dir) as [[[[? ?] ?] ?]|]; [|apply IH].
  destruct (render_markdown body); [|apply IH].
  destruct (generate_page_id f content_dir); [|apply IH].
  destruct (generate_page_url f content_dir); [|apply IH].
  destruct (relative_to f content_dir); [|apply IH].
  apply IH.
Qed.

Lemma scan_files_permutation fs fs' content_dir :
  Permutation (rglob_md fs content_dir) (rglob_md fs' content_dir) ->
  scan_files fs cfg content_dir = scan_files fs' cfg content_dir.
Proof.
  intros Hp. unfold scan_files.
  apply (sorted_permutation_eq path path_leb path_leb_total path_leb_trans path_leb_antisym).
  apply Permutation_map. apply filter_permutation. exact Hp.
Qed.

Lemma scan_directory_files fs content_dir st :
  scan_directory yaml_safe_load render_markdown fs cfg content_dir st
  = if dir_exists fs content_dir
    then Some (process_md_files yaml_safe_load render_markdown fs cfg content_dir
                 (scan_files fs cfg content_dir) [] st)
    else Some ([], print (MsgContentDirNotFound content_dir) st).
Proof.
  unfold scan_directory. destruct (dir_exists fs content_dir); cbn [negb]; [|reflexivity].
  fold (excluded_set cfg). rewrite select_md_files_spec. reflexivity.
Qed.

(** X12: the result of a scan does not depend on the order in which the
    directory walk meets the files: two file systems with the same
    directory, the same file contents and the same Markdown files, met in
    any two orders, give the same pages, the same category index and the
    same [Error processing] lines. *)
Theorem scan_directory_walk_order (fs fs' : filesystem) (content_dir : path)
  (st : state) :
  dir_exists fs content_dir = dir_exists fs' content_dir ->
  (forall p, read_text fs p = read_text fs' p) ->
  Permutation (rglob_md fs content_dir) (rglob_md fs' content_dir) ->
  scan_directory yaml_safe_load render_markdown fs cfg content_dir st
  = scan_directory yaml_safe_load render_markdown fs' cfg content_dir st.
Proof.
  intros Hd Hr Hp. rewrite !scan_directory_files, <- Hd.
  rewrite (scan_files_permutation fs fs' content_dir Hp).
  rewrite (process_md_files_read_text fs fs' content_dir _ Hr). reflexivity.
Qed.

Lemma loaded_file_paths fs content_dir files :
  map file_path (loaded (load_page yaml_safe_load render_markdown fs cfg content_dir) files)
  = filter (fun f =>
      match load_page yaml_safe_load render_markdown fs cfg content_dir f with
      | Some _ => true
      | None => false
      end) files.
Proof.
  induction files as [|f files IH]; [reflexivity|]. cbn [loaded filter].
  destruct (load_page yaml_safe_load render_markdown fs cfg content_dir f) as [pg|] eqn:E;
    [|exact IH].
  cbn [map]. rewrite IH. f_equal.
  exact (load_file_path yaml_safe_load render_markdown fs cfg _ _ _ E).
Qed.

Lemma scan_directory_loaded fs content_dir st pages st' :
  scan_directory yaml_safe_load render_markdown fs cfg content_dir st
  = Some (pages, st') ->
  pages = [] \/
  pages = loaded (load_page yaml_safe_load render_markdown fs cfg content_dir)
            (scan_files fs cfg content_dir).
Proof.
  rewrite scan_directory_files. destruct (dir_exists fs content_dir); intros H.
  - right. inversion H as [E].
    pose proof (process_md_files_pages yaml_safe_load render_markdown fs cfg
                  content_dir (scan_files fs cfg content_dir) [] st) as P.
    rewrite E in P. exact P.
  - left. inversion H. reflexivity.
Qed.

(** X13: the pages of a scan come in ascending order of their file
    paths, compared part by part, whatever the order of the walk. *)
Theorem scan_directory_sorted (fs : filesystem) (content_dir : path)
  (st st' : state) (pages : list page) :
  scan_directory yaml_safe_load render_markdown fs cfg content_dir st
  = Some (pages, st') ->
  ascending path_leb (map file_path pages).
Proof.
  intros H. destruct (scan_directory_loaded _ _ _ _ _ H) as [-> | ->]; [exact I|].
  rewrite loaded_file_paths.
  apply (ascending_filter path path_leb). unfold scan_files.
  apply (sorted_ascending path path_leb path_leb_total path_leb_trans).
Qed.

Lemma NoDup_map_app {A} (pre : list A) (l : list (list A)) :
  NoDup l -> NoDup (map (fun rel => pre ++ rel) l).
Proof.
  induction 1 as [|x l Hx Hl IH]; cbn [map]; constructor; [|exact IH].
  intros Hin. apply in_map_iff in Hin. destruct Hin as (y & E & Hy).
  apply app_inv_head in E. subst y. exact (Hx Hy).
Qed.

(** X14: two files of the walk never end as one page twice: when the
    walk lists no file twice, the pages of the scan come from pairwise
    distinct files. *)
Theorem scan_directory_distinct_files (fs : filesystem) (content_dir : path)
  (st st' : state) (pages : list page) :
  NoDup (rglob_md fs content_dir) ->
  scan_directory yaml_safe_load render_markdown fs cfg content_dir st
  = Some (pages, st') ->
  NoDup (map file_path pages).
Proof.
  intros Hn H. destruct (scan_directory_loaded _ _ _ _ _ H) as [-> | ->];
    [constructor|].
  rewrite loaded_file_paths. apply NoDup_filter. unfold scan_files.
  eapply Permutation_NoDup; [apply Permutation_sym; apply sorted_perm|].
  apply NoDup_map_app. apply NoDup_filter. exact Hn.
Qed.

Lemma process_md_files_printed fs content_dir files : forall pages st,
  printed (snd (process_md_files yaml_safe_load render_markdown fs cfg content_dir
                  files pages st))
  = printed st
    ++ map MsgErrorProcessing
         (failing (load_page yaml_safe_load render_markdown fs cfg content_dir) files).
Proof.
  induction files as [|f files IH]; intros pages st.
  - cbn. rewrite app_nil_r. reflexivity.
  - cbn [process_md_files failing filter]. unfold process_markdown_file.
    unfold load_page at 1.
    destruct (process_markdown_file_try yaml_safe_load render_markdown fs cfg f content_dir)
      as [pg|].
    + rewrite IH. reflexivity.
    + rewrite IH. cbn [print printed map]. rewrite <- app_assoc. reflexivity.
Qed.

Lemma loaded_failing_length load files :
  List.length (loaded load files) + List.length (failing load files)
  = List.length files.
Proof.
  induction files as [|f files IH]; [reflexivity|].
  cbn [loaded failing filter]. fold (failing load files).
  destruct (load f); cbn [List.length]; lia.
Qed.

Lemma processing_errors_app a b :
  processing_errors (a ++ b) = processing_errors a ++ processing_errors b.
Proof. unfold processing_errors. apply flat_map_app. Qed.

Lemma processing_errors_map files :
  processing_errors (map MsgErrorProcessing files) = files.
Proof.
  induction files as [|f files IH]; [reflexivity|].
  cbn [map]. change (f :: processing_errors (map MsgErrorProcessing files) = f :: files).
  rewrite IH. reflexivity.
Qed.

(** X15: a scan of an existing directory prints one [Error processing]
    line for each kept file that fails to load, in the order of the file
    paths, and no other such line; every kept file gives either a page
    or such a line. *)
Theorem scan_directory_reports (fs : filesystem) (content_dir : path) (st : state) :
  dir_exists fs content_dir = true ->
  exists pages st',
    scan_directory yaml_safe_load render_markdown fs cfg content_dir st
    = Some (pages, st') /\
    processing_errors (printed st')
    = processing_errors (printed st)
      ++ failing (load_page yaml_safe_load render_markdown fs cfg content_dir)
           (scan_files fs cfg content_dir) /\
    List.length pages
    + List.length (failing (load_page yaml_safe_load render_markdown fs cfg content_dir)
                     (scan_files fs cfg content_dir))
    = List.length (scan_files fs cfg content_dir).
Proof.
  intros Hd. rewrite scan_directory_files, Hd.
  eexists. eexists. split; [apply f_equal; apply surjective_pairing|].
  split.
  - rewrite process_md_files_printed, processing_errors_app, processing_errors_map.
    reflexivity.
  - rewrite process_md_files_pages. cbn [app]. apply loaded_failing_length.
Qed.

Lemma bucket_dset_same cats k b : bucket (dset cats k b) k = b.
Proof. unfold bucket. rewrite dget_dset_same. reflexivity. Qed.

Lemma bucket_dset_other cats k k0 b :
  k0 <> k -> bucket (dset cats k b) k0 = bucket cats k0.
Proof. intros H. unfold bucket. rewrite dget_dset_other by exact H. reflexivity. Qed.

Lemma process_md_files_buckets fs content_dir files k : forall pages st,
  bucket (categories (snd (process_md_files yaml_safe_load render_markdown fs cfg
                             content_dir files pages st))) k
  = bucket (categories st) k
    ++ filter (fun pg => str_eqb (level1_of pg) k)
         (loaded (load_page yaml_safe_load render_markdown fs cfg content_dir) files).
Proof.
  induction files as [|f files IH]; intros pages st.
  - cbn. rewrite app_nil_r. reflexivity.
  - cbn [process_md_files loaded]. unfold process_markdown_file.
    unfold load_page at 1.
    destruct (process_markdown_file_try yaml_safe_load render_markdown fs cfg f content_dir)
      as [pg|]; [|rewrite IH; reflexivity].
    rewrite IH. cbn [categories filter]. fold (level1_of pg).
    set (cats := categories st).
    set (cats1 := if din cats (level1_of pg) then cats
                  else dset cats (level1_of pg) []).
    assert (E1 : forall k0, bucket cats1 k0 = bucket cats k0).
    { intros k0. unfold cats1, din.
      destruct (dget cats (level1_of pg)) as [b|] eqn:Eg; [reflexivity|].
      destruct (str_eqb k0 (level1_of pg)) eqn:Ek.
      - apply str_eqb_eq in Ek. subst k0. rewrite bucket_dset_same.
        unfold bucket. rewrite Eg. reflexivity.
      - apply str_eqb_neq in Ek. apply bucket_dset_other. exact Ek. }
    fold (bucket cats1 (level1_of pg)).
    destruct (str_eqb (level1_of pg) k) eqn:Ek.
    + apply str_eqb_eq in Ek. subst k. rewrite bucket_dset_same, E1.
      rewrite <- app_assoc. reflexivity.
    + apply str_eqb_neq in Ek. rewrite bucket_dset_other by congruence.
      rewrite E1. reflexivity.
Qed.

(** X16: the category index after a scan: under every key, the pages
    that were there before, followed by the pages of the scan whose first
    raw level is that key (the key General for pages at the root), in the
    order of the scan. *)
Theorem scan_directory_categories (fs : filesystem) (content_dir : path)
  (st st' : state) (pages : list page) (k : str) :
  scan_directory yaml_safe_load render_markdown fs cfg content_dir st
  = Some (pages, st') ->
  bucket (categories st') k
  = bucket (categories st) k ++ filter (fun pg => str_eqb (level1_of pg) k) pages.
Proof.
  rewrite scan_directory_files. destruct (dir_exists fs content_dir); intros H.
  - inversion H as [E].
    pose proof (process_md_files_buckets fs content_dir
                  (scan_files fs cfg content_dir) k [] st) as B.
    pose proof (process_md_files_pages yaml_safe_load render_markdown fs cfg
                  content_dir (scan_files fs cfg content_dir) [] st) as P.
    rewrite E in B, P. cbn [fst snd app] in B, P. rewrite B, P. reflexivity.
  - inversion H; subst. cbn. rewrite app_nil_r. reflexivity.
Qed.

End ScannerOrder.

Lemma scan_directory_walk_order_witness :
  scan_directory no_yaml plain_markdown fs_two_files default_config docs
    (scan_start docs)
  = scan_directory no_yaml plain_markdown fs_two_files_rev default_config docs
      (scan_start docs).
Proof.
  apply scan_directory_walk_order;
    [reflexivity | intros p; reflexivity | apply perm_swap].
Defined.

Lemma scan_directory_sorted_witness :
  exists pages st',
    scan_directory no_yaml plain_markdown fs_two_files_rev default_config docs
      (mkState [] []) = Some (pages, st') /\
    ascending path_leb (map file_path pages).
Proof.
  destruct (scan_directory no_yaml plain_markdown fs_two_files_rev default_config
              docs (mkState [] [])) as [[pages st']|] eqn:E;
    [|vm_compute in E; discriminate].
  exists pages, st'. split; [reflexivity|].
  exact (scan_directory_sorted no_yaml plain_markdown default_config
           fs_two_files_rev docs (mkState [] []) st' pages E).
Defined.

Lemma scan_directory_distinct_files_witness :
  exists pages st',
    scan_directory no_yaml plain_markdown fs_two_files default_config docs
      (mkState [] []) = Some (pages, st') /\
    NoDup (map file_path pages).
Proof.
  destruct (scan_directory no_yaml plain_markdown fs_two_files default_config
              docs (mkState [] [])) as [[pages st']|] eqn:E;
    [|vm_compute in E; discriminate].
  exists pages, st'. split; [reflexivity|].
  refine (scan_directory_distinct_files no_yaml plain_markdown default_config
            fs_two_files docs (mkState [] []) st' pages _ E).
  cbn. constructor; [|constructor; [intros []|constructor]].
  intros [H | []]. discriminate.
Defined.

Lemma scan_directory_reports_witness :
  exists pages st',
    scan_directory no_yaml plain_markdown fs_mixed default_config docs
      (mkState [] []) = Some (pages, st') /\
    processing_errors (printed st') = [docs ++ [s "b.md"]] /\
    List.length pages = 1.
Proof.
  destruct (scan_directory_reports no_yaml plain_markdown default_config fs_mixed
              docs (mkState [] []) eq_refl) as (pages & st' & E & P & L).
  exists pages, st'. split; [exact E|]. split.
  - rewrite P. vm_compute. reflexivity.
  - assert (F : List.length
                   (failing (load_page no_yaml plain_markdown fs_mixed default_config docs)
                      (scan_files fs_mixed default_config docs)) = 1)
      by (vm_compute; reflexivity).
    assert (S : List.length (scan_files fs_mixed default_config docs) = 2)
      by (vm_compute; reflexivity).
    rewrite F, S in L. lia.
Defined.

Lemma scan_directory_categories_witness :
  exists pages st',
    scan_directory no_yaml plain_markdown fs_two_files default_config docs
      (mkState [] []) = Some (pages, st') /\
    bucket (categories st') (s "a")
    = filter (fun pg => str_eqb (level1_of pg) (s "a")) pages.
Proof.
  destruct (scan_directory no_yaml plain_markdown fs_two_files default_config
              docs (mkState [] [])) as [[pages st']|] eqn:E;
    [|vm_compute in E; discriminate].
  exists pages, st'. split; [reflexivity|].
  exact (scan_directory_categories no_yaml plain_markdown default_config
           fs_two_files docs (mkState [] []) st' pages (s "a") E).
Defined.

(** ** The pages of a scan: depth and url *)

Lemma removelast_length {A} (l : list A) :
  List.length (removelast l) = List.length l - 1.
Proof.
  induction l as [|x l IH]; [reflexivity|].
  destruct l as [|y l]; [reflexivity|].
  change (removelast (x :: y :: l)) with (x :: removelast (y :: l)).
  cbn [List.length] in *. lia.
Qed.

Lemma removelast_In {A} (l : list A) x : In x (removelast l) -> In x l.
Proof.
  induction l as [|y l IH]; [intros []|].
  destruct l as [|z l]; [intros []|].
  change (removelast (y :: z :: l)) with (y :: removelast (z :: l)).
  intros [H | H]; [left; exact H | right; apply IH; exact H].
Qed.

Lemma last_In {A} (l : list A) d : l <> [] -> In (last l d) l.
Proof.
  induction l as [|y l IH]; [congruence|]. intros _.
  destruct l as [|z l]; [left; reflexivity|].
  right. apply IH. discriminate.
Qed.

Lemma join_snoc sep l x :
  l <> [] -> join sep (l ++ [x]) = join sep l ++ sep ++ x.
Proof.
  induction l as [|y l IH]; [congruence|]. intros _.
  destruct l as [|z l]; [reflexivity|].
  change (join sep ((y :: z :: l) ++ [x]))
    with (y ++ sep ++ join sep ((z :: l) ++ [x])).
  rewrite IH by discriminate.
  change (join sep (y :: z :: l)) with (y ++ sep ++ join sep (z :: l)).
  rewrite <- !app_assoc. reflexivity.
Qed.

(** The slashes of a text once its backslashes are turned into slashes. *)
Lemma slashes_app a b :
  count_char "/"%char (replace "\"%char (s "/") (a ++ b))
  = count_char "/"%char (replace "\"%char (s "/") a)
    + count_char "/"%char (replace "\"%char (s "/") b).
Proof.
  unfold count_char. rewrite replace_app, filter_app, length_app. reflexivity.
Qed.

Lemma slashes_plain p :
  plain_part p = true ->
  count_char "/"%char (replace "\"%char (s "/") p) = 0.
Proof.
  induction p as [|c p IH]; [reflexivity|]. intros H.
  cbn [plain_part forallb] in H. apply andb_prop in H. destruct H as [Hc Hp].
  change (c :: p) with ([c] ++ p). rewrite slashes_app, (IH Hp), Nat.add_0_r.
  revert Hc. clear. each_ascii c; discriminate.
Qed.

Lemma slashes_join parts :
  Forall (fun p => plain_part p = true) parts ->
  count_char "/"%char (replace "\"%char (s "/") (join (s "/") parts))
  = List.length parts - 1.
Proof.
  induction 1 as [|p parts Hp Hps IH]; [reflexivity|].
  destruct parts as [|q parts].
  - cbn [join List.length]. rewrite (slashes_plain _ Hp). reflexivity.
  - change (join (s "/") (p :: q :: parts))
      with (p ++ s "/" ++ join (s "/") (q :: parts)).
    rewrite !slashes_app, IH, (slashes_plain _ Hp).
    cbn [List.length]. change (count_char "/"%char (replace "\"%char (s "/") (s "/")))
      with 1. lia.
Qed.

Lemma plain_part_app a b : plain_part (a ++ b) = plain_part a && plain_part b.
Proof. unfold plain_part. apply forallb_app. Qed.

Lemma plain_part_firstn n p : plain_part p = true -> plain_part (firstn n p) = true.
Proof.
  revert n. induction p as [|c p IH]; intros [|n] H; try reflexivity.
  cbn [firstn plain_part forallb] in *. apply andb_prop in H. destruct H as [Hc Hp].
  rewrite Hc. exact (IH n Hp).
Qed.

Lemma plain_part_name_stem p : plain_part p = true -> plain_part (name_stem p) = true.
Proof.
  intros H. unfold name_stem. destruct (suffix_index p); [|exact H].
  apply plain_part_firstn. exact H.
Qed.

Section ScannerPages.

Variable yaml_safe_load : str -> option yaml_doc.
Variable render_markdown : str -> option str.
Variable fs : filesystem.
Variable cfg : config.

Lemma load_fields content_dir f pg :
  load_page yaml_safe_load render_markdown fs cfg content_dir f = Some pg ->
  exists rel,
    relative_to f content_dir = Some rel /\
    relative_path pg = rel /\
    levels_raw pg = removelast rel /\
    depth pg = List.length (removelast rel) /\
    url pg = replace "\"%char (s "/") (path_str (with_suffix rel (s ".html"))).
Proof.
  unfold load_page, process_markdown_file_try. intros H.
  destruct (read_text fs f); [|discriminate].
  destruct (parse_frontmatter yaml_safe_load _) as [[d|] body]; [|discriminate].
  destruct (get_page_hierarchy cfg f content_dir) as [[[[lr lv] cat] dp]|] eqn:Eh;
    [|discriminate].
  destruct (render_markdown body); [|discriminate].
  destruct (generate_page_id f content_dir); [|discriminate].
  destruct (generate_page_url f content_dir) as [u|] eqn:Eu; [|discriminate].
  destruct (relative_to f content_dir) as [rel|] eqn:Er; [|discriminate].
  inversion H; subst; clear H. exists rel. cbn.
  unfold get_page_hierarchy in Eh. rewrite Er in Eh. inversion Eh; subst.
  unfold generate_page_url in Eu. rewrite Er in Eu. inversion Eu; subst.
  rewrite length_map. repeat split.
Qed.

Lemma scan_directory_page content_dir st pages st' pg :
  scan_directory yaml_safe_load render_markdown fs cfg content_dir st
  = Some (pages, st') ->
  In pg pages ->
  exists rel,
    In rel (rglob_md fs content_dir) /\
    kept content_dir (excluded_set cfg) rel = true /\
    load_page yaml_safe_load render_markdown fs cfg content_dir (content_dir ++ rel)
    = Some pg.
Proof.
  intros H Hpg.
  destruct (scan_directory_loaded yaml_safe_load render_markdown cfg fs _ _ _ _ H)
    as [-> | ->]; [destruct Hpg|].
  apply loaded_In in Hpg. destruct Hpg as (f & Hf & Hl).
  unfold scan_files in Hf. apply sorted_In in Hf. apply in_map_iff in Hf.
  destruct Hf as (rel & <- & Hin). apply filter_In in Hin. destruct Hin as [Hin Hk].
  exists rel. auto.
Qed.

(** X17: for every page of a scan, the depth that [generate_page]
    computes from the relative path, and uses for its [../] prefixes and
    for the navigation, is the depth recorded in the page, the number of
    its folder levels.  The walk yields files below the content
    directory, never the directory itself. *)
Theorem generate_page_depth_levels (content_dir : path) (st st' : state)
  (pages : list page) (pg : page) :
  (forall rel, In rel (rglob_md fs content_dir) -> rel <> []) ->
  scan_directory yaml_safe_load render_markdown fs cfg content_dir st
  = Some (pages, st') ->
  In pg pages ->
  generate_page_depth pg = Z.of_nat (depth pg) /\
  depth pg = List.length (levels pg).
Proof.
  intros Hne H Hpg.
  destruct (scan_directory_page _ _ _ _ _ H Hpg) as (rel & Hin & _ & Hl).
  destruct (load_fields _ _ _ Hl) as (rel' & Er & Ep & _ & Ed & _).
  rewrite relative_to_app in Er. injection Er as <-.
  destruct (load_levels yaml_safe_load render_markdown fs cfg _ _ _ Hl) as (_ & L1 & L2).
  split; [|congruence].
  unfold generate_page_depth. rewrite Ep, Ed, removelast_length.
  specialize (Hne rel Hin). destruct rel as [|x rel]; [congruence|].
  cbn [List.length]. lia.
Qed.

(** X18: the url of a page of a scan ends with [.html] and, when no
    name below the content directory holds a slash or a backslash, it has
    as many slashes as the page has folder levels: the page is written
    [depth] directories below the output directory, which is what the
    [../] prefixes of its links undo. *)
Theorem generate_page_url_depth (content_dir : path) (st st' : state)
  (pages : list page) (pg : page) :
  (forall rel, In rel (rglob_md fs content_dir) ->
     rel <> [] /\ Forall (fun p => plain_part p = true) rel) ->
  scan_directory yaml_safe_load render_markdown fs cfg content_dir st
  = Some (pages, st') ->
  In pg pages ->
  count_char "/"%char (url pg) = depth pg /\
  exists t, url pg = t ++ s ".html".
Proof.
  intros Hok H Hpg.
  destruct (scan_directory_page _ _ _ _ _ H Hpg) as (rel & Hin & _ & Hl).
  destruct (load_fields _ _ _ Hl) as (rel' & Er & _ & _ & Ed & Eu).
  rewrite relative_to_app in Er. injection Er as <-.
  destruct (Hok rel Hin) as [Hne Hpl]. rewrite Forall_forall in Hpl.
  rewrite Eu, Ed. unfold path_str, with_suffix. split.
  - rewrite slashes_join.
    + rewrite length_app. cbn [List.length]. lia.
    + apply Forall_app. split.
      * apply Forall_forall. intros p Hp. apply Hpl. apply removelast_In. exact Hp.
      * constructor; [|constructor]. rewrite plain_part_app.
        rewrite plain_part_name_stem; [reflexivity|].
        apply Hpl. unfold path_name. apply last_In. exact Hne.
  - destruct (removelast rel) as [|x l] eqn:El.
    + cbn [app join]. rewrite replace_app.
      eexists. reflexivity.
    + rewrite join_snoc by discriminate.
      rewrite !app_assoc, replace_app. eexists. reflexivity.
Qed.

End ScannerPages.

Lemma generate_page_depth_levels_witness :
  exists pages st',
    scan_directory no_yaml plain_markdown fs_two_files default_config docs
      (mkState [] []) = Some (pages, st') /\
    forall pg, In pg pages ->
      generate_page_depth pg = Z.of_nat (depth pg) /\
      depth pg = List.length (levels pg).
Proof.
  destruct (scan_directory no_yaml plain_markdown fs_two_files default_config
              docs (mkState [] [])) as [[pages st']|] eqn:E;
    [|vm_compute in E; discriminate].
  exists pages, st'. split; [reflexivity|]. intros pg Hpg.
  refine (generate_page_depth_levels no_yaml plain_markdown fs_two_files
            default_config docs (mkState [] []) st' pages pg _ E Hpg).
  intros rel [<- | [<- | []]]; discriminate.
Defined.

Lemma generate_page_url_depth_witness :
  exists pages st',
    scan_directory no_yaml plain_markdown fs_two_files default_config docs
      (mkState [] []) = Some (pages, st') /\
    forall pg, In pg pages ->
      count_char "/"%char (url pg) = depth pg /\
      exists t, url pg = t ++ s ".html".
Proof.
  destruct (scan_directory no_yaml plain_markdown fs_two_files default_config
              docs (mkState [] [])) as [[pages st']|] eqn:E;
    [|vm_compute in E; discriminate].
  exists pages, st'. split; [reflexivity|]. intros pg Hpg.
  refine (generate_page_url_depth no_yaml plain_markdown fs_two_files
            default_config docs (mkState [] []) st' pages pg _ E Hpg).
  intros rel [<- | [<- | []]]; (split; [discriminate|]);
    repeat constructor.
Defined.

(** ** The category tree holds every page once *)

Lemma pages_in_dset_new d k v :
  dget d k = None ->
  pages_in (VDict (dset d k v)) = pages_in (VDict d) ++ pages_in v.
Proof.
  rewrite !pages_in_dict. induction d as [|[k' v'] d IH]; cbn [dget dset flat_map snd].
  - intros _. rewrite app_nil_r. reflexivity.
  - destruct (str_eqb k k'); [discriminate|]. intros H.
    cbn [flat_map snd]. rewrite (IH H), app_assoc. reflexivity.
Qed.

Lemma pages_in_dset_perm d k v x extra :
  dget d k = Some x ->
  Permutation (pages_in v) (extra ++ pages_in x) ->
  Permutation (pages_in (VDict (dset d k v))) (extra ++ pages_in (VDict d)).
Proof.
  rewrite !pages_in_dict. induction d as [|[k' v'] d IH]; cbn [dget dset flat_map snd];
    [discriminate|].
  destruct (str_eqb k k'); intros H Hp; cbn [flat_map snd].
  - injection H as ->. rewrite app_assoc. apply Permutation_app_tail. exact Hp.
  - eapply perm_trans; [apply Permutation_app_head; apply (IH H Hp)|].
    rewrite !app_assoc. apply Permutation_app_tail. apply Permutation_app_comm.
Qed.

Lemma pages_in_update d k f x extra :
  update d k f = Some x ->
  (forall o y, f o = Some y ->
     Permutation (pages_in y)
       (extra ++ match o with Some c => pages_in c | None => [] end)) ->
  Permutation (pages_in x) (extra ++ pages_in (VDict d)).
Proof.
  unfold update. intros H Hf.
  destruct (f (dget d k)) as [y|] eqn:E; [|discriminate].
  injection H as <-. specialize (Hf _ _ E).
  destruct (dget d k) as [c|] eqn:Ec.
  - eapply pages_in_dset_perm; eassumption.
  - rewrite (pages_in_dset_new _ _ _ Ec). rewrite app_nil_r in Hf.
    eapply perm_trans; [apply Permutation_app_head; exact Hf|].
    apply Permutation_app_comm.
Qed.

Lemma walk_levels_pages pg rest : forall i v v',
  walk_levels v rest i pg = Some v' ->
  Permutation (pages_in v') ([pg] ++ pages_in v).
Proof.
  induction rest as [|r rest IH]; intros i v v' H;
    (destruct v as [t|ps|d];
     try (rewrite walk_levels_not_dict in H by discriminate; discriminate)).
  - rewrite walk_levels_leaf in H. eapply pages_in_update; [exact H|].
    intros o y Hy. unfold append_leaf in Hy.
    destruct o as [[t|ps|d0]|]; try discriminate. injection Hy as <-.
    cbn [pages_in]. apply Permutation_app_comm.
  - rewrite walk_levels_step in H. eapply pages_in_update; [exact H|].
    intros o y Hy. unfold step_child in Hy. destruct o as [c|].
    + exact (IH _ _ _ Hy).
    + destruct (nth_error (levels pg) i) as [display|]; [|discriminate].
      exact (IH _ _ _ Hy).
Qed.

Lemma add_page_pages v pg v' :
  add_page v pg = Some v' -> Permutation (pages_in v') ([pg] ++ pages_in v).
Proof.
  intros H. destruct (levels_raw pg) as [|r rest] eqn:E.
  - destruct v as [t|ps|d];
      try (rewrite add_page_not_dict in H by discriminate; discriminate).
    rewrite add_page_root in H by exact E. eapply pages_in_update; [exact H|].
    intros o y Hy. unfold append_root in Hy.
    destruct o as [[t|ps|d0]|]; try discriminate; injection Hy as <-; cbn [pages_in].
    + apply Permutation_app_comm.
    + apply Permutation_refl.
  - rewrite (add_page_walk _ _ _ _ E) in H. eapply walk_levels_pages. exact H.
Qed.

Lemma add_pages_pages pages : forall v t,
  add_pages v pages = Some t -> Permutation (pages_in t) (pages_in v ++ pages).
Proof.
  induction pages as [|pg pages IH]; intros v t H.
  - injection H as <-. rewrite app_nil_r. apply Permutation_refl.
  - cbn [add_pages] in H. destruct (add_page v pg) as [v1|] eqn:E1; [|discriminate].
    eapply perm_trans; [apply (IH _ _ H)|].
    eapply perm_trans;
      [apply Permutation_app_tail; apply (add_page_pages _ _ _ E1)|].
    cbn [app]. apply Permutation_middle.
Qed.

(** X19: the tree that [build_tree] returns holds every page of the list
    exactly once (as often as the list does) and no other page, and each
    page lies in the page list of the node reached by its raw levels. *)
Theorem build_tree_pages (pages : list page) (t : pyval) :
  build_tree pages = Some t ->
  Permutation (pages_in t) pages /\
  forall pg, In pg pages -> located t (levels_raw pg) pg.
Proof.
  intros H. split.
  - exact (add_pages_pages _ _ _ H).
  - apply (add_pages_located _ _ _ H).
Qed.

Lemma build_tree_pages_witness :
  exists t, build_tree sample_pages = Some t /\
    Permutation (pages_in t) sample_pages /\
    located t [s "01-guides"; s "setup"] page_linux.
Proof.
  destruct (build_tree sample_pages) as [t|] eqn:E; [|vm_compute in E; discriminate].
  exists t. split; [reflexivity|].
  destruct (build_tree_pages sample_pages t E) as [P L].
  split; [exact P|]. apply (L page_linux). right. left. reflexivity.
Defined.

(** ** The sitemap and the canonical link *)

Lemma lstrip_chars_id chars t :
  match t with [] => True | c :: _ => in_chars chars c = false end ->
  lstrip_chars chars t = t.
Proof.
  unfold lstrip_chars. destruct t as [|c t]; [reflexivity|].
  intros H. cbn [dropwhile]. rewrite H. reflexivity.
Qed.

(** X20: the sitemap lists every page under the address that the page
    itself declares as its canonical link, when the url of the page is
    not empty and does not begin with a slash (as the urls of scanned
    pages are, built from relative paths). *)
Theorem sitemap_canonical (st : site) (all_pages : list page) (pg : page) :
  In pg all_pages ->
  url pg <> [] ->
  startswith (url pg) (s "/") = false ->
  In (generate_canonical_url st (url pg)) (sitemap_locs st all_pages).
Proof.
  intros Hin Hne Hs. unfold sitemap_locs, generate_canonical_url.
  apply in_or_app. right. apply in_or_app. right.
  apply in_map_iff. exists pg. split; [|exact Hin].
  destruct (url pg) as [|c u]; [congruence|].
  rewrite lstrip_chars_id; [reflexivity|].
  change (ch_eqb c "/"%char && startswith u [] = false) in Hs.
  assert (Hu : startswith u [] = true) by (destruct u; reflexivity).
  rewrite Hu, andb_true_r in Hs.
  change (ch_eqb c "/"%char || false = false).
  rewrite Hs. reflexivity.
Qed.

Lemma sitemap_canonical_witness :
  let st := mkSite (s "Docs") (s "Notes") (s "https://example.org/") None None None None in
  In (s "https://example.org/01-guides/setup/linux.html")
     (sitemap_locs st sample_pages).
Proof.
  intros st.
  apply (sitemap_canonical st sample_pages page_linux).
  - right. left. reflexivity.
  - discriminate.
  - reflexivity.
Defined.

(** ** The navigation closes what it opens *)

Lemma open_after_app a b stack stack' :
  open_after a stack = Some stack' ->
  open_after (a ++ b) stack = open_after b stack'.
Proof.
  revert stack. induction a as [|pt a IH]; intros stack H.
  - injection H as <-. reflexivity.
  - cbn [app open_after] in *.
    destruct pt; try (apply IH; exact H);
      match type of H with
      | match close_element ?e ?st with _ => _ end = _ =>
          destruct (close_element e st); [apply IH; exact H | discriminate]
      end.
Qed.

Lemma neutral_app a b : neutral a -> neutral b -> neutral (a ++ b).
Proof. intros Ha Hb stack. rewrite (open_after_app _ _ _ _ (Ha stack)). apply Hb. Qed.

Lemma neutral_subcategory fid disp inner others :
  neutral inner -> neutral others ->
  neutral (SubcategoryOpen fid disp :: inner ++ SubcategoryClose :: others).
Proof.
  intros Hi Ho stack. cbn [open_after].
  rewrite (open_after_app _ _ _ _ (Hi _)). cbn [open_after close_element element_eqb].
  apply Ho.
Qed.

Lemma neutral_deep n fid disp inner others :
  neutral inner -> neutral others ->
  neutral (DeepOpen n fid disp :: inner ++ DeepClose :: others).
Proof.
  intros Hi Ho stack. cbn [open_after].
  rewrite (open_after_app _ _ _ _ (Hi _)). cbn [open_after close_element element_eqb].
  apply Ho.
Qed.

Lemma neutral_category cid icon_class disp inner others :
  neutral inner -> neutral others ->
  neutral (CategoryOpen cid icon_class disp :: inner ++ CategoryClose :: others).
Proof.
  intros Hi Ho stack. cbn [open_after].
  rewrite (open_after_app _ _ _ _ (Hi _)). cbn [open_after close_element element_eqb].
  apply Ho.
Qed.

Section NavigationBalanced.

Variable cfg : config.

Lemma render_pages_neutral level_depth url_prefix pages :
  neutral (render_pages cfg level_depth url_prefix pages).
Proof.
  induction pages as [|pg pages IH]; intros stack; [reflexivity|].
  cbn [render_pages map open_after]. apply IH.
Qed.

Lemma render_root_pages_neutral url_prefix pages :
  neutral (render_root_pages cfg url_prefix pages).
Proof.
  induction pages as [|pg pages IH]; intros stack; [reflexivity|].
  cbn [render_root_pages map open_after]. apply IH.
Qed.

Lemma render_folders_neutral level_depth parent_id folders :
  Forall (fun f : str * (pyval * (str -> option (list part))) =>
            forall fid parts, snd (snd f) fid = Some parts -> neutral parts) folders ->
  forall parts,
    render_folders level_depth parent_id folders = Some parts -> neutral parts.
Proof.
  induction 1 as [|[k [v rc]] folders Hf Hfs IH]; intros parts H.
  - injection H as <-. intros stack. reflexivity.
  - cbn [render_folders] in H.
    destruct (folder_display_of v k) as [disp|]; [|discriminate].
    destruct (rc (parent_id ++ s "-" ++ slug k)) as [inner|] eqn:Ei; [|discriminate].
    destruct (render_folders level_depth parent_id folders) as [others|];
      [|discriminate].
    specialize (IH others eq_refl). specialize (Hf _ _ Ei).
    destruct (level_depth =? 1); injection H as <-;
      [apply neutral_subcategory | apply neutral_deep]; assumption.
Qed.

Lemma render_sublevel_neutral url_prefix v :
  forall parent_id level_depth parts,
    render_sublevel cfg v parent_id level_depth url_prefix = Some parts ->
    neutral parts.
Proof.
  induction v as [t|ps|d IH] using pyval_ind'; intros parent_id level_depth parts H;
    try discriminate.
  rewrite render_sublevel_dict in H.
  destruct (sorted_pages (dget d K_PAGES)) as [pages|] eqn:Ep; [|discriminate].
  destruct (render_folders _ _ _) as [folder_parts|] eqn:Ef; [|discriminate].
  injection H as <-. apply neutral_app; [|apply render_pages_neutral].
  eapply render_folders_neutral; [|exact Ef].
  apply subfolders_of_Forall. apply Forall_forall.
  intros f Hf. apply in_map_iff in Hf. destruct Hf as ([k x] & <- & Hkx).
  cbn [fst snd]. intros fid parts Hr.
  rewrite Forall_forall in IH. exact (IH _ Hkx _ _ _ Hr).
Qed.

Lemma render_categories_neutral url_prefix cats : forall parts,
  render_categories cfg url_prefix cats = Some parts -> neutral parts.
Proof.
  induction cats as [|[k v] cats IH]; intros parts H.
  - injection H as <-. intros stack. reflexivity.
  - cbn [render_categories] in H.
    destruct (folder_display_of v k) as [disp|]; [|discriminate].
    destruct (render_sublevel cfg v (slug k) 1 url_prefix) as [inner|] eqn:Ei;
      [|discriminate].
    destruct (render_categories cfg url_prefix cats) as [others|]; [|discriminate].
    injection H as <-. apply neutral_category.
    + eapply render_sublevel_neutral. exact Ei.
    + apply IH. reflexivity.
Qed.

(** X21: whenever the navigation is rendered, each category,
    subcategory and deeper level that it opens is closed again, by a
    closing piece of its own kind and in the reverse order of opening;
    nothing is closed that was not opened, and nothing is left open at
    the end. *)
Theorem navigation_balanced (all_pages : list page) (depth : Z)
  (parts : list part) :
  navigation_parts cfg all_pages depth = Some parts ->
  open_after parts [] = Some [].
Proof.
  unfold navigation_parts.
  destruct (build_tree all_pages) as [[t|ps|tree]|]; try discriminate.
  destruct (sorted_pages (dget tree K_PAGES)) as [root_pages|]; [|discriminate].
  destruct (render_categories _ _ _) as [cat_parts|] eqn:Ec; [|discriminate].
  intros H. injection H as <-.
  apply neutral_app; [|apply render_root_pages_neutral].
  eapply render_categories_neutral. exact Ec.
Qed.

End NavigationBalanced.

Lemma navigation_balanced_witness :
  exists parts,
    navigation_parts default_config sample_pages 1 = Some parts /\
    open_after parts [] = Some [].
Proof.
  destruct (navigation_parts default_config sample_pages 1) as [parts|] eqn:E;
    [|vm_compute in E; discriminate].
  exists parts. split; [reflexivity|].
  exact (navigation_balanced default_config sample_pages 1 parts E).
Defined.

(** ** Urls and ids that tell the files apart *)

Lemma free_of_In c p : free_of c p = true -> ~ In c p.
Proof.
  unfold free_of. rewrite forallb_forall. intros H Hin.
  specialize (H c Hin). rewrite ch_eqb_refl in H. discriminate.
Qed.

Lemma free_of_app c a b : free_of c (a ++ b) = free_of c a && free_of c b.
Proof. unfold free_of. apply forallb_app. Qed.

Lemma free_of_firstn c n p : free_of c p = true -> free_of c (firstn n p) = true.
Proof.
  revert n. induction p as [|x p IH]; intros [|n] H; try reflexivity.
  cbn [firstn free_of forallb] in *. apply andb_prop in H. destruct H as [Hx Hp].
  rewrite Hx. exact (IH n Hp).
Qed.

Lemma plain_part_free p :
  plain_part p = true -> free_of "/"%char p = true /\ free_of "\"%char p = true.
Proof.
  induction p as [|x p IH]; [split; reflexivity|]. intros H.
  cbn [plain_part forallb] in H. apply andb_prop in H. destruct H as [Hx Hp].
  apply andb_prop in Hx. destruct Hx as [H1 H2]. destruct (IH Hp) as [I1 I2].
  cbn [free_of forallb]. fold (free_of "/"%char p) (free_of "\"%char p).
  rewrite H1, H2, I1, I2. split; reflexivity.
Qed.

Lemma free_of_sep_inj c p : forall p' r r',
  free_of c p = true -> free_of c p' = true ->
  p ++ c :: r = p' ++ c :: r' -> p = p' /\ r = r'.
Proof.
  induction p as [|x p IH]; intros [|y p'] r r' Hp Hp' E; cbn [app] in E.
  - injection E as ->. auto.
  - injection E as <- _. cbn [free_of forallb] in Hp'.
    rewrite ch_eqb_refl in Hp'. discriminate.
  - injection E as -> _. cbn [free_of forallb] in Hp.
    rewrite ch_eqb_refl in Hp. discriminate.
  - injection E as -> E. cbn [free_of forallb] in Hp, Hp'.
    apply andb_prop in Hp, Hp'.
    destruct (IH p' r r' (proj2 Hp) (proj2 Hp') E) as [-> ->]. auto.
Qed.

Lemma join_cons2 sep p q ps :
  join sep (p :: q :: ps) = p ++ sep ++ join sep (q :: ps).
Proof. reflexivity. Qed.

(** Joining names that do not hold the separator loses nothing. *)
Lemma join_inj c l : forall l',
  l <> [] -> l' <> [] ->
  Forall (fun p => free_of c p = true) l ->
  Forall (fun p => free_of c p = true) l' ->
  join [c] l = join [c] l' -> l = l'.
Proof.
  induction l as [|p l IH]; intros [|p' l'] Hl Hl' Hf Hf' E; try congruence.
  inversion Hf as [|? ? Hp Hfl]; subst. inversion Hf' as [|? ? Hp' Hfl']; subst.
  destruct l as [|q l], l' as [|q' l'].
  - cbn [join] in E. congruence.
  - rewrite join_cons2 in E. cbn [join app] in E. exfalso.
    apply (free_of_In _ _ Hp). rewrite E. apply in_or_app. right. left. reflexivity.
  - rewrite join_cons2 in E. cbn [join app] in E. exfalso.
    apply (free_of_In _ _ Hp'). rewrite <- E. apply in_or_app. right. left. reflexivity.
  - rewrite !join_cons2 in E. cbn [app] in E.
    destruct (free_of_sep_inj _ _ _ _ _ Hp Hp' E) as [-> E'].
    f_equal. apply IH; try assumption; discriminate.
Qed.

Lemma replace_free c new p : free_of c p = true -> replace c new p = p.
Proof. apply replace_absent. Qed.


Lemma free_of_join c d l :
  ch_eqb d c = false ->
  Forall (fun p => free_of c p = true) l ->
  free_of c (join [d] l) = true.
Proof.
  intros Hd. induction 1 as [|p l Hp Hl IH]; [reflexivity|].
  destruct l as [|q l]; [exact Hp|].
  rewrite join_cons2, !free_of_app, Hp, IH.
  cbn [free_of forallb]. rewrite Hd. reflexivity.
Qed.

Lemma rfind_free c t : free_of c t = true -> rfind c t = None.
Proof.
  induction t as [|x t IH]; [reflexivity|]. cbn [free_of forallb rfind].
  intros H. apply andb_prop in H. destruct H as [Hx Ht].
  rewrite (IH Ht). apply negb_true_iff in Hx. rewrite Hx. reflexivity.
Qed.

Lemma rfind_last c x : forall t,
  free_of c t = true -> rfind c (x ++ c :: t) = Some (List.length x).
Proof.
  intros t Ht. induction x as [|a x IH].
  - cbn [app rfind List.length]. rewrite (rfind_free _ _ Ht), ch_eqb_refl. reflexivity.
  - cbn [app rfind List.length]. rewrite IH. reflexivity.
Qed.

Lemma last_app_nonempty {A} (a b : list A) d : b <> [] -> last (a ++ b) d = last b d.
Proof.
  intros Hb. induction a as [|x a IH]; [reflexivity|].
  cbn [app]. destruct (a ++ b) eqn:E.
  - apply app_eq_nil in E. destruct E. congruence.
  - exact IH.
Qed.

Lemma name_stem_md x : x <> [] -> name_stem (x ++ s ".md") = x.
Proof.
  intros Hx. unfold name_stem, suffix_index.
  change (x ++ s ".md") with (x ++ "."%char :: s "md").
  rewrite rfind_last by reflexivity.
  rewrite length_app. cbn [List.length s list_ascii_of_string].
  assert (E : (0 <? List.length x) && (List.length x <? List.length x + 3 - 1) = true).
  { apply andb_true_intro. split; apply Nat.ltb_lt; [|lia].
    destruct x; [congruence | cbn [List.length]; lia]. }
  rewrite E. rewrite firstn_app, firstn_all, Nat.sub_diag. cbn [firstn].
  apply app_nil_r.
Qed.

Lemma md_parts content_dir excl rel :
  md_path rel -> kept content_dir excl rel = true ->
  exists x,
    rel = removelast rel ++ [x ++ s ".md"] /\
    (forall suffix, with_suffix rel suffix = removelast rel ++ [x ++ suffix]) /\
    plain_part x = true /\
    Forall (fun p => plain_part p = true) (removelast rel).
Proof.
  intros (Hne & Hpl & x & Hx) Hk. exists x.
  assert (Hnx : x <> []).
  { intros ->. unfold kept in Hk. apply andb_prop in Hk. destruct Hk as [Hk _].
    apply andb_prop in Hk. destruct Hk as [_ Hv].
    unfold path_stem, path_name in Hv. rewrite last_app_nonempty in Hv by exact Hne.
    unfold path_name in Hx. rewrite Hx in Hv. vm_compute in Hv. discriminate. }
  split; [|split; [|split]].
  - unfold path_name in Hx. rewrite <- Hx. apply app_removelast_last. exact Hne.
  - intros suffix. unfold with_suffix. rewrite Hx, (name_stem_md _ Hnx). reflexivity.
  - rewrite Forall_forall in Hpl.
    assert (H : plain_part (x ++ s ".md") = true).
    { rewrite <- Hx. apply Hpl. unfold path_name. apply last_In. exact Hne. }
    rewrite plain_part_app in H. apply andb_prop in H. apply H.
  - rewrite Forall_forall in *. intros p Hp. apply Hpl. apply removelast_In. exact Hp.
Qed.

Section ScannerNames.

Variable yaml_safe_load : str -> option yaml_doc.
Variable render_markdown : str -> option str.
Variable fs : filesystem.
Variable cfg : config.


(** X22: no two files of a scan end at the same url: when the walk
    yields relative paths of [.md] files whose names hold no slash or
    backslash, two pages of the scan with the same url come from the
    same file. *)
Theorem generate_page_url_injective (content_dir : path) (st st' : state)
  (pages : list page) (pg pg' : page) :
  (forall rel, In rel (rglob_md fs content_dir) -> md_path rel) ->
  scan_directory yaml_safe_load render_markdown fs cfg content_dir st
  = Some (pages, st') ->
  In pg pages -> In pg' pages ->
  url pg = url pg' ->
  file_path pg = file_path pg'.
Proof.
  intros Hmd H Hpg Hpg' Eu.
  destruct (scan_directory_page _ _ _ _ _ _ _ _ _ H Hpg) as (rel & Hin & Hk & Hl).
  destruct (scan_directory_page _ _ _ _ _ _ _ _ _ H Hpg') as (rel' & Hin' & Hk' & Hl').
  rewrite (load_file_path _ _ _ _ _ _ _ Hl), (load_file_path _ _ _ _ _ _ _ Hl').
  f_equal.
  destruct (load_fields _ _ _ _ _ _ _ Hl) as (r & Er & _ & _ & _ & U).
  destruct (load_fields _ _ _ _ _ _ _ Hl') as (r' & Er' & _ & _ & _ & U').
  rewrite relative_to_app in Er, Er'. injection Er as <-. injection Er' as <-.
  destruct (md_parts _ _ _ (Hmd _ Hin) Hk) as (x & R & W & Px & Pl).
  destruct (md_parts _ _ _ (Hmd _ Hin') Hk') as (x' & R' & W' & Px' & Pl').
  rewrite W in U. rewrite W' in U'. unfold path_str in U, U'.
  assert (F : forall l y, Forall (fun p => plain_part p = true) l ->
                plain_part y = true ->
                Forall (fun p => plain_part p = true) (l ++ [y ++ s ".html"])).
  { intros l y Hl0 Hy. apply Forall_app. split; [exact Hl0|].
    constructor; [|constructor]. rewrite plain_part_app, Hy. reflexivity. }
  assert (G : forall l, Forall (fun p => plain_part p = true) l ->
                replace "\"%char (s "/") (join (s "/") l) = join (s "/") l).
  { intros l Hl0. apply replace_free. change (s "/") with ["/"%char].
    apply free_of_join; [reflexivity|].
    eapply Forall_impl; [|exact Hl0]. intros p Hp. apply plain_part_free. exact Hp. }
  rewrite G in U by (apply F; assumption).
  rewrite G in U' by (apply F; assumption).
  rewrite U, U' in Eu. change (s "/") with ["/"%char] in Eu.
  apply join_inj in Eu.
  - apply app_inj_tail in Eu. destruct Eu as [E1 E2].
    apply app_inv_tail in E2. subst x'. rewrite R, R', E1. reflexivity.
  - intros E. apply app_eq_nil in E. destruct E. discriminate.
  - intros E. apply app_eq_nil in E. destruct E. discriminate.
  - eapply Forall_impl; [|apply F; eassumption].
    intros p Hp. apply plain_part_free. exact Hp.
  - eapply Forall_impl; [|apply F; eassumption].
    intros p Hp. apply plain_part_free. exact Hp.
Qed.


End ScannerNames.

Lemma generate_page_url_injective_witness :
  exists pages st',
    scan_directory no_yaml plain_markdown fs_two_files default_config docs
      (mkState [] []) = Some (pages, st') /\
    forall pg pg', In pg pages -> In pg' pages ->
      url pg = url pg' -> file_path pg = file_path pg'.
Proof.
  destruct (scan_directory no_yaml plain_markdown fs_two_files default_config
              docs (mkState [] [])) as [[pages st']|] eqn:E;
    [|vm_compute in E; discriminate].
  exists pages, st'. split; [reflexivity|]. intros pg pg' Hpg Hpg'.
  refine (generate_page_url_injective no_yaml plain_markdown fs_two_files
            default_config docs (mkState [] []) st' pages pg pg' _ E Hpg Hpg').
  intros rel [<- | [<- | []]]; (split; [discriminate|]);
    (split; [repeat constructor|]).
  - exists (s "a-b"). reflexivity.
  - exists (s "b"). reflexivity.
Defined.


(** ** The YAML header *)








(** ** Category icons *)

Lemma lower_app a b : lower (a ++ b) = lower a ++ lower b.
Proof. unfold lower. apply map_app. Qed.

Lemma lower_digits t : forallb isdigit t = true -> lower t = t.
Proof.
  induction t as [|c t IH]; [reflexivity|]. cbn [forallb]. intros H.
  apply andb_prop in H. destruct H as [Hc Ht].
  unfold lower in *. cbn [map]. rewrite (IH Ht). f_equal.
  revert Hc. clear. each_ascii c; discriminate.
Qed.

Lemma lower_seps t : forallb is_prefix_sep t = true -> lower t = t.
Proof.
  induction t as [|c t IH]; [reflexivity|]. cbn [forallb]. intros H.
  apply andb_prop in H. destruct H as [Hc Ht].
  unfold lower in *. cbn [map]. rewrite (IH Ht). f_equal.
  revert Hc. clear. each_ascii c; discriminate.
Qed.

Lemma is_prefix_sep_lower_c c : is_prefix_sep (lower_c c) = is_prefix_sep c.
Proof. each_ascii c. Qed.

Lemma isdigit_lower_c c : isdigit (lower_c c) = isdigit c.
Proof. each_ascii c. Qed.

(** X25: with no icon configured for categories, the icon of a folder
    is that of its name without its numeric prefix, and it does not
    depend on the case of the letters: [01-guides], [Guides] and
    [guides] get the same icon. *)
Theorem get_category_icon_prefix (cfg : config) (digits seps rest : str) :
  category_icons cfg = [] ->
  digits <> [] -> seps <> [] ->
  forallb isdigit digits = true -> forallb is_prefix_sep seps = true ->
  match rest with
  | [] => True
  | c :: _ => is_prefix_sep c = false /\ isdigit c = false
  end ->
  get_category_icon cfg (digits ++ seps ++ rest) = get_category_icon cfg rest /\
  get_category_icon cfg (upper rest) = get_category_icon cfg rest.
Proof.
  intros Hc Hd Hs Fd Fs Hr. unfold get_category_icon. rewrite Hc.
  assert (N : forall keys, first_hit [] keys = None).
  { induction keys as [|k keys IH]; [reflexivity | exact IH]. }
  rewrite !N. split.
  - rewrite !lower_app, (lower_digits _ Fd), (lower_seps _ Fs).
    rewrite strip_number_prefix_strips; try assumption.
    + rewrite strip_number_prefix_keeps; [reflexivity|].
      destruct rest as [|c rest]; [exact I|]. unfold lower. cbn [map].
      rewrite isdigit_lower_c. tauto.
    + destruct rest as [|c rest]; [exact I|]. unfold lower. cbn [map].
      rewrite is_prefix_sep_lower_c. tauto.
  - rewrite lower_upper. reflexivity.
Qed.

Lemma get_category_icon_prefix_witness :
  get_category_icon default_config (s "01" ++ s "-" ++ s "guides")
  = get_category_icon default_config (s "guides") /\
  get_category_icon default_config (upper (s "guides"))
  = get_category_icon default_config (s "guides").
Proof.
  apply get_category_icon_prefix; try reflexivity; try discriminate.
  split; reflexivity.
Defined.
